(** * LveSwapChain: swap chain lifecycle and frame synchronisation

    A shallow embedding of [src/lve_swap_chain.cpp].  The C++ object is a
    record, its member functions are computations in a small state monad
    over the object and the platform, and every Vulkan entry point the code
    calls is recorded, with its arguments, in a log of calls.  The class
    declaration ([lve_swap_chain.hpp]), the [LveDevice] wrapper and the
    Vulkan platform are not part of the sources: the constant
    [MAX_FRAMES_IN_FLIGHT] and the device are parameters, and the platform
    is a small model of handles and fences. *)

From Stdlib Require Import String.
From stdpp Require Import base numbers list gmap.

Set Warnings "-register-all".
Local Open Scope N_scope.

(** ** Scalars, handles and enumerations *)

(** Vulkan handles are opaque 64-bit values; [VK_NULL_HANDLE] is zero. *)
Definition handle := N.
Definition VK_NULL_HANDLE : handle := 0.

Definition UINT32_MAX : N := 2 ^ 32 - 1.
Definition UINT64_MAX : N := 2 ^ 64 - 1.
Definition VK_SUBPASS_EXTERNAL : N := UINT32_MAX.

(** [uint32_t] and [size_t] arithmetic wraps around. *)
Definition u32 (n : N) : N := n mod 2 ^ 32.
Definition usize (n : N) : N := n mod 2 ^ 64.

(** [vk::Format] and [vk::ColorSpaceKHR] by their enumerator values. *)
Definition Format := N.
Definition eFormatUndefined : Format := 0.
Definition eB8G8R8A8Unorm : Format := 44.
Definition eB8G8R8A8Srgb : Format := 50.
Definition eD32Sfloat : Format := 126.
Definition eD24UnormS8Uint : Format := 129.
Definition eD32SfloatS8Uint : Format := 130.

Definition ColorSpaceKHR := N.
Definition eSrgbNonlinear : ColorSpaceKHR := 0.

Inductive PresentModeKHR :=
  eImmediate | eMailbox | eFifo | eFifoRelaxed
| eSharedDemandRefresh | eSharedContinuousRefresh.

Inductive Result :=
  eSuccess | eNotReady | eTimeout | eSuboptimalKHR
| eErrorOutOfDateKHR | eErrorSurfaceLostKHR | eErrorDeviceLost
| eErrorOutOfHostMemory | eErrorOutOfDeviceMemory.

Inductive SharingMode := eExclusive | eConcurrent.
Inductive ImageLayout :=
  eUndefined | eColorAttachmentOptimal | eDepthStencilAttachmentOptimal
| ePresentSrcKHR.
Inductive AttachmentLoadOp := eLoad | eClear | eLoadDontCare.
Inductive AttachmentStoreOp := eStore | eStoreDontCare.
Inductive ImageTiling := eOptimal | eLinear.
Inductive ImageViewType := e1D | e2D | e3D.
Inductive PipelineBindPoint := eGraphics | eCompute.

Global Instance PresentModeKHR_eq_dec : EqDecision PresentModeKHR.
Proof. solve_decision. Defined.
Global Instance Result_eq_dec : EqDecision Result.
Proof. solve_decision. Defined.

(** Flag bits used by the source. *)
Definition Flags := N.
Definition ePipelineStageEarlyFragmentTests : Flags := 0x100.
Definition ePipelineStageColorAttachmentOutput : Flags := 0x400.
Definition eAccessColorAttachmentWrite : Flags := 0x100.
Definition eAccessDepthStencilAttachmentWrite : Flags := 0x400.
Definition eImageUsageColorAttachment : Flags := 0x10.
Definition eImageUsageDepthStencilAttachment : Flags := 0x20.
Definition eImageAspectColor : Flags := 0x1.
Definition eImageAspectDepth : Flags := 0x2.
Definition eMemoryPropertyDeviceLocal : Flags := 0x1.
Definition eFormatFeatureDepthStencilAttachment : Flags := 0x200.
Definition eSampleCount1 : Flags := 0x1.
Definition eCompositeAlphaOpaque : Flags := 0x1.
Definition eFenceCreateSignaled : Flags := 0x1.

(** ** Vulkan structures *)

Record Extent2D := { width : N; height : N }.
Record Extent3D := { width3 : N; height3 : N; depth3 : N }.

Record SurfaceFormatKHR := { format : Format; colorSpace : ColorSpaceKHR }.

Record SurfaceCapabilitiesKHR := {
  minImageCount : N;
  maxImageCount : N;
  currentExtent : Extent2D;
  minImageExtent : Extent2D;
  maxImageExtent : Extent2D;
  currentTransform : Flags
}.

Record SwapChainSupportDetails := {
  capabilities : SurfaceCapabilitiesKHR;
  formats : list SurfaceFormatKHR;
  presentModes : list PresentModeKHR
}.

Record QueueFamilyIndices := { graphicsFamily : N; presentFamily : N }.

Record SwapchainCreateInfoKHR := {
  sci_surface : handle;
  sci_minImageCount : N;
  sci_imageFormat : Format;
  sci_imageColorSpace : ColorSpaceKHR;
  sci_imageExtent : Extent2D;
  sci_imageArrayLayers : N;
  sci_imageUsage : Flags;
  sci_imageSharingMode : SharingMode;
  sci_queueFamilyIndexCount : N;
  sci_pQueueFamilyIndices : option (list N);
  sci_preTransform : Flags;
  sci_compositeAlpha : Flags;
  sci_presentMode : PresentModeKHR;
  sci_clipped : bool;
  sci_oldSwapchain : handle
}.

Record ImageViewCreateInfo := {
  ivi_image : handle;
  ivi_viewType : ImageViewType;
  ivi_format : Format;
  ivi_aspectMask : Flags;
  ivi_baseMipLevel : N;
  ivi_levelCount : N;
  ivi_baseArrayLayer : N;
  ivi_layerCount : N
}.

Record AttachmentDescription := {
  ad_format : Format;
  ad_samples : Flags;
  ad_loadOp : AttachmentLoadOp;
  ad_storeOp : AttachmentStoreOp;
  ad_stencilLoadOp : AttachmentLoadOp;
  ad_stencilStoreOp : AttachmentStoreOp;
  ad_initialLayout : ImageLayout;
  ad_finalLayout : ImageLayout
}.

Record AttachmentReference := { ar_attachment : N; ar_layout : ImageLayout }.

Record SubpassDescription := {
  sd_pipelineBindPoint : PipelineBindPoint;
  sd_colorAttachmentCount : N;
  sd_pColorAttachments : list AttachmentReference;
  sd_pDepthStencilAttachment : option AttachmentReference
}.

Record SubpassDependency := {
  dep_srcSubpass : N;
  dep_dstSubpass : N;
  dep_srcStageMask : Flags;
  dep_dstStageMask : Flags;
  dep_srcAccessMask : Flags;
  dep_dstAccessMask : Flags
}.

Record RenderPassCreateInfo := {
  rpi_attachmentCount : N;
  rpi_pAttachments : list AttachmentDescription;
  rpi_subpassCount : N;
  rpi_pSubpasses : list SubpassDescription;
  rpi_dependencyCount : N;
  rpi_pDependencies : list SubpassDependency
}.

Record FramebufferCreateInfo := {
  fbi_renderPass : handle;
  fbi_attachmentCount : N;
  fbi_pAttachments : list handle;
  fbi_width : N;
  fbi_height : N;
  fbi_layers : N
}.

Record ImageCreateInfo := {
  ici_imageType : ImageViewType;
  ici_format : Format;
  ici_extent : Extent3D;
  ici_mipLevels : N;
  ici_arrayLayers : N;
  ici_samples : Flags;
  ici_tiling : ImageTiling;
  ici_usage : Flags;
  ici_sharingMode : SharingMode;
  ici_initialLayout : ImageLayout
}.

Record FenceCreateInfo := { fci_flags : Flags }.

(** Pointer members hold the array they point to. *)
Record SubmitInfo := {
  si_waitSemaphoreCount : N;
  si_pWaitSemaphores : list handle;
  si_pWaitDstStageMask : list Flags;
  si_commandBufferCount : N;
  si_pCommandBuffers : list handle;
  si_signalSemaphoreCount : N;
  si_pSignalSemaphores : list handle
}.

Record PresentInfoKHR := {
  pi_waitSemaphoreCount : N;
  pi_pWaitSemaphores : list handle;
  pi_swapchainCount : N;
  pi_pSwapchains : list handle;
  pi_pImageIndices : list N
}.

(** ** The platform

    Every call the swap chain makes on the logical device, its queues or
    the [LveDevice] wrapper, in the order made, with the value returned. *)
Inductive Call :=
| CreateSwapchainKHR (ci : SwapchainCreateInfoKHR) (ret : handle)
| GetSwapchainImagesKHR (sc : handle) (ret : list handle)
| CreateImageView (ci : ImageViewCreateInfo) (ret : handle)
| CreateRenderPass (ci : RenderPassCreateInfo) (ret : handle)
| CreateImageWithInfo (ci : ImageCreateInfo) (props : Flags)
                      (image memory : handle)
| CreateFramebuffer (ci : FramebufferCreateInfo) (ret : handle)
| CreateSemaphore (ret : handle)
| CreateFence (ci : FenceCreateInfo) (ret : handle)
| DestroyImageView (h : handle)
| DestroySwapchainKHR (h : handle)
| DestroyImage (h : handle)
| FreeMemory (h : handle)
| DestroyFramebuffer (h : handle)
| DestroyRenderPass (h : handle)
| DestroySemaphore (h : handle)
| DestroyFence (h : handle)
| WaitForFences (fence : handle) (waitAll : bool) (timeout : N)
| ResetFences (fence : handle)
| AcquireNextImageKHR (sc : handle) (timeout : N) (semaphore fence : handle)
                      (ret : Result * N)
| QueueSubmit (si : SubmitInfo) (fence : handle)
| QueuePresentKHR (pi : PresentInfoKHR) (ret : Result)
| StdCout (line : string).

(** State of the platform as the host sees it: the calls made so far, the
    last handle handed out, the fences the host knows to be signaled (created
    signaled or waited for, and not reset since), and the fences on which a
    host wait could not rely on that knowledge.  The device's own progress
    is not part of the state: a fence handed to a queue is signaled by the
    device at a time the host does not see, so a fence in [signaled] is
    signaled, while a fence outside it may or may not be. *)
Record World := {
  calls : list Call;
  next_handle : N;
  signaled : gset N;
  stalls : list handle
}.

(** The collaborators of the swap chain: the [LveDevice] queries and the
    answers of the presentation engine, which may depend on the calls made
    so far. *)
Record LveDevice := {
  surface : handle;
  getSwapChainSupport : list Call -> SwapChainSupportDetails;
  findPhysicalQueueFamilies : QueueFamilyIndices;
  findSupportedFormat : list Format -> ImageTiling -> Flags -> Format;
  swapchainImages : list Call -> handle -> list handle;
  acquireAnswer : list Call -> Result * N;
  presentAnswer : list Call -> PresentInfoKHR -> Result
}.

(** ** The swap chain object

    The data members of [class LveSwapChain].  The [std::shared_ptr] to
    the predecessor is the predecessor itself, or [None] for [nullptr]. *)
Inductive LveSwapChain := mkLveSwapChain {
  swapChainImageFormat : Format;
  swapChainDepthFormat : Format;
  swapChainExtent : Extent2D;
  swapChainFramebuffers : list handle;
  renderPass : handle;
  depthImages : list handle;
  depthImageMemorys : list handle;
  depthImageViews : list handle;
  swapChainImages : list handle;
  swapChainImageViews : list handle;
  windowExtent : Extent2D;
  swapChain : handle;
  oldSwapChain : option LveSwapChain;
  imageAvailableSemaphores : list handle;
  renderFinishedSemaphores : list handle;
  inFlightFences : list handle;
  imagesInFlight : list handle;
  currentFrame : N
}.

(** Assignment to one member. *)
Definition set_swapChainImageFormat (x : Format) (s : LveSwapChain) :=
  let 'mkLveSwapChain _ b c d e f g h i j k l m n o p q r := s in
  mkLveSwapChain x b c d e f g h i j k l m n o p q r.
Definition set_swapChainDepthFormat (x : Format) (s : LveSwapChain) :=
  let 'mkLveSwapChain a _ c d e f g h i j k l m n o p q r := s in
  mkLveSwapChain a x c d e f g h i j k l m n o p q r.
Definition set_swapChainExtent (x : Extent2D) (s : LveSwapChain) :=
  let 'mkLveSwapChain a b _ d e f g h i j k l m n o p q r := s in
  mkLveSwapChain a b x d e f g h i j k l m n o p q r.
Definition set_swapChainFramebuffers (x : list handle) (s : LveSwapChain) :=
  let 'mkLveSwapChain a b c _ e f g h i j k l m n o p q r := s in
  mkLveSwapChain a b c x e f g h i j k l m n o p q r.
Definition set_renderPass (x : handle) (s : LveSwapChain) :=
  let 'mkLveSwapChain a b c d _ f g h i j k l m n o p q r := s in
  mkLveSwapChain a b c d x f g h i j k l m n o p q r.
Definition set_depthImages (x : list handle) (s : LveSwapChain) :=
  let 'mkLveSwapChain a b c d e _ g h i j k l m n o p q r := s in
  mkLveSwapChain a b c d e x g h i j k l m n o p q r.
Definition set_depthImageMemorys (x : list handle) (s : LveSwapChain) :=
  let 'mkLveSwapChain a b c d e f _ h i j k l m n o p q r := s in
  mkLveSwapChain a b c d e f x h i j k l m n o p q r.
Definition set_depthImageViews (x : list handle) (s : LveSwapChain) :=
  let 'mkLveSwapChain a b c d e f g _ i j k l m n o p q r := s in
  mkLveSwapChain a b c d e f g x i j k l m n o p q r.
Definition set_swapChainImages (x : list handle) (s : LveSwapChain) :=
  let 'mkLveSwapChain a b c d e f g h _ j k l m n o p q r := s in
  mkLveSwapChain a b c d e f g h x j k l m n o p q r.
Definition set_swapChainImageViews (x : list handle) (s : LveSwapChain) :=
  let 'mkLveSwapChain a b c d e f g h i _ k l m n o p q r := s in
  mkLveSwapChain a b c d e f g h i x k l m n o p q r.
Definition set_swapChain (x : handle) (s : LveSwapChain) :=
  let 'mkLveSwapChain a b c d e f g h i j k _ m n o p q r := s in
  mkLveSwapChain a b c d e f g h i j k x m n o p q r.
Definition set_oldSwapChain (x : option LveSwapChain) (s : LveSwapChain) :=
  let 'mkLveSwapChain a b c d e f g h i j k l _ n o p q r := s in
  mkLveSwapChain a b c d e f g h i j k l x n o p q r.
Definition set_imageAvailableSemaphores (x : list handle) (s : LveSwapChain) :=
  let 'mkLveSwapChain a b c d e f g h i j k l m _ o p q r := s in
  mkLveSwapChain a b c d e f g h i j k l m x o p q r.
Definition set_renderFinishedSemaphores (x : list handle) (s : LveSwapChain) :=
  let 'mkLveSwapChain a b c d e f g h i j k l m n _ p q r := s in
  mkLveSwapChain a b c d e f g h i j k l m n x p q r.
Definition set_inFlightFences (x : list handle) (s : LveSwapChain) :=
  let 'mkLveSwapChain a b c d e f g h i j k l m n o _ q r := s in
  mkLveSwapChain a b c d e f g h i j k l m n o x q r.
Definition set_imagesInFlight (x : list handle) (s : LveSwapChain) :=
  let 'mkLveSwapChain a b c d e f g h i j k l m n o p _ r := s in
  mkLveSwapChain a b c d e f g h i j k l m n o p x r.
Definition set_currentFrame (x : N) (s : LveSwapChain) :=
  let 'mkLveSwapChain a b c d e f g h i j k l m n o p q _ := s in
  mkLveSwapChain a b c d e f g h i j k l m n o p q x.

(** Modelled from the spec: the default member initialisers of the class
    declaration in [lve_swap_chain.hpp] (not part of the sources at hand):
    handles default to null, sequences to empty, and the frame index to 0.
    The constructors' initialiser lists set [windowExtent] and
    [oldSwapChain]. *)
Definition fresh_object (extent : Extent2D) (previous : option LveSwapChain)
  : LveSwapChain :=
  {| swapChainImageFormat := eFormatUndefined;
     swapChainDepthFormat := eFormatUndefined;
     swapChainExtent := {| width := 0; height := 0 |};
     swapChainFramebuffers := [];
     renderPass := VK_NULL_HANDLE;
     depthImages := [];
     depthImageMemorys := [];
     depthImageViews := [];
     swapChainImages := [];
     swapChainImageViews := [];
     windowExtent := extent;
     swapChain := VK_NULL_HANDLE;
     oldSwapChain := previous;
     imageAvailableSemaphores := [];
     renderFinishedSemaphores := [];
     inFlightFences := [];
     imagesInFlight := [];
     currentFrame := 0 |}.

(** Modelled from the spec: the inline accessors of the class declaration
    in [lve_swap_chain.hpp]: the image count is the number of swap chain
    images, and the two getters return the stored members. *)
Definition imageCount (s : LveSwapChain) : nat := length (swapChainImages s).
Definition getSwapChainExtent (s : LveSwapChain) : Extent2D := swapChainExtent s.
Definition getSwapChainImageFormat (s : LveSwapChain) : Format :=
  swapChainImageFormat s.

(** ** Computations

    A member function runs on the object and the platform.  It either
    returns, or stops at undefined behaviour (indexing a [std::vector]
    outside its bounds); the object and the platform are then given as
    they were at that point. *)
Inductive outcome (A : Type) :=
| Ok (a : A) (s : LveSwapChain) (w : World)
| Fault (s : LveSwapChain) (w : World).
Arguments Ok {A} a s w.
Arguments Fault {A} s w.

Definition M (A : Type) : Type := LveSwapChain -> World -> outcome A.

Global Instance M_ret : MRet M := λ A a s w, Ok a s w.
Global Instance M_bind : MBind M := λ A B f m s w,
  match m s w with
  | Ok a s' w' => f a s' w'
  | Fault s' w' => Fault s' w'
  end.

Definition gets {A} (f : LveSwapChain -> A) : M A := λ s w, Ok (f s) s w.
Definition modify (f : LveSwapChain -> LveSwapChain) : M unit :=
  λ s w, Ok () (f s) w.
Definition fault {A} : M A := λ s w, Fault s w.

(** [v[i]], [v[i] = x] and [v.resize(n)] on a vector member. *)
Definition vec_read (get : LveSwapChain -> list handle) (i : nat) : M handle :=
  λ s w, match get s !! i with
         | Some x => Ok x s w
         | None => Fault s w
         end.
Definition vec_write (get : LveSwapChain -> list handle)
    (set : list handle -> LveSwapChain -> LveSwapChain)
    (i : nat) (x : handle) : M unit :=
  λ s w, if decide (i < length (get s))%nat
         then Ok () (set (<[i:=x]> (get s)) s) w
         else Fault s w.
Definition vec_resize (get : LveSwapChain -> list handle)
    (set : list handle -> LveSwapChain -> LveSwapChain)
    (n : nat) (fill : handle) : M unit :=
  modify (λ s, set (resize n fill (get s)) s).

(** A range-based [for] over the elements, and a counted [for] loop whose
    body leaves the bound unchanged. *)
Fixpoint for_each {A} (l : list A) (body : A -> M unit) : M unit :=
  match l with
  | [] => mret ()
  | x :: rest => body x ;; for_each rest body
  end.
Definition for_range (n : nat) (body : nat -> M unit) : M unit :=
  for_each (seq 0 n) body.

(** Platform bookkeeping.  A create call that succeeds returns a handle
    that was never handed out before, so never the null handle; a create
    call that fails throws and ends the construction, and such runs are not
    followed further (see [init_upto] for the object they leave). *)
Definition log (c : Call) : M unit := λ s w,
  Ok () s {| calls := calls w ++ [c]; next_handle := next_handle w;
             signaled := signaled w; stalls := stalls w |}.
Definition fresh : M handle := λ s w,
  let h := N.succ (next_handle w) in
  Ok h s {| calls := calls w; next_handle := h;
            signaled := signaled w; stalls := stalls w |}.
Definition history : M (list Call) := λ s w, Ok (calls w) s w.

(** The object and the platform a computation ends with. *)
Definition outcome_object {A} (o : outcome A) : LveSwapChain :=
  match o with Ok _ s _ | Fault s _ => s end.
Definition outcome_world {A} (o : outcome A) : World :=
  match o with Ok _ _ w | Fault _ w => w end.

(** ** A concrete platform

    A device with three swap chain images and one queue family for
    graphics and presentation, and one whose reported minimum image count
    is the largest 32-bit value. *)
Definition demoExtent : Extent2D := {| width := 800; height := 600 |}.
Definition resizedExtent : Extent2D := {| width := 400; height := 300 |}.

Definition demoSupport : SwapChainSupportDetails :=
  {| capabilities :=
       {| minImageCount := 2;
          maxImageCount := 8;
          currentExtent := {| width := UINT32_MAX; height := UINT32_MAX |};
          minImageExtent := {| width := 1; height := 1 |};
          maxImageExtent := {| width := 4096; height := 4096 |};
          currentTransform := 1 |};
     formats := [{| format := eB8G8R8A8Unorm; colorSpace := eSrgbNonlinear |};
                 {| format := eB8G8R8A8Srgb; colorSpace := eSrgbNonlinear |}];
     presentModes := [eFifo; eMailbox] |}.

Definition demoDevice : LveDevice :=
  {| surface := 7;
     getSwapChainSupport := λ _, demoSupport;
     findPhysicalQueueFamilies := {| graphicsFamily := 0; presentFamily := 0 |};
     findSupportedFormat :=
       λ candidates _ _, default eFormatUndefined (head candidates);
     swapchainImages := λ _ _, [501; 502; 503];
     acquireAnswer := λ _, (eSuccess, 0);
     presentAnswer := λ _ _, eSuccess |}.

Definition overflowDevice : LveDevice :=
  {| surface := 7;
     getSwapChainSupport := λ _,
       {| capabilities :=
            {| minImageCount := UINT32_MAX;
               maxImageCount := 0;
               currentExtent := {| width := 800; height := 600 |};
               minImageExtent := {| width := 1; height := 1 |};
               maxImageExtent := {| width := 4096; height := 4096 |};
               currentTransform := 1 |};
          formats := formats demoSupport;
          presentModes := [eFifo] |};
     findPhysicalQueueFamilies := {| graphicsFamily := 0; presentFamily := 1 |};
     findSupportedFormat :=
       λ candidates _ _, default eFormatUndefined (head candidates);
     swapchainImages := λ _ _, [501; 502; 503];
     acquireAnswer := λ _, (eSuccess, 0);
     presentAnswer := λ _ _, eErrorOutOfDateKHR |}.

Definition demoWorld : World :=
  {| calls := []; next_handle := 0; signaled := ∅; stalls := [] |}.

(** A device that reports no surface format. *)
Definition noFormatDevice : LveDevice :=
  {| surface := 7;
     getSwapChainSupport := λ _,
       {| capabilities := capabilities demoSupport;
          formats := [];
          presentModes := [eFifo] |};
     findPhysicalQueueFamilies := {| graphicsFamily := 0; presentFamily := 0 |};
     findSupportedFormat :=
       λ candidates _ _, default eFormatUndefined (head candidates);
     swapchainImages := λ _ _, [501; 502; 503];
     acquireAnswer := λ _, (eSuccess, 0);
     presentAnswer := λ _ _, eSuccess |}.

(** ** The member functions *)
Section Model.

(** The class constant [MAX_FRAMES_IN_FLIGHT] is declared in the header;
    the model is parametric in it and in the device. *)
Variable MAX_FRAMES_IN_FLIGHT : N.
Variable device : LveDevice.

(** *** Entry points of the logical device and its queues *)

Definition createSwapchainKHR (ci : SwapchainCreateInfoKHR) : M handle :=
  h ← fresh; log (CreateSwapchainKHR ci h);; mret h.

Definition getSwapchainImagesKHR (sc : handle) : M (list handle) :=
  past ← history;
  let images := swapchainImages device past sc in
  log (GetSwapchainImagesKHR sc images);; mret images.

Definition createImageView (ci : ImageViewCreateInfo) : M handle :=
  h ← fresh; log (CreateImageView ci h);; mret h.

Definition createRenderPassKHR (ci : RenderPassCreateInfo) : M handle :=
  h ← fresh; log (CreateRenderPass ci h);; mret h.

Definition createFramebuffer (ci : FramebufferCreateInfo) : M handle :=
  h ← fresh; log (CreateFramebuffer ci h);; mret h.

Definition createSemaphore : M handle :=
  h ← fresh; log (CreateSemaphore h);; mret h.

(** A fence created with the signaled bit starts out signaled. *)
Definition mark_signaled (fence : handle) : M unit := λ s w,
  Ok () s {| calls := calls w; next_handle := next_handle w;
             signaled := {[fence]} ∪ signaled w; stalls := stalls w |}.

Definition createFence (ci : FenceCreateInfo) : M handle :=
  h ← fresh;
  log (CreateFence ci h);;
  (if N.testbit (fci_flags ci) 0 then mark_signaled h else mret ());;
  mret h.

(** Modelled from the spec: [LveDevice::createImageWithInfo], the
    device's generic create-image-with-backing-memory operation, which
    fills in the image and the memory handle passed by reference. *)
Definition createImageWithInfo (ci : ImageCreateInfo) (props : Flags)
  : M (handle * handle) :=
  image ← fresh;
  memory ← fresh;
  log (CreateImageWithInfo ci props image memory);;
  mret (image, memory).

Definition destroyImageView (h : handle) : M unit := log (DestroyImageView h).
Definition destroySwapchainKHR (h : handle) : M unit :=
  log (DestroySwapchainKHR h).
Definition destroyImage (h : handle) : M unit := log (DestroyImage h).
Definition freeMemory (h : handle) : M unit := log (FreeMemory h).
Definition destroyFramebuffer (h : handle) : M unit :=
  log (DestroyFramebuffer h).
Definition destroyRenderPass (h : handle) : M unit := log (DestroyRenderPass h).
Definition destroySemaphore (h : handle) : M unit := log (DestroySemaphore h).
Definition destroyFence (h : handle) : M unit := log (DestroyFence h).

(** A host wait with an unbounded timeout returns at once when the fence
    is known to be signaled; otherwise the host may have to block until the
    device signals it, which is recorded in [stalls].  When the wait
    returns the fence is signaled. *)
Definition waitForFences (fence : handle) (waitAll : bool) (timeout : N)
  : M unit := λ s w,
  Ok () s
     {| calls := calls w ++ [WaitForFences fence waitAll timeout];
        next_handle := next_handle w;
        signaled := {[fence]} ∪ signaled w;
        stalls := if decide (fence ∈ signaled w)
                  then stalls w else stalls w ++ [fence] |}.

Definition resetFences (fence : handle) : M unit := λ s w,
  Ok () s
     {| calls := calls w ++ [ResetFences fence];
        next_handle := next_handle w;
        signaled := signaled w ∖ {[fence]};
        stalls := stalls w |}.

Definition acquireNextImageKHR (sc : handle) (timeout : N)
    (semaphore fence : handle) : M (Result * N) :=
  past ← history;
  let answer := acquireAnswer device past in
  log (AcquireNextImageKHR sc timeout semaphore fence answer);;
  mret answer.

(** The submission is logged with its fence.  When the device completes
    it and signals the fence is not modelled, so [signaled] is left as it
    is. *)
Definition queueSubmit (si : SubmitInfo) (fence : handle) : M unit :=
  log (QueueSubmit si fence).

Definition presentKHR (pi : PresentInfoKHR) : M Result :=
  past ← history;
  let answer := presentAnswer device past pi in
  log (QueuePresentKHR pi answer);;
  mret answer.

Definition cout (line : string) : M unit := log (StdCout line).

(** *** Capability negotiation *)

Definition is_preferred_format (f : SurfaceFormatKHR) : bool :=
  (format f =? eB8G8R8A8Srgb) && (colorSpace f =? eSrgbNonlinear).

(** The loop of [chooseSwapSurfaceFormat]: the first preferred entry. *)
Fixpoint first_preferred_format (l : list SurfaceFormatKHR)
  : option SurfaceFormatKHR :=
  match l with
  | [] => None
  | availableFormat :: rest =>
      if is_preferred_format availableFormat then Some availableFormat
      else first_preferred_format rest
  end.

(** [None] stands for the undefined [availableFormats[0]] of an empty
    vector. *)
Definition chooseSwapSurfaceFormat (availableFormats : list SurfaceFormatKHR)
  : option SurfaceFormatKHR :=
  match first_preferred_format availableFormats with
  | Some availableFormat => Some availableFormat
  | None => availableFormats !! 0%nat
  end.

Fixpoint has_mailbox (l : list PresentModeKHR) : bool :=
  match l with
  | [] => false
  | availablePresentMode :: rest =>
      if decide (availablePresentMode = eMailbox) then true
      else has_mailbox rest
  end.

Definition chooseSwapPresentMode (availablePresentModes : list PresentModeKHR)
  : M PresentModeKHR :=
  if has_mailbox availablePresentModes
  then cout "Present mode: Mailbox";; mret eMailbox
  else cout "Present mode: V-Sync";; mret eFifo.

Definition chooseSwapExtent (caps : SurfaceCapabilitiesKHR) : M Extent2D :=
  if decide (width (currentExtent caps) ≠ UINT32_MAX)
  then mret (currentExtent caps)
  else
    actualExtent ← gets windowExtent;
    mret {| width := N.max (width (minImageExtent caps))
                       (N.min (width (maxImageExtent caps))
                              (width actualExtent));
            height := N.max (height (minImageExtent caps))
                        (N.min (height (maxImageExtent caps))
                               (height actualExtent)) |}.

Definition findDepthFormat : Format :=
  findSupportedFormat device
    [eD32Sfloat; eD32SfloatS8Uint; eD24UnormS8Uint]
    eOptimal eFormatFeatureDepthStencilAttachment.

(** The image count asked of the platform (lines 127-131). *)
Definition requestedImageCount (caps : SurfaceCapabilitiesKHR) : N :=
  let imageCount := u32 (minImageCount caps + 1) in
  if (0 <? maxImageCount caps) && (maxImageCount caps <? imageCount)
  then maxImageCount caps
  else imageCount.

(** *** Creation *)

Definition createSwapChain : M unit :=
  past ← history;
  let swapChainSupport := getSwapChainSupport device past in
  match chooseSwapSurfaceFormat (formats swapChainSupport) with
  | None => fault
  | Some surfaceFormat =>
    presentMode ← chooseSwapPresentMode (presentModes swapChainSupport);
    extent ← chooseSwapExtent (capabilities swapChainSupport);
    let imageCount := requestedImageCount (capabilities swapChainSupport) in
    let indices := findPhysicalQueueFamilies device in
    let queueFamilyIndices := [graphicsFamily indices; presentFamily indices] in
    let concurrent :=
      bool_decide (graphicsFamily indices ≠ presentFamily indices) in
    old ← gets oldSwapChain;
    let createInfo :=
      {| sci_surface := surface device;
         sci_minImageCount := imageCount;
         sci_imageFormat := format surfaceFormat;
         sci_imageColorSpace := colorSpace surfaceFormat;
         sci_imageExtent := extent;
         sci_imageArrayLayers := 1;
         sci_imageUsage := eImageUsageColorAttachment;
         sci_imageSharingMode := if concurrent then eConcurrent else eExclusive;
         sci_queueFamilyIndexCount := if concurrent then 2 else 0;
         sci_pQueueFamilyIndices :=
           if concurrent then Some queueFamilyIndices else None;
         sci_preTransform := currentTransform (capabilities swapChainSupport);
         sci_compositeAlpha := eCompositeAlphaOpaque;
         sci_presentMode := presentMode;
         sci_clipped := true;
         sci_oldSwapchain :=
           match old with
           | None => VK_NULL_HANDLE
           | Some previous => swapChain previous
           end |} in
    sc ← createSwapchainKHR createInfo;
    modify (set_swapChain sc);;
    images ← getSwapchainImagesKHR sc;
    modify (set_swapChainImages images);;
    modify (set_swapChainImageFormat (format surfaceFormat));;
    modify (set_swapChainExtent extent)
  end.

Definition createImageViews : M unit :=
  n ← gets (λ s, length (swapChainImages s));
  vec_resize swapChainImageViews set_swapChainImageViews n VK_NULL_HANDLE;;
  for_range n (λ i,
    image ← vec_read swapChainImages i;
    fmt ← gets swapChainImageFormat;
    let viewInfo :=
      {| ivi_image := image;
         ivi_viewType := e2D;
         ivi_format := fmt;
         ivi_aspectMask := eImageAspectColor;
         ivi_baseMipLevel := 0;
         ivi_levelCount := 1;
         ivi_baseArrayLayer := 0;
         ivi_layerCount := 1 |} in
    view ← createImageView viewInfo;
    vec_write swapChainImageViews set_swapChainImageViews i view).

Definition createRenderPass : M unit :=
  let depthAttachment :=
    {| ad_format := findDepthFormat;
       ad_samples := eSampleCount1;
       ad_loadOp := eClear;
       ad_storeOp := eStoreDontCare;
       ad_stencilLoadOp := eLoadDontCare;
       ad_stencilStoreOp := eStoreDontCare;
       ad_initialLayout := eUndefined;
       ad_finalLayout := eDepthStencilAttachmentOptimal |} in
  let depthAttachmentRef :=
    {| ar_attachment := 1; ar_layout := eDepthStencilAttachmentOptimal |} in
  fmt ← gets getSwapChainImageFormat;
  let colorAttachment :=
    {| ad_format := fmt;
       ad_samples := eSampleCount1;
       ad_loadOp := eClear;
       ad_storeOp := eStore;
       ad_stencilLoadOp := eLoadDontCare;
       ad_stencilStoreOp := eStoreDontCare;
       ad_initialLayout := eUndefined;
       ad_finalLayout := ePresentSrcKHR |} in
  let colorAttachmentRef :=
    {| ar_attachment := 0; ar_layout := eColorAttachmentOptimal |} in
  let subpass :=
    {| sd_pipelineBindPoint := eGraphics;
       sd_colorAttachmentCount := 1;
       sd_pColorAttachments := [colorAttachmentRef];
       sd_pDepthStencilAttachment := Some depthAttachmentRef |} in
  let dependency :=
    {| dep_srcSubpass := VK_SUBPASS_EXTERNAL;
       dep_dstSubpass := 0;
       dep_srcStageMask := N.lor ePipelineStageColorAttachmentOutput
                                 ePipelineStageEarlyFragmentTests;
       dep_dstStageMask := N.lor ePipelineStageColorAttachmentOutput
                                 ePipelineStageEarlyFragmentTests;
       dep_srcAccessMask := 0;
       dep_dstAccessMask := N.lor eAccessColorAttachmentWrite
                                  eAccessDepthStencilAttachmentWrite |} in
  let attachments := [colorAttachment; depthAttachment] in
  let renderPassInfo :=
    {| rpi_attachmentCount := N.of_nat (length attachments);
       rpi_pAttachments := attachments;
       rpi_subpassCount := 1;
       rpi_pSubpasses := [subpass];
       rpi_dependencyCount := 1;
       rpi_pDependencies := [dependency] |} in
  rp ← createRenderPassKHR renderPassInfo;
  modify (set_renderPass rp).

Definition createFramebuffers : M unit :=
  n ← gets imageCount;
  vec_resize swapChainFramebuffers set_swapChainFramebuffers n VK_NULL_HANDLE;;
  for_range n (λ i,
    colorView ← vec_read swapChainImageViews i;
    depthView ← vec_read depthImageViews i;
    let attachments := [colorView; depthView] in
    extent ← gets getSwapChainExtent;
    rp ← gets renderPass;
    let framebufferInfo :=
      {| fbi_renderPass := rp;
         fbi_attachmentCount := N.of_nat (length attachments);
         fbi_pAttachments := attachments;
         fbi_width := width extent;
         fbi_height := height extent;
         fbi_layers := 1 |} in
    fb ← createFramebuffer framebufferInfo;
    vec_write swapChainFramebuffers set_swapChainFramebuffers i fb).

Definition createDepthResources : M unit :=
  let depthFormat := findDepthFormat in
  modify (set_swapChainDepthFormat depthFormat);;
  extent ← gets getSwapChainExtent;
  n ← gets imageCount;
  vec_resize depthImages set_depthImages n VK_NULL_HANDLE;;
  vec_resize depthImageMemorys set_depthImageMemorys n VK_NULL_HANDLE;;
  vec_resize depthImageViews set_depthImageViews n VK_NULL_HANDLE;;
  size ← gets (λ s, length (depthImages s));
  for_range size (λ i,
    let imageInfo :=
      {| ici_imageType := e2D;
         ici_format := depthFormat;
         ici_extent := {| width3 := width extent; height3 := height extent;
                          depth3 := 1 |};
         ici_mipLevels := 1;
         ici_arrayLayers := 1;
         ici_samples := eSampleCount1;
         ici_tiling := eOptimal;
         ici_usage := eImageUsageDepthStencilAttachment;
         ici_sharingMode := eExclusive;
         ici_initialLayout := eUndefined |} in
    (* the two output references are bound before the call *)
    _ ← vec_read depthImages i;
    _ ← vec_read depthImageMemorys i;
    '(image, memory) ← createImageWithInfo imageInfo eMemoryPropertyDeviceLocal;
    vec_write depthImages set_depthImages i image;;
    vec_write depthImageMemorys set_depthImageMemorys i memory;;
    depthImage ← vec_read depthImages i;
    let viewInfo :=
      {| ivi_image := depthImage;
         ivi_viewType := e2D;
         ivi_format := depthFormat;
         ivi_aspectMask := eImageAspectDepth;
         ivi_baseMipLevel := 0;
         ivi_levelCount := 1;
         ivi_baseArrayLayer := 0;
         ivi_layerCount := 1 |} in
    view ← createImageView viewInfo;
    vec_write depthImageViews set_depthImageViews i view).

Definition createSyncObjects : M unit :=
  let slots := N.to_nat MAX_FRAMES_IN_FLIGHT in
  vec_resize imageAvailableSemaphores set_imageAvailableSemaphores
             slots VK_NULL_HANDLE;;
  vec_resize renderFinishedSemaphores set_renderFinishedSemaphores
             slots VK_NULL_HANDLE;;
  vec_resize inFlightFences set_inFlightFences slots VK_NULL_HANDLE;;
  n ← gets imageCount;
  vec_resize imagesInFlight set_imagesInFlight n VK_NULL_HANDLE;;
  let fenceInfo := {| fci_flags := eFenceCreateSignaled |} in
  for_range slots (λ i,
    available ← createSemaphore;
    vec_write imageAvailableSemaphores set_imageAvailableSemaphores
              i available;;
    finished ← createSemaphore;
    vec_write renderFinishedSemaphores set_renderFinishedSemaphores
              i finished;;
    fence ← createFence fenceInfo;
    vec_write inFlightFences set_inFlightFences i fence).

Definition init : M unit :=
  createSwapChain;;
  createImageViews;;
  createRenderPass;;
  createDepthResources;;
  createFramebuffers;;
  createSyncObjects.

(** The steps of [init], to speak of an initialisation that was cut
    short: a create call that throws leaves only the earlier steps done. *)
Definition init_steps : list (M unit) :=
  [createSwapChain; createImageViews; createRenderPass;
   createDepthResources; createFramebuffers; createSyncObjects].
Definition init_upto (k : nat) : M unit :=
  for_each (take k init_steps) (λ step, step).

(** The two constructors, run on the platform [w]. *)
Definition LveSwapChain_ctor (extent : Extent2D) (w : World) : outcome unit :=
  init (fresh_object extent None) w.

Definition LveSwapChain_ctor_previous (extent : Extent2D)
    (previous : option LveSwapChain) (w : World) : outcome unit :=
  (init;; modify (set_oldSwapChain None)) (fresh_object extent previous) w.

(** *** Destruction *)

Definition LveSwapChain_dtor : M unit :=
  views ← gets swapChainImageViews;
  for_each views (λ imageView, destroyImageView imageView);;
  modify (set_swapChainImageViews []);;
  sc ← gets swapChain;
  (if decide (sc ≠ VK_NULL_HANDLE)
   then destroySwapchainKHR sc;; modify (set_swapChain VK_NULL_HANDLE)
   else mret ());;
  size ← gets (λ s, length (depthImages s));
  for_range size (λ i,
    view ← vec_read depthImageViews i;
    destroyImageView view;;
    image ← vec_read depthImages i;
    destroyImage image;;
    memory ← vec_read depthImageMemorys i;
    freeMemory memory);;
  framebuffers ← gets swapChainFramebuffers;
  for_each framebuffers (λ framebuffer, destroyFramebuffer framebuffer);;
  rp ← gets renderPass;
  destroyRenderPass rp;;
  for_range (N.to_nat MAX_FRAMES_IN_FLIGHT) (λ i,
    finished ← vec_read renderFinishedSemaphores i;
    destroySemaphore finished;;
    available ← vec_read imageAvailableSemaphores i;
    destroySemaphore available;;
    fence ← vec_read inFlightFences i;
    destroyFence fence).

(** *** The frame cycle *)

Definition acquireNextImage : M (Result * N) :=
  frame ← gets currentFrame;
  fence ← vec_read inFlightFences (N.to_nat frame);
  waitForFences fence true UINT64_MAX;;
  sc ← gets swapChain;
  available ← vec_read imageAvailableSemaphores (N.to_nat frame);
  result ← acquireNextImageKHR sc UINT64_MAX available VK_NULL_HANDLE;
  mret result.

Definition submitCommandBuffers (buffers : list handle) (imageIndex : N)
  : M Result :=
  let index := N.to_nat imageIndex in
  inFlight ← vec_read imagesInFlight index;
  (if decide (inFlight ≠ VK_NULL_HANDLE)
   then waitForFences inFlight true UINT64_MAX
   else mret ());;
  frame ← gets currentFrame;
  slotFence ← vec_read inFlightFences (N.to_nat frame);
  vec_write imagesInFlight set_imagesInFlight index slotFence;;
  available ← vec_read imageAvailableSemaphores (N.to_nat frame);
  finished ← vec_read renderFinishedSemaphores (N.to_nat frame);
  let waitSemaphores := [available] in
  let signalSemaphores := [finished] in
  let waitStages := [ePipelineStageColorAttachmentOutput] in
  let submitInfo :=
    {| si_waitSemaphoreCount := 1;
       si_pWaitSemaphores := waitSemaphores;
       si_pWaitDstStageMask := waitStages;
       si_commandBufferCount := 1;
       si_pCommandBuffers := buffers;
       si_signalSemaphoreCount := 1;
       si_pSignalSemaphores := signalSemaphores |} in
  resetFences slotFence;;
  queueSubmit submitInfo slotFence;;
  sc ← gets swapChain;
  let swapChains := [sc] in
  let presentInfo :=
    {| pi_waitSemaphoreCount := 1;
       pi_pWaitSemaphores := signalSemaphores;
       pi_swapchainCount := 1;
       pi_pSwapchains := swapChains;
       pi_pImageIndices := [imageIndex] |} in
  result ← presentKHR presentInfo;
  if decide (result ≠ eSuccess) then mret result
  else
    (* the remainder by zero is undefined *)
    if decide (MAX_FRAMES_IN_FLIGHT = 0) then fault
    else
      modify (λ s, set_currentFrame
                     (usize (currentFrame s + 1) mod MAX_FRAMES_IN_FLIGHT) s);;
      mret result.

(** ** Reasoning about computations

    [wp m Q s w]: run on [s] and [w], the computation [m] returns, and its
    result, the object and the platform it leaves satisfy [Q]. *)
Definition wp {A} (m : M A) (Q : A -> LveSwapChain -> World -> Prop)
    (s : LveSwapChain) (w : World) : Prop :=
  match m s w with
  | Ok a s' w' => Q a s' w'
  | Fault _ _ => False
  end.

(** The calls made between two platform states. *)
Definition made (w w' : World) (tr : list Call) : Prop :=
  calls w' = calls w ++ tr.

(** A call that takes no swap chain handle. *)
Definition swapchain_free (c : Call) : Prop :=
  match c with
  | CreateSwapchainKHR _ _ | GetSwapchainImagesKHR _ _
  | DestroySwapchainKHR _ | AcquireNextImageKHR _ _ _ _ _
  | QueuePresentKHR _ _ => False
  | _ => True
  end.

(** The handles and the calls of the [i]-th round of the loop of
    [createSyncObjects], when [h] was the last handle handed out before. *)
Definition slot_available (h : N) (i : nat) : handle := h + 3 * N.of_nat i + 1.
Definition slot_finished (h : N) (i : nat) : handle := h + 3 * N.of_nat i + 2.
Definition slot_fence (h : N) (i : nat) : handle := h + 3 * N.of_nat i + 3.
Definition slot_calls (h : N) (i : nat) : list Call :=
  [CreateSemaphore (slot_available h i);
   CreateSemaphore (slot_finished h i);
   CreateFence {| fci_flags := eFenceCreateSignaled |} (slot_fence h i)].

(** ** The frame cycle as a transition system

    The states a swap chain object goes through after construction, with
    the image index and the frame slot of every submit made so far. *)
Inductive reachable : list (N * N) -> LveSwapChain -> World -> Prop :=
| reach_ctor extent w s0 w0 :
    LveSwapChain_ctor extent w = Ok () s0 w0 ->
    reachable [] s0 w0
| reach_ctor_previous extent previous w s0 w0 :
    LveSwapChain_ctor_previous extent previous w = Ok () s0 w0 ->
    reachable [] s0 w0
| reach_acquire past s w result s' w' :
    reachable past s w ->
    acquireNextImage s w = Ok result s' w' ->
    reachable past s' w'
| reach_submit past s w buffers imageIndex result s' w' :
    reachable past s w ->
    (N.to_nat imageIndex < imageCount s)%nat ->
    submitCommandBuffers buffers imageIndex s w = Ok result s' w' ->
    reachable (past ++ [(imageIndex, currentFrame s)]) s' w'.

(** Projections of a sequence of calls. *)
Definition waited_fences (tr : list Call) : list handle :=
  omap (λ c, match c with WaitForFences f _ _ => Some f | _ => None end) tr.
Definition queue_submits (tr : list Call) : list SubmitInfo :=
  omap (λ c, match c with QueueSubmit si _ => Some si | _ => None end) tr.
Definition created_semaphores (tr : list Call) : list handle :=
  omap (λ c, match c with CreateSemaphore h => Some h | _ => None end) tr.
Definition created_fences (tr : list Call) : list (FenceCreateInfo * handle) :=
  omap (λ c, match c with CreateFence ci h => Some (ci, h) | _ => None end) tr.

(** The calls of one round of the two counted loops of the destructor. *)
Definition depth_release (s : LveSwapChain) (i : nat) : list Call :=
  [DestroyImageView (depthImageViews s !!! i);
   DestroyImage (depthImages s !!! i);
   FreeMemory (depthImageMemorys s !!! i)].
Definition slot_release (s : LveSwapChain) (i : nat) : list Call :=
  [DestroySemaphore (renderFinishedSemaphores s !!! i);
   DestroySemaphore (imageAvailableSemaphores s !!! i);
   DestroyFence (inFlightFences s !!! i)].

(** The resource categories of the lifecycle, the category a creating or
    a releasing call belongs to (an image view is a depth view when the
    object holds it among its depth views), and the order in which a
    sequence of calls visits the categories. *)
Inductive Category :=
  CatSwapChain | CatViews | CatRenderPass | CatDepth | CatFramebuffers | CatSync.

Global Instance Category_eq_dec : EqDecision Category.
Proof. solve_decision. Defined.

Definition created_category (c : Call) : option Category :=
  match c with
  | CreateSwapchainKHR _ _ => Some CatSwapChain
  | CreateImageView ci _ =>
      Some (if ivi_aspectMask ci =? eImageAspectDepth then CatDepth else CatViews)
  | CreateRenderPass _ _ => Some CatRenderPass
  | CreateImageWithInfo _ _ _ _ => Some CatDepth
  | CreateFramebuffer _ _ => Some CatFramebuffers
  | CreateSemaphore _ | CreateFence _ _ => Some CatSync
  | _ => None
  end.

Definition released_category (s : LveSwapChain) (c : Call) : option Category :=
  match c with
  | DestroySwapchainKHR _ => Some CatSwapChain
  | DestroyImageView h =>
      Some (if bool_decide (h ∈ depthImageViews s) then CatDepth else CatViews)
  | DestroyRenderPass _ => Some CatRenderPass
  | DestroyImage _ | FreeMemory _ => Some CatDepth
  | DestroyFramebuffer _ => Some CatFramebuffers
  | DestroySemaphore _ | DestroyFence _ => Some CatSync
  | _ => None
  end.

Fixpoint squash (l : list Category) : list Category :=
  match l with
  | [] => []
  | c :: rest =>
      match squash rest with
      | c' :: rest' => if decide (c = c') then c' :: rest' else c :: c' :: rest'
      | [] => [c]
      end
  end.

Definition creation_order (tr : list Call) : list Category :=
  squash (omap created_category tr).
Definition release_order (s : LveSwapChain) (tr : list Call) : list Category :=
  squash (omap (released_category s) tr).

(** The image count the description of [createSwapChain] speaks of:
    the minimum plus one, capped by a reported maximum. *)
Definition described_image_count (caps : SurfaceCapabilitiesKHR) : N :=
  if (0 <? maxImageCount caps) && (maxImageCount caps <? minImageCount caps + 1)
  then maxImageCount caps
  else minImageCount caps + 1.

(** The calls of the destructor, in the order of its body. *)
Definition release_calls (s : LveSwapChain) : list Call :=
  (DestroyImageView <$> swapChainImageViews s) ++
  (if decide (swapChain s ≠ VK_NULL_HANDLE)
   then [DestroySwapchainKHR (swapChain s)] else []) ++
  (seq 0 (length (depthImages s)) ≫= depth_release s) ++
  (DestroyFramebuffer <$> swapChainFramebuffers s) ++
  [DestroyRenderPass (renderPass s)] ++
  (seq 0 (N.to_nat MAX_FRAMES_IN_FLIGHT) ≫= slot_release s).

(** What holds of every state of the frame cycle. *)
Definition cycle_inv (past : list (N * N)) (s : LveSwapChain) (w : World)
  : Prop :=
  let slots := N.to_nat MAX_FRAMES_IN_FLIGHT in
  ∃ h,
    imageAvailableSemaphores s = slot_available h <$> seq 0 slots ∧
    renderFinishedSemaphores s = slot_finished h <$> seq 0 slots ∧
    inFlightFences s = slot_fence h <$> seq 0 slots ∧
    currentFrame s < MAX_FRAMES_IN_FLIGHT ∧
    length (imagesInFlight s) = imageCount s ∧
    (∀ i fence, imagesInFlight s !! i = Some fence ->
       fence ≠ VK_NULL_HANDLE ↔ N.of_nat i ∈ past.*1) ∧
    (∀ slot fence, inFlightFences s !! N.to_nat slot = Some fence ->
       slot ∉ past.*2 -> fence ∈ signaled w).

(** The create infos of the per-image resources, as the loops of
    [createImageViews], [createDepthResources] and [createFramebuffers]
    fill them in, and the calls those loops make for given images and
    returned handles. *)
Definition colorViewInfo (fmt : Format) (image : handle) : ImageViewCreateInfo :=
  {| ivi_image := image;
     ivi_viewType := e2D;
     ivi_format := fmt;
     ivi_aspectMask := eImageAspectColor;
     ivi_baseMipLevel := 0;
     ivi_levelCount := 1;
     ivi_baseArrayLayer := 0;
     ivi_layerCount := 1 |}.

Definition depthImageInfo (fmt : Format) (extent : Extent2D) : ImageCreateInfo :=
  {| ici_imageType := e2D;
     ici_format := fmt;
     ici_extent := {| width3 := width extent; height3 := height extent;
                      depth3 := 1 |};
     ici_mipLevels := 1;
     ici_arrayLayers := 1;
     ici_samples := eSampleCount1;
     ici_tiling := eOptimal;
     ici_usage := eImageUsageDepthStencilAttachment;
     ici_sharingMode := eExclusive;
     ici_initialLayout := eUndefined |}.

Definition depthViewInfo (fmt : Format) (image : handle) : ImageViewCreateInfo :=
  {| ivi_image := image;
     ivi_viewType := e2D;
     ivi_format := fmt;
     ivi_aspectMask := eImageAspectDepth;
     ivi_baseMipLevel := 0;
     ivi_levelCount := 1;
     ivi_baseArrayLayer := 0;
     ivi_layerCount := 1 |}.

Definition framebufferInfo (rp : handle) (extent : Extent2D)
    (colorView depthView : handle) : FramebufferCreateInfo :=
  {| fbi_renderPass := rp;
     fbi_attachmentCount := 2;
     fbi_pAttachments := [colorView; depthView];
     fbi_width := width extent;
     fbi_height := height extent;
     fbi_layers := 1 |}.

Definition view_calls (fmt : Format) (images views : list handle) : list Call :=
  zip_with (λ image view, CreateImageView (colorViewInfo fmt image) view)
           images views.

Definition depth_calls (fmt : Format) (extent : Extent2D)
    (images memorys views : list handle) : list Call :=
  zip images (zip memorys views) ≫= λ '(image, (memory, view)),
    [CreateImageWithInfo (depthImageInfo fmt extent)
                         eMemoryPropertyDeviceLocal image memory;
     CreateImageView (depthViewInfo fmt image) view].

Definition framebuffer_calls (rp : handle) (extent : Extent2D)
    (colorViews depthViews framebuffers : list handle) : list Call :=
  zip_with (λ '(colorView, depthView) framebuffer,
              CreateFramebuffer (framebufferInfo rp extent colorView depthView)
                                framebuffer)
           (zip colorViews depthViews) framebuffers.

Definition sync_calls (available finished fences : list handle) : list Call :=
  zip available (zip finished fences) ≫= λ '(a, (f, fence)),
    [CreateSemaphore a; CreateSemaphore f;
     CreateFence {| fci_flags := eFenceCreateSignaled |} fence].

(** The handles a sequence of calls creates and the handles it releases,
    each with its kind. *)
Inductive HandleKind :=
  KSwapchain | KImageView | KRenderPass | KImage | KMemory | KFramebuffer
| KSemaphore | KFence.

Definition created_handles (tr : list Call) : list (HandleKind * handle) :=
  tr ≫= λ c,
    match c with
    | CreateSwapchainKHR _ h => [(KSwapchain, h)]
    | CreateImageView _ h => [(KImageView, h)]
    | CreateRenderPass _ h => [(KRenderPass, h)]
    | CreateImageWithInfo _ _ image memory => [(KImage, image); (KMemory, memory)]
    | CreateFramebuffer _ h => [(KFramebuffer, h)]
    | CreateSemaphore h => [(KSemaphore, h)]
    | CreateFence _ h => [(KFence, h)]
    | _ => []
    end.

Definition released_handles (tr : list Call) : list (HandleKind * handle) :=
  tr ≫= λ c,
    match c with
    | DestroySwapchainKHR h => [(KSwapchain, h)]
    | DestroyImageView h => [(KImageView, h)]
    | DestroyRenderPass h => [(KRenderPass, h)]
    | DestroyImage h => [(KImage, h)]
    | FreeMemory h => [(KMemory, h)]
    | DestroyFramebuffer h => [(KFramebuffer, h)]
    | DestroySemaphore h => [(KSemaphore, h)]
    | DestroyFence h => [(KFence, h)]
    | _ => []
    end.

(** The calls of [init], read off the object it leaves: the printed
    line and the two create infos that do not depend on an image are
    given. *)
Definition init_calls (s' : LveSwapChain) (line : string)
    (ci : SwapchainCreateInfoKHR) (rpci : RenderPassCreateInfo) : list Call :=
  [StdCout line;
   CreateSwapchainKHR ci (swapChain s');
   GetSwapchainImagesKHR (swapChain s') (swapChainImages s')] ++
  view_calls (swapChainImageFormat s') (swapChainImages s')
             (swapChainImageViews s') ++
  [CreateRenderPass rpci (renderPass s')] ++
  depth_calls (swapChainDepthFormat s') (swapChainExtent s')
              (depthImages s') (depthImageMemorys s') (depthImageViews s') ++
  framebuffer_calls (renderPass s') (swapChainExtent s')
                    (swapChainImageViews s') (depthImageViews s')
                    (swapChainFramebuffers s') ++
  sync_calls (imageAvailableSemaphores s') (renderFinishedSemaphores s')
             (inFlightFences s').

(** What the frame cycle keeps of the object's resources. *)
Definition resources_inv (s : LveSwapChain) : Prop :=
  length (swapChainImageViews s) = imageCount s ∧
  length (depthImages s) = imageCount s ∧
  length (depthImageMemorys s) = imageCount s ∧
  length (depthImageViews s) = imageCount s ∧
  length (swapChainFramebuffers s) = imageCount s ∧
  length (imagesInFlight s) = imageCount s ∧
  (∀ i fence, imagesInFlight s !! i = Some fence ->
     fence = VK_NULL_HANDLE ∨ fence ∈ inFlightFences s).


(** [r] is [x] clamped to the bounds [lo] and [hi] the way
    [std::max(lo, std::min(hi, x))] does it, by cases: with consistent
    bounds the nearest value within them, and the lower bound when the
    bounds are crossed. *)
Definition clamps_to (lo hi x r : N) : Prop :=
  lo <= r ∧
  (lo <= hi -> r <= hi) ∧
  (lo <= x <= hi -> r = x) ∧
  (x < lo -> r = lo) ∧
  (lo <= hi -> hi < x -> r = hi) ∧
  (hi < lo -> r = lo).
Lemma wp_elim {A} (m : M A) Q s w :
  wp m Q s w -> ∃ a s' w', m s w = Ok a s' w' ∧ Q a s' w'.
Proof.
  unfold wp. destruct (m s w) as [a s' w'|]; [|tauto].
  intros HQ. by exists a, s', w'.
Qed.

Lemma wp_mono {A} (m : M A) (Q Q' : A -> LveSwapChain -> World -> Prop) s w :
  wp m Q s w -> (∀ a s' w', Q a s' w' -> Q' a s' w') -> wp m Q' s w.
Proof. unfold wp. destruct (m s w); [|tauto]. intros HQ H. by apply H. Qed.

Lemma wp_ret {A} (a : A) (Q : A -> LveSwapChain -> World -> Prop) s w :
  Q a s w -> wp (mret a) Q s w.
Proof. done. Qed.

Lemma wp_bind {A B} (m : M A) (f : A -> M B) Q s w :
  wp m (λ a s' w', wp (f a) Q s' w') s w -> wp (m ≫= f) Q s w.
Proof. unfold wp, mbind, M_bind. by destruct (m s w). Qed.

Lemma wp_gets {A} (f : LveSwapChain -> A) (Q : A -> LveSwapChain -> World -> Prop) s w :
  Q (f s) s w -> wp (gets f) Q s w.
Proof. done. Qed.

Lemma wp_modify f (Q : unit -> LveSwapChain -> World -> Prop) s w :
  Q () (f s) w -> wp (modify f) Q s w.
Proof. done. Qed.

Lemma wp_history (Q : list Call -> LveSwapChain -> World -> Prop) s w :
  Q (calls w) s w -> wp history Q s w.
Proof. done. Qed.

Lemma wp_vec_read get i (Q : handle -> LveSwapChain -> World -> Prop) s w x :
  get s !! i = Some x -> Q x s w -> wp (vec_read get i) Q s w.
Proof. unfold wp, vec_read. by intros ->. Qed.

Lemma wp_vec_write get set i x (Q : unit -> LveSwapChain -> World -> Prop) s w :
  (i < length (get s))%nat -> Q () (set (<[i:=x]> (get s)) s) w ->
  wp (vec_write get set i x) Q s w.
Proof. unfold wp, vec_write. intros Hi HQ. by rewrite decide_True. Qed.

Lemma wp_vec_resize get set n fill (Q : unit -> LveSwapChain -> World -> Prop) s w :
  Q () (set (resize n fill (get s)) s) w ->
  wp (vec_resize get set n fill) Q s w.
Proof. done. Qed.

(** A loop over [l] maintains an invariant of the elements done so far. *)
Lemma wp_for_each {A} (l : list A) (body : A -> M unit)
    (I : list A -> LveSwapChain -> World -> Prop) s w :
  I [] s w ->
  (∀ done x rest s' w', l = done ++ x :: rest -> I done s' w' ->
     wp (body x) (λ _ s'' w'', I (done ++ [x]) s'' w'') s' w') ->
  wp (for_each l body) (λ _ s' w', I l s' w') s w.
Proof.
  intros H0 Hstep.
  assert (∀ done rest s' w', l = done ++ rest -> I done s' w' ->
            wp (for_each rest body) (λ _ s'' w'', I l s'' w'') s' w') as Hgen.
  { intros done rest. revert done.
    induction rest as [|x rest IH]; intros done s' w' Hl HI.
    - rewrite app_nil_r in Hl. subst l. by apply wp_ret.
    - simpl. apply wp_bind.
      eapply wp_mono; [by eapply Hstep|].
      intros [] s'' w'' HI'. apply (IH (done ++ [x])); [|done].
      by rewrite <- app_assoc. }
  by apply (Hgen [] l).
Qed.

Lemma wp_for_range (n : nat) (body : nat -> M unit)
    (I : nat -> LveSwapChain -> World -> Prop) s w :
  I 0%nat s w ->
  (∀ i s' w', (i < n)%nat -> I i s' w' ->
     wp (body i) (λ _ s'' w'', I (S i) s'' w'') s' w') ->
  wp (for_range n body) (λ _ s' w', I n s' w') s w.
Proof.
  intros H0 Hstep. unfold for_range.
  pose proof (wp_for_each (seq 0 n) body (λ done, I (length done)) s w) as H.
  simpl in H. rewrite length_seq in H. apply H; [done|].
  intros done x rest s' w' Hl HI.
  assert (x = length done ∧ (x < n)%nat) as [-> Hlt].
  { assert (seq 0 n !! length done = Some x) as Hx.
    { rewrite Hl. by rewrite list_lookup_middle. }
    apply lookup_seq in Hx. simpl in Hx. lia. }
  rewrite length_app. simpl. rewrite Nat.add_1_r. by apply Hstep.
Qed.

Lemma wp_log c (Q : unit -> LveSwapChain -> World -> Prop) s w :
  Q () s {| calls := calls w ++ [c]; next_handle := next_handle w;
            signaled := signaled w; stalls := stalls w |} ->
  wp (log c) Q s w.
Proof. done. Qed.

Lemma wp_fresh (Q : handle -> LveSwapChain -> World -> Prop) s w :
  Q (N.succ (next_handle w)) s
    {| calls := calls w; next_handle := N.succ (next_handle w);
       signaled := signaled w; stalls := stalls w |} ->
  wp fresh Q s w.
Proof. done. Qed.

Lemma made_refl w : made w w [].
Proof. unfold made. by rewrite app_nil_r. Qed.

Lemma made_trans w w' w'' t1 t2 :
  made w w' t1 -> made w' w'' t2 -> made w w'' (t1 ++ t2).
Proof. unfold made. intros H1 H2. by rewrite H2, H1, app_assoc. Qed.

(** Members of an object given by its constructor. *)
Ltac obj_simpl :=
  unfold imageCount, getSwapChainExtent, getSwapChainImageFormat in *;
  cbn [swapChainImageFormat swapChainDepthFormat swapChainExtent
       swapChainFramebuffers renderPass depthImages depthImageMemorys
       depthImageViews swapChainImages swapChainImageViews windowExtent
       swapChain oldSwapChain imageAvailableSemaphores
       renderFinishedSemaphores inFlightFences imagesInFlight currentFrame
       set_swapChainImageFormat set_swapChainDepthFormat set_swapChainExtent
       set_swapChainFramebuffers set_renderPass set_depthImages
       set_depthImageMemorys set_depthImageViews set_swapChainImages
       set_swapChainImageViews set_swapChain set_oldSwapChain
       set_imageAvailableSemaphores set_renderFinishedSemaphores
       set_inFlightFences set_imagesInFlight set_currentFrame
       imageCount getSwapChainExtent getSwapChainImageFormat
       calls next_handle signaled stalls] in *.

(** Closes [made w w' tr] from the hypothesis on the calls so far. *)
Ltac made_tac :=
  unfold made in *; cbn [calls];
  repeat match goal with H : calls _ = _ |- _ => rewrite H; clear H end;
  rewrite <- ?app_assoc; simpl; reflexivity.

Ltac wp_step :=
  lazymatch goal with
  | |- wp (mbind _ _) _ _ _ => apply wp_bind
  | |- wp (mret _) _ _ _ => apply wp_ret
  | |- wp (gets _) _ _ _ => apply wp_gets
  | |- wp (modify _) _ _ _ => apply wp_modify
  | |- wp history _ _ _ => apply wp_history
  | |- wp (log _) _ _ _ => apply wp_log
  | |- wp fresh _ _ _ => apply wp_fresh
  | |- wp (vec_resize _ _ _ _) _ _ _ => apply wp_vec_resize
  end; cbv beta; obj_simpl.

Lemma createImageViews_spec s w :
  wp createImageViews
     (λ _ s' w', ∃ views tr,
        s' = set_swapChainImageViews views s ∧
        length views = length (swapChainImages s) ∧
        made w w' tr ∧ Forall swapchain_free tr)
     s w.
Proof.
  unfold createImageViews.
  repeat wp_step.
  set (n := length (swapChainImages s)).
  eapply wp_mono.
  - apply (wp_for_range n _
      (λ i s' w', ∃ views tr,
         s' = set_swapChainImageViews views s ∧ length views = n ∧
         made w w' tr ∧ Forall swapchain_free tr)).
    + eexists _, []. split; [done|]. split; [by rewrite length_resize|].
      split; [apply made_refl|constructor].
    + intros i s' w' Hi (views & tr & -> & Hlen & Hmade & Hfree).
      destruct (lookup_lt_is_Some_2 (swapChainImages s) i) as [img Himg]; [done|].
      wp_step. eapply wp_vec_read.
      { destruct s; simpl in *. exact Himg. }
      wp_step. wp_step. unfold createImageView.
      repeat wp_step.
      apply wp_vec_write.
      { destruct s; simpl in *. lia. }
      eexists _, (tr ++ [_]). split; [by destruct s|].
      split; [destruct s; simpl; by rewrite length_insert|].
      split; [unfold made in *; simpl; by rewrite Hmade, app_assoc|].
      apply Forall_app. split; [done|]. by repeat constructor.
  - simpl. intros _ s' w' H. exact H.
Qed.

Lemma Forall_snoc {A} (P : A -> Prop) l x :
  Forall P l -> P x -> Forall P (l ++ [x]).
Proof. intros. apply Forall_app. by repeat constructor. Qed.

Lemma createRenderPass_spec s w :
  wp createRenderPass
     (λ _ s' w', ∃ rp tr,
        s' = set_renderPass rp s ∧ made w w' tr ∧ Forall swapchain_free tr)
     s w.
Proof.
  unfold createRenderPass, createRenderPassKHR.
  repeat wp_step.
  eexists _, [_]. split; [done|]. split; [done|]. by repeat constructor.
Qed.

Lemma createDepthResources_spec s w :
  wp createDepthResources
     (λ _ s' w', ∃ fmt images memorys views tr,
        s' = set_depthImageViews views
               (set_depthImageMemorys memorys
                  (set_depthImages images (set_swapChainDepthFormat fmt s))) ∧
        length images = imageCount s ∧
        length memorys = imageCount s ∧
        length views = imageCount s ∧
        made w w' tr ∧ Forall swapchain_free tr)
     s w.
Proof.
  unfold createDepthResources. destruct s. obj_simpl.
  repeat wp_step.
  rewrite length_resize.
  set (n := length swapChainImages0).
  eapply wp_mono.
  - apply (wp_for_range n _
      (λ i s' w', ∃ images memorys views tr,
         s' = mkLveSwapChain swapChainImageFormat0 findDepthFormat
                swapChainExtent0 swapChainFramebuffers0 renderPass0
                images memorys views swapChainImages0 swapChainImageViews0
                windowExtent0 swapChain0 oldSwapChain0
                imageAvailableSemaphores0 renderFinishedSemaphores0
                inFlightFences0 imagesInFlight0 currentFrame0 ∧
         length images = n ∧ length memorys = n ∧ length views = n ∧
         made w w' tr ∧ Forall swapchain_free tr)).
    + eexists _, _, _, []. split; [done|].
      rewrite !length_resize.
      repeat split; [apply made_refl|constructor].
    + intros i s' w' Hi (images & memorys & views & tr & -> & Hl1 & Hl2 & Hl3 & Hmade & Hfree).
      destruct (lookup_lt_is_Some_2 images i) as [x1 Hx1]; [lia|].
      destruct (lookup_lt_is_Some_2 memorys i) as [x2 Hx2]; [lia|].
      wp_step. eapply wp_vec_read; [exact Hx1|].
      wp_step. eapply wp_vec_read; [exact Hx2|].
      unfold createImageWithInfo, createImageView.
      repeat wp_step.
      apply wp_vec_write; [obj_simpl; lia|]. obj_simpl.
      wp_step. apply wp_vec_write; [obj_simpl; lia|]. obj_simpl.
      wp_step.
      eapply wp_vec_read.
      { obj_simpl. apply list_lookup_insert_eq. lia. }
      repeat wp_step.
      apply wp_vec_write; [obj_simpl; lia|]. obj_simpl.
      eexists _, _, _, ((tr ++ [_]) ++ [_]).
      split; [done|].
      rewrite !length_insert.
      repeat split; try done.
      * made_tac.
      * by repeat apply Forall_snoc.
  - cbv beta. intros _ s' w' (images & memorys & views & tr & H). by eexists _, _, _, _, _.
Qed.

Lemma createFramebuffers_spec s w :
  (imageCount s <= length (swapChainImageViews s))%nat ->
  (imageCount s <= length (depthImageViews s))%nat ->
  wp createFramebuffers
     (λ _ s' w', ∃ framebuffers tr,
        s' = set_swapChainFramebuffers framebuffers s ∧
        length framebuffers = imageCount s ∧
        made w w' tr ∧ Forall swapchain_free tr)
     s w.
Proof.
  unfold createFramebuffers. destruct s. obj_simpl. intros Hv Hd.
  repeat wp_step.
  set (n := length swapChainImages0) in *.
  eapply wp_mono.
  - apply (wp_for_range n _
      (λ i s' w', ∃ framebuffers tr,
         s' = mkLveSwapChain swapChainImageFormat0 swapChainDepthFormat0
                swapChainExtent0 framebuffers renderPass0
                depthImages0 depthImageMemorys0 depthImageViews0
                swapChainImages0 swapChainImageViews0
                windowExtent0 swapChain0 oldSwapChain0
                imageAvailableSemaphores0 renderFinishedSemaphores0
                inFlightFences0 imagesInFlight0 currentFrame0 ∧
         length framebuffers = n ∧
         made w w' tr ∧ Forall swapchain_free tr)).
    + eexists _, []. split; [done|]. rewrite length_resize.
      repeat split; [apply made_refl|constructor].
    + intros i s' w' Hi (framebuffers & tr & -> & Hl & Hmade & Hfree).
      destruct (lookup_lt_is_Some_2 swapChainImageViews0 i) as [x1 Hx1]; [lia|].
      destruct (lookup_lt_is_Some_2 depthImageViews0 i) as [x2 Hx2]; [lia|].
      wp_step. eapply wp_vec_read; [exact Hx1|].
      wp_step. eapply wp_vec_read; [exact Hx2|].
      unfold createFramebuffer.
      repeat wp_step.
      apply wp_vec_write; [obj_simpl; lia|]. obj_simpl.
      eexists _, (tr ++ [_]). split; [done|].
      rewrite length_insert.
      repeat split; try done.
      * made_tac.
      * by apply Forall_snoc.
  - cbv beta. intros _ s' w' H. exact H.
Qed.

Lemma wp_mark_signaled fence (Q : unit -> LveSwapChain -> World -> Prop) s w :
  Q () s {| calls := calls w; next_handle := next_handle w;
            signaled := {[fence]} ∪ signaled w; stalls := stalls w |} ->
  wp (mark_signaled fence) Q s w.
Proof. done. Qed.

Lemma take_insert_snoc (l : list handle) i x (f : nat -> handle) :
  (i < length l)%nat ->
  take i l = f <$> seq 0 i ->
  x = f i ->
  take (S i) (<[i:=x]> l) = f <$> seq 0 (S i).
Proof.
  intros Hi Ht ->.
  rewrite (take_S_r _ _ (f i)); [|by apply list_lookup_insert_eq].
  rewrite take_insert_ge; [|done].
  by rewrite Ht, seq_S, fmap_app.
Qed.

Lemma createSyncObjects_spec s w :
  let slots := N.to_nat MAX_FRAMES_IN_FLIGHT in
  let h := next_handle w in
  wp createSyncObjects
     (λ _ s' w',
        s' = set_inFlightFences (slot_fence h <$> seq 0 slots)
               (set_renderFinishedSemaphores (slot_finished h <$> seq 0 slots)
                  (set_imageAvailableSemaphores
                     (slot_available h <$> seq 0 slots)
                     (set_imagesInFlight
                        (resize (imageCount s) VK_NULL_HANDLE
                                (imagesInFlight s)) s))) ∧
        made w w' (seq 0 slots ≫= slot_calls h) ∧
        next_handle w' = h + 3 * N.of_nat slots ∧
        signaled w' = list_to_set (slot_fence h <$> seq 0 slots) ∪ signaled w ∧
        stalls w' = stalls w)
     s w.
Proof.
  intros slots h.
  unfold createSyncObjects. destruct s. obj_simpl.
  fold slots.
  repeat wp_step.
  set (n := length swapChainImages0) in *.
  eapply wp_mono.
  - apply (wp_for_range slots _
      (λ i s' w', ∃ available finished fences,
         s' = mkLveSwapChain swapChainImageFormat0 swapChainDepthFormat0
                swapChainExtent0 swapChainFramebuffers0 renderPass0
                depthImages0 depthImageMemorys0 depthImageViews0
                swapChainImages0 swapChainImageViews0
                windowExtent0 swapChain0 oldSwapChain0
                available finished fences
                (resize n VK_NULL_HANDLE imagesInFlight0) currentFrame0 ∧
         length available = slots ∧ length finished = slots ∧
         length fences = slots ∧
         take i available = slot_available h <$> seq 0 i ∧
         take i finished = slot_finished h <$> seq 0 i ∧
         take i fences = slot_fence h <$> seq 0 i ∧
         made w w' (seq 0 i ≫= slot_calls h) ∧
         next_handle w' = h + 3 * N.of_nat i ∧
         signaled w' = list_to_set (slot_fence h <$> seq 0 i) ∪ signaled w ∧
         stalls w' = stalls w)).
    + eexists _, _, _. split; [done|]. rewrite !length_resize.
      repeat split; try done.
      * apply made_refl.
      * subst h. lia.
      * simpl. by rewrite (left_id_L ∅ (∪)).
    + intros i s' w' Hi
        (available & finished & fences & -> & Hl1 & Hl2 & Hl3 &
         Ht1 & Ht2 & Ht3 & Hmade & Hnext & Hsig & Hst).
      unfold createSemaphore, createFence.
      repeat wp_step.
      apply wp_vec_write; [obj_simpl; lia|]. obj_simpl.
      repeat wp_step.
      apply wp_vec_write; [obj_simpl; lia|]. obj_simpl.
      repeat wp_step.
      cbn [fci_flags]. change (N.testbit eFenceCreateSignaled 0) with true.
      cbv iota. apply wp_mark_signaled. obj_simpl.
      repeat wp_step.
      apply wp_vec_write; [obj_simpl; lia|]. obj_simpl.
      assert (N.succ (next_handle w') = slot_available h i) as E1
        by (unfold slot_available; lia).
      assert (N.succ (N.succ (next_handle w')) = slot_finished h i) as E2
        by (unfold slot_finished; lia).
      assert (N.succ (N.succ (N.succ (next_handle w'))) = slot_fence h i) as E3
        by (unfold slot_fence; lia).
      rewrite E3, E2, E1.
      eexists _, _, _. split; [done|]. rewrite !length_insert.
      repeat split; try done.
      * by apply take_insert_snoc; [lia| |].
      * by apply take_insert_snoc; [lia| |].
      * by apply take_insert_snoc; [lia| |].
      * rewrite seq_S, bind_app. simpl. made_tac.
      * unfold slot_fence. lia.
      * rewrite Hsig, seq_S, fmap_app, list_to_set_app_L. simpl.
        rewrite (right_id_L ∅ (∪)), (assoc_L (∪)).
        f_equal. apply (comm_L (∪)).
  - cbv beta.
    intros _ s' w'
      (available & finished & fences & -> & Hl1 & Hl2 & Hl3 &
       Ht1 & Ht2 & Ht3 & Hmade & Hnext & Hsig & Hst).
    rewrite take_ge in Ht1, Ht2, Ht3 by lia. subst.
    repeat split; done.
Qed.

Lemma first_preferred_format_Some l f :
  first_preferred_format l = Some f -> f ∈ l ∧ is_preferred_format f = true.
Proof.
  induction l as [|g l IH]; simpl; [done|].
  destruct (is_preferred_format g) eqn:Hg.
  - intros [= ->]. split; [left|done].
  - intros H. destruct (IH H). split; [by right|done].
Qed.

Lemma first_preferred_format_None l :
  first_preferred_format l = None ->
  ∀ g, g ∈ l -> is_preferred_format g = false.
Proof.
  induction l as [|g' l IH]; simpl; intros H g Hg.
  - by apply elem_of_nil in Hg.
  - destruct (is_preferred_format g') eqn:Hg'; [done|].
    apply elem_of_cons in Hg as [->|Hg]; [done|]. by apply IH.
Qed.

Lemma chooseSwapSurfaceFormat_is_Some l :
  l ≠ [] -> is_Some (chooseSwapSurfaceFormat l).
Proof.
  intros Hl. unfold chooseSwapSurfaceFormat.
  destruct (first_preferred_format l); [done|].
  destruct l; [done|]. by eexists.
Qed.

Lemma createSwapChain_spec s w :
  let support := getSwapChainSupport device (calls w) in
  let sc := N.succ (next_handle w) in
  formats support ≠ [] ->
  wp createSwapChain
     (λ _ s' w', ∃ surfaceFormat line extent ci images,
        chooseSwapSurfaceFormat (formats support) = Some surfaceFormat ∧
        s' = set_swapChainExtent extent
               (set_swapChainImageFormat (format surfaceFormat)
                  (set_swapChainImages images (set_swapChain sc s))) ∧
        made w w' [StdCout line; CreateSwapchainKHR ci sc;
                   GetSwapchainImagesKHR sc images] ∧
        sci_oldSwapchain ci = match oldSwapChain s with
                              | None => VK_NULL_HANDLE
                              | Some previous => swapChain previous
                              end ∧
        sci_minImageCount ci = requestedImageCount (capabilities support) ∧
        next_handle w' = sc ∧
        signaled w' = signaled w ∧
        stalls w' = stalls w)
     s w.
Proof.
  intros support sc Hne.
  unfold createSwapChain. destruct s. obj_simpl.
  repeat wp_step. fold support.
  destruct (chooseSwapSurfaceFormat_is_Some _ Hne) as [surfaceFormat Hf].
  rewrite Hf.
  wp_step. unfold chooseSwapPresentMode, cout.
  destruct (has_mailbox (presentModes support)).
  - repeat wp_step. unfold chooseSwapExtent.
    destruct (decide (width (currentExtent (capabilities support)) ≠ UINT32_MAX)).
    + unfold createSwapchainKHR, getSwapchainImagesKHR. repeat wp_step.
      eexists _, _, _, _, _. split; [done|]. split; [reflexivity|].
      split; [made_tac|]. by repeat split.
    + unfold createSwapchainKHR, getSwapchainImagesKHR. repeat wp_step.
      eexists _, _, _, _, _. split; [done|]. split; [reflexivity|].
      split; [made_tac|]. by repeat split.
  - repeat wp_step. unfold chooseSwapExtent.
    destruct (decide (width (currentExtent (capabilities support)) ≠ UINT32_MAX)).
    + unfold createSwapchainKHR, getSwapchainImagesKHR. repeat wp_step.
      eexists _, _, _, _, _. split; [done|]. split; [reflexivity|].
      split; [made_tac|]. by repeat split.
    + unfold createSwapchainKHR, getSwapchainImagesKHR. repeat wp_step.
      eexists _, _, _, _, _. split; [done|]. split; [reflexivity|].
      split; [made_tac|]. by repeat split.
Qed.

Lemma slot_calls_swapchain_free h l :
  Forall swapchain_free (l ≫= slot_calls h).
Proof.
  induction l as [|i l IH]; simpl; [constructor|].
  by repeat constructor.
Qed.

(** What [init] leaves behind, whatever the object was before. *)
Lemma init_spec s w :
  let slots := N.to_nat MAX_FRAMES_IN_FLIGHT in
  let sc := N.succ (next_handle w) in
  formats (getSwapChainSupport device (calls w)) ≠ [] ->
  wp init
     (λ _ s' w', ∃ h line ci images rest,
        swapChain s' = sc ∧
        swapChainImages s' = images ∧
        length (swapChainImageViews s') = length images ∧
        length (depthImages s') = length images ∧
        length (depthImageMemorys s') = length images ∧
        length (depthImageViews s') = length images ∧
        length (swapChainFramebuffers s') = length images ∧
        imagesInFlight s' =
          resize (length images) VK_NULL_HANDLE (imagesInFlight s) ∧
        imageAvailableSemaphores s' = slot_available h <$> seq 0 slots ∧
        renderFinishedSemaphores s' = slot_finished h <$> seq 0 slots ∧
        inFlightFences s' = slot_fence h <$> seq 0 slots ∧
        currentFrame s' = currentFrame s ∧
        oldSwapChain s' = oldSwapChain s ∧
        windowExtent s' = windowExtent s ∧
        made w w' ([StdCout line; CreateSwapchainKHR ci sc;
                    GetSwapchainImagesKHR sc images] ++ rest) ∧
        sci_oldSwapchain ci = match oldSwapChain s with
                              | None => VK_NULL_HANDLE
                              | Some previous => swapChain previous
                              end ∧
        sci_minImageCount ci =
          requestedImageCount
            (capabilities (getSwapChainSupport device (calls w))) ∧
        Forall swapchain_free rest ∧
        (∀ fence, fence ∈ inFlightFences s' -> fence ∈ signaled w'))
     s w.
Proof.
  intros slots sc Hne. unfold init.
  wp_step. eapply wp_mono; [by apply createSwapChain_spec|].
  intros _ s1 w1 (sf & line & ext & ci & images & _ & -> & Hm1 & Hold & Hmin & _ & _ & _).
  wp_step. eapply wp_mono; [apply createImageViews_spec|].
  intros _ s2 w2 (views & tr2 & -> & Hl2 & Hm2 & Hf2).
  wp_step. eapply wp_mono; [apply createRenderPass_spec|].
  intros _ s3 w3 (rp & tr3 & -> & Hm3 & Hf3).
  wp_step. eapply wp_mono; [apply createDepthResources_spec|].
  intros _ s4 w4 (fmt & dimgs & dmems & dviews & tr4 & -> & Hd1 & Hd2 & Hd3 & Hm4 & Hf4).
  wp_step. eapply wp_mono.
  { apply createFramebuffers_spec; destruct s; obj_simpl; lia. }
  intros _ s5 w5 (fbs & tr5 & -> & Hl5 & Hm5 & Hf5).
  eapply wp_mono; [apply createSyncObjects_spec|].
  intros _ s6 w6 (-> & Hm6 & _ & Hsig & _).
  destruct s. obj_simpl.
  eexists (next_handle w5), line, ci, images, (tr2 ++ tr3 ++ tr4 ++ tr5 ++ _).
  repeat split; try done.
  - pose proof (made_trans _ _ _ _ _ Hm1
      (made_trans _ _ _ _ _ Hm2
        (made_trans _ _ _ _ _ Hm3
          (made_trans _ _ _ _ _ Hm4 (made_trans _ _ _ _ _ Hm5 Hm6))))) as H.
    exact H.
  - rewrite !Forall_app. repeat split; try done.
    apply slot_calls_swapchain_free.
  - intros fence Hin. rewrite Hsig. apply elem_of_union_l.
    by apply elem_of_list_to_set.
Qed.

Lemma wp_waitForFences fence waitAll timeout
    (Q : unit -> LveSwapChain -> World -> Prop) s w :
  Q () s {| calls := calls w ++ [WaitForFences fence waitAll timeout];
            next_handle := next_handle w;
            signaled := {[fence]} ∪ signaled w;
            stalls := if decide (fence ∈ signaled w)
                      then stalls w else stalls w ++ [fence] |} ->
  wp (waitForFences fence waitAll timeout) Q s w.
Proof. done. Qed.

Lemma wp_resetFences fence (Q : unit -> LveSwapChain -> World -> Prop) s w :
  Q () s {| calls := calls w ++ [ResetFences fence];
            next_handle := next_handle w;
            signaled := signaled w ∖ {[fence]};
            stalls := stalls w |} ->
  wp (resetFences fence) Q s w.
Proof. done. Qed.

(** [acquireNextImage], when the frame index is within the slots. *)
Lemma acquireNextImage_spec s w fence available :
  inFlightFences s !! N.to_nat (currentFrame s) = Some fence ->
  imageAvailableSemaphores s !! N.to_nat (currentFrame s) = Some available ->
  wp acquireNextImage
     (λ result s' w',
        s' = s ∧
        made w w' [WaitForFences fence true UINT64_MAX;
                   AcquireNextImageKHR (swapChain s) UINT64_MAX available
                                       VK_NULL_HANDLE result] ∧
        next_handle w' = next_handle w ∧
        signaled w' = {[fence]} ∪ signaled w ∧
        stalls w' = if decide (fence ∈ signaled w)
                    then stalls w else stalls w ++ [fence])
     s w.
Proof.
  intros Hf Ha. unfold acquireNextImage, acquireNextImageKHR.
  repeat wp_step. eapply wp_vec_read; [done|].
  wp_step. apply wp_waitForFences.
  repeat wp_step. eapply wp_vec_read; [done|].
  repeat wp_step.
  split; [done|]. split; [made_tac|]. done.
Qed.

(** [submitCommandBuffers], when the image index is within the per-image
    fences and the frame index within the slots. *)
Lemma submitCommandBuffers_spec buffers imageIndex s w
    inFlight slotFence available finished :
  MAX_FRAMES_IN_FLIGHT ≠ 0 ->
  imagesInFlight s !! N.to_nat imageIndex = Some inFlight ->
  inFlightFences s !! N.to_nat (currentFrame s) = Some slotFence ->
  imageAvailableSemaphores s !! N.to_nat (currentFrame s) = Some available ->
  renderFinishedSemaphores s !! N.to_nat (currentFrame s) = Some finished ->
  wp (submitCommandBuffers buffers imageIndex)
     (λ result s' w', ∃ si pi,
        made w w'
          ((if decide (inFlight ≠ VK_NULL_HANDLE)
            then [WaitForFences inFlight true UINT64_MAX] else []) ++
           [ResetFences slotFence; QueueSubmit si slotFence;
            QueuePresentKHR pi result]) ∧
        si_commandBufferCount si = 1 ∧
        si_pCommandBuffers si = buffers ∧
        si_pWaitSemaphores si = [available] ∧
        si_pSignalSemaphores si = [finished] ∧
        pi_pWaitSemaphores pi = [finished] ∧
        pi_pSwapchains pi = [swapChain s] ∧
        pi_pImageIndices pi = [imageIndex] ∧
        s' = set_currentFrame
               (if decide (result = eSuccess)
                then usize (currentFrame s + 1) mod MAX_FRAMES_IN_FLIGHT
                else currentFrame s)
               (set_imagesInFlight
                  (<[N.to_nat imageIndex:=slotFence]> (imagesInFlight s)) s) ∧
        next_handle w' = next_handle w ∧
        signaled w' =
          (if decide (inFlight ≠ VK_NULL_HANDLE)
           then {[inFlight]} ∪ signaled w else signaled w) ∖ {[slotFence]} ∧
        stalls w' =
          if decide (inFlight ≠ VK_NULL_HANDLE)
          then (if decide (inFlight ∈ signaled w)
                then stalls w else stalls w ++ [inFlight])
          else stalls w)
     s w.
Proof.
  intros Hmax Hi Hf Ha Hr. unfold submitCommandBuffers, presentKHR, queueSubmit.
  pose proof (lookup_lt_Some _ _ _ Hi) as Hlen.
  destruct s. obj_simpl.
  wp_step. eapply wp_vec_read; [done|].
  wp_step.
  destruct (decide (inFlight ≠ VK_NULL_HANDLE)) as [Hnz|Hz].
  - apply wp_waitForFences.
    repeat wp_step. eapply wp_vec_read; [done|].
    wp_step. apply wp_vec_write; [done|]. obj_simpl.
    wp_step. eapply wp_vec_read; [done|].
    wp_step. eapply wp_vec_read; [done|].
    wp_step. apply wp_resetFences.
    repeat wp_step.
    match goal with |- wp (if decide (?r ≠ eSuccess) then _ else _) _ _ _ =>
      destruct (decide (r ≠ eSuccess)) as [Hr'|Hr'] end.
    + wp_step. eexists _, _. split; [made_tac|].
      rewrite decide_False by done. by repeat split.
    + rewrite decide_False by done. repeat wp_step.
      eexists _, _. split; [made_tac|].
      apply dec_stable in Hr'. rewrite decide_True by done. by repeat split.
  - wp_step.
    repeat wp_step. eapply wp_vec_read; [done|].
    wp_step. apply wp_vec_write; [done|]. obj_simpl.
    wp_step. eapply wp_vec_read; [done|].
    wp_step. eapply wp_vec_read; [done|].
    wp_step. apply wp_resetFences.
    repeat wp_step.
    match goal with |- wp (if decide (?r ≠ eSuccess) then _ else _) _ _ _ =>
      destruct (decide (r ≠ eSuccess)) as [Hr'|Hr'] end.
    + wp_step. eexists _, _. split; [made_tac|].
      rewrite decide_False by done. by repeat split.
    + rewrite decide_False by done. repeat wp_step.
      eexists _, _. split; [made_tac|].
      apply dec_stable in Hr'. rewrite decide_True by done. by repeat split.
Qed.

Lemma wp_for_each_log {A} (f : A -> Call) (l : list A) s w :
  wp (for_each l (λ x, log (f x)))
     (λ _ s' w', s' = s ∧ made w w' (f <$> l) ∧
                 next_handle w' = next_handle w ∧
                 signaled w' = signaled w ∧ stalls w' = stalls w)
     s w.
Proof.
  eapply wp_mono.
  - apply (wp_for_each l _
      (λ done s' w', s' = s ∧ made w w' (f <$> done) ∧
                     next_handle w' = next_handle w ∧
                     signaled w' = signaled w ∧ stalls w' = stalls w)).
    + split; [done|]. split; [apply made_refl|done].
    + intros done x rest s' w' _ (-> & Hm & Hn & Hs & Hb).
      wp_step. split; [done|]. split; [|done].
      rewrite fmap_app. simpl. made_tac.
  - by intros [].
Qed.

Lemma LveSwapChain_dtor_spec s w :
  let slots := N.to_nat MAX_FRAMES_IN_FLIGHT in
  (length (depthImages s) <= length (depthImageViews s))%nat ->
  (length (depthImages s) <= length (depthImageMemorys s))%nat ->
  (slots <= length (renderFinishedSemaphores s))%nat ->
  (slots <= length (imageAvailableSemaphores s))%nat ->
  (slots <= length (inFlightFences s))%nat ->
  wp LveSwapChain_dtor
     (λ _ s' w',
        s' = set_swapChain VK_NULL_HANDLE (set_swapChainImageViews [] s) ∧
        made w w' (release_calls s))
     s w.
Proof.
  intros slots Hdv Hdm Hrf Hia Hif.
  unfold LveSwapChain_dtor, release_calls, depth_release, slot_release.
  unfold destroyImageView, destroySwapchainKHR, destroyImage, freeMemory,
    destroyFramebuffer, destroyRenderPass, destroySemaphore, destroyFence.
  fold slots. destruct s. obj_simpl.
  repeat wp_step.
  eapply wp_mono; [apply wp_for_each_log|].
  intros _ s1 w1 (-> & Hm1 & _). cbv beta.
  repeat wp_step.
  (* the guarded release of the swap chain handle *)
  set (guarded := if decide (swapChain0 ≠ VK_NULL_HANDLE)
                  then [DestroySwapchainKHR swapChain0] else []).
  apply (wp_mono _
    (λ _ s' w',
       s' = mkLveSwapChain swapChainImageFormat0 swapChainDepthFormat0
              swapChainExtent0 swapChainFramebuffers0 renderPass0
              depthImages0 depthImageMemorys0 depthImageViews0
              swapChainImages0 [] windowExtent0 VK_NULL_HANDLE oldSwapChain0
              imageAvailableSemaphores0 renderFinishedSemaphores0
              inFlightFences0 imagesInFlight0 currentFrame0 ∧
       made w1 w' guarded)).
  { subst guarded. destruct (decide (swapChain0 ≠ VK_NULL_HANDLE)) as [Hnz|Hz].
    - repeat wp_step. split; [done|]. made_tac.
    - wp_step. apply dec_stable in Hz. subst swapChain0.
      split; [done|]. apply made_refl. }
  intros _ s2 w2 (-> & Hm2). cbv beta.
  repeat wp_step.
  (* the depth resources *)
  eapply wp_mono.
  { apply (wp_for_range (length depthImages0) _
      (λ i s' w',
         s' = mkLveSwapChain swapChainImageFormat0 swapChainDepthFormat0
                swapChainExtent0 swapChainFramebuffers0 renderPass0
                depthImages0 depthImageMemorys0 depthImageViews0
                swapChainImages0 [] windowExtent0 VK_NULL_HANDLE oldSwapChain0
                imageAvailableSemaphores0 renderFinishedSemaphores0
                inFlightFences0 imagesInFlight0 currentFrame0 ∧
         made w2 w'
           (seq 0 i ≫= λ i, [DestroyImageView (depthImageViews0 !!! i);
                             DestroyImage (depthImages0 !!! i);
                             FreeMemory (depthImageMemorys0 !!! i)]))).
    - split; [done|apply made_refl].
    - intros i s' w' Hi (-> & Hm).
      wp_step. eapply wp_vec_read.
      { obj_simpl. apply list_lookup_lookup_total_lt. lia. }
      repeat wp_step. eapply wp_vec_read.
      { obj_simpl. apply list_lookup_lookup_total_lt. lia. }
      repeat wp_step. eapply wp_vec_read.
      { obj_simpl. apply list_lookup_lookup_total_lt. lia. }
      wp_step. split; [done|].
      rewrite seq_S, bind_app. simpl. made_tac. }
  intros _ s3 w3 (-> & Hm3). cbv beta.
  repeat wp_step.
  eapply wp_mono; [apply wp_for_each_log|].
  intros _ s4 w4 (-> & Hm4 & _). cbv beta.
  repeat wp_step.
  (* the synchronisation objects *)
  eapply wp_mono.
  { apply (wp_for_range slots _
      (λ i s' w',
         s' = mkLveSwapChain swapChainImageFormat0 swapChainDepthFormat0
                swapChainExtent0 swapChainFramebuffers0 renderPass0
                depthImages0 depthImageMemorys0 depthImageViews0
                swapChainImages0 [] windowExtent0 VK_NULL_HANDLE oldSwapChain0
                imageAvailableSemaphores0 renderFinishedSemaphores0
                inFlightFences0 imagesInFlight0 currentFrame0 ∧
         made w w'
           ((DestroyImageView <$> swapChainImageViews0) ++ guarded ++
            (seq 0 (length depthImages0) ≫=
               λ i, [DestroyImageView (depthImageViews0 !!! i);
                     DestroyImage (depthImages0 !!! i);
                     FreeMemory (depthImageMemorys0 !!! i)]) ++
            (DestroyFramebuffer <$> swapChainFramebuffers0) ++
            [DestroyRenderPass renderPass0] ++
            (seq 0 i ≫= λ i, [DestroySemaphore (renderFinishedSemaphores0 !!! i);
                              DestroySemaphore (imageAvailableSemaphores0 !!! i);
                              DestroyFence (inFlightFences0 !!! i)])))).
    - split; [done|]. simpl. unfold made in *. simpl.
      rewrite Hm4, Hm3, Hm2, Hm1. by rewrite <- !app_assoc.
    - intros i s' w' Hi (-> & Hm).
      wp_step. eapply wp_vec_read.
      { obj_simpl. apply list_lookup_lookup_total_lt. lia. }
      repeat wp_step. eapply wp_vec_read.
      { obj_simpl. apply list_lookup_lookup_total_lt. lia. }
      repeat wp_step. eapply wp_vec_read.
      { obj_simpl. apply list_lookup_lookup_total_lt. lia. }
      wp_step. split; [done|].
      rewrite seq_S, bind_app. simpl. unfold made in *. simpl.
      rewrite Hm. by rewrite <- !app_assoc. }
  intros [] s5 w5 (-> & Hm5). by split.
Qed.

Lemma lookup_fmap_seq {A} (f : nat -> A) n i x :
  (f <$> seq 0 n) !! i = Some x ↔ x = f i ∧ (i < n)%nat.
Proof.
  rewrite list_lookup_fmap. split.
  - destruct (seq 0 n !! i) as [j|] eqn:Hj; [|done].
    apply lookup_seq in Hj as [-> ?]. simpl. by intros [= <-].
  - intros [-> Hi]. by rewrite lookup_seq_lt.
Qed.

Lemma createSwapChain_no_formats s w :
  formats (getSwapChainSupport device (calls w)) = [] ->
  createSwapChain s w = Fault s w.
Proof.
  intros Hnil. unfold createSwapChain, mbind, M_bind, history.
  by rewrite Hnil.
Qed.

Lemma init_returns_formats s w s' w' :
  init s w = Ok () s' w' ->
  formats (getSwapChainSupport device (calls w)) ≠ [].
Proof.
  intros Hinit Hnil. unfold init in Hinit.
  unfold mbind at 1, M_bind at 1 in Hinit.
  by rewrite (createSwapChain_no_formats _ _ Hnil) in Hinit.
Qed.

Lemma cycle_inv_init extent previous w s' w' :
  0 < MAX_FRAMES_IN_FLIGHT ->
  init (fresh_object extent previous) w = Ok () s' w' ->
  cycle_inv [] s' w'.
Proof.
  intros Hmax Hinit.
  pose proof (init_spec (fresh_object extent previous) w
                (init_returns_formats _ _ _ _ Hinit)) as Hwp.
  apply wp_elim in Hwp as ([] & s'' & w'' & Heq & Hpost).
  rewrite Hinit in Heq. injection Heq as <- <-.
  destruct Hpost as (h & line & ci & images & rest & _ & Himgs & _ & _ & _ & _
    & _ & Hflight & Hav & Hfin & Hfen & Hcf & _ & _ & _ & _ & _ & _ & Hsig).
  exists h. repeat split; try done.
  - rewrite Hcf. simpl. done.
  - rewrite Hflight. rewrite length_resize. unfold imageCount. by rewrite Himgs.
  - rewrite Hflight in H. simpl in H. rewrite resize_nil in H.
    apply lookup_replicate in H as [-> _]. done.
  - simpl. intros Hin. by apply elem_of_nil in Hin.
  - intros slot fence Hl _. apply Hsig. by eapply list_elem_of_lookup_2.
Qed.

Lemma reachable_cycle_inv past s w :
  0 < MAX_FRAMES_IN_FLIGHT ->
  reachable past s w -> cycle_inv past s w.
Proof.
  intros Hmax Hreach.
  induction Hreach as
    [extent w s0 w0 Hctor
    |extent previous w s0 w0 Hctor
    |past s w result s' w' Hreach IH Hacq
    |past s w buffers imageIndex result s' w' Hreach IH Hidx Hsub].
  - by eapply cycle_inv_init.
  - unfold LveSwapChain_ctor_previous in Hctor.
    unfold mbind, M_bind in Hctor.
    destruct (init (fresh_object extent previous) w) as [[] s1 w1|] eqn:Hinit;
      [|done].
    unfold modify in Hctor. injection Hctor as <- <-.
    pose proof (cycle_inv_init _ _ _ _ _ Hmax Hinit) as (h & Hinv).
    exists h. by destruct s1.
  - destruct IH as (h & Hav & Hfin & Hfen & Hcf & Hlen & Himg & Hsig).
    assert (N.to_nat (currentFrame s) < N.to_nat MAX_FRAMES_IN_FLIGHT)%nat
      as Hlt by lia.
    pose proof (acquireNextImage_spec s w
                  (slot_fence h (N.to_nat (currentFrame s)))
                  (slot_available h (N.to_nat (currentFrame s)))) as Hwp.
    rewrite Hfen, Hav in Hwp.
    specialize (Hwp (proj2 (lookup_fmap_seq _ _ _ _) (conj eq_refl Hlt))
                    (proj2 (lookup_fmap_seq _ _ _ _) (conj eq_refl Hlt))).
    apply wp_elim in Hwp as (r & s'' & w'' & Heq & -> & _ & _ & Hsig' & _).
    rewrite Hacq in Heq. injection Heq as -> -> ->.
    exists h. repeat split; try done; try by apply Himg.
    intros slot fence Hl Hn. rewrite Hsig'. apply elem_of_union_r. by eapply Hsig.
  - destruct IH as (h & Hav & Hfin & Hfen & Hcf & Hlen & Himg & Hsig).
    assert (N.to_nat (currentFrame s) < N.to_nat MAX_FRAMES_IN_FLIGHT)%nat
      as Hlt by lia.
    destruct (lookup_lt_is_Some_2 (imagesInFlight s) (N.to_nat imageIndex))
      as [inFlight HinFlight]; [lia|].
    pose proof (submitCommandBuffers_spec buffers imageIndex s w inFlight
                  (slot_fence h (N.to_nat (currentFrame s)))
                  (slot_available h (N.to_nat (currentFrame s)))
                  (slot_finished h (N.to_nat (currentFrame s)))) as Hwp.
    rewrite Hfen, Hav, Hfin in Hwp.
    specialize (Hwp ltac:(lia) HinFlight
                    (proj2 (lookup_fmap_seq _ _ _ _) (conj eq_refl Hlt))
                    (proj2 (lookup_fmap_seq _ _ _ _) (conj eq_refl Hlt))
                    (proj2 (lookup_fmap_seq _ _ _ _) (conj eq_refl Hlt))).
    apply wp_elim in Hwp as (r & s'' & w'' & Heq & si & pi & _ & _ & _ & _ & _
      & _ & _ & _ & -> & _ & Hsig' & _).
    rewrite Hsub in Heq. injection Heq as -> -> ->.
    exists h. destruct s. obj_simpl.
    rewrite !fmap_app. simpl.
    repeat split; try done.
    + destruct (decide (r = eSuccess)); [|done].
      apply N.mod_lt. lia.
    + by rewrite length_insert.
    + intros Hnz. rewrite elem_of_app.
      destruct (decide (i = N.to_nat imageIndex)) as [->|Hne].
      * right. rewrite N2Nat.id. apply list_elem_of_singleton. done.
      * left. rewrite list_lookup_insert_ne in H by done. by apply (Himg i fence).
    + rewrite elem_of_app. intros [Hin|Hin].
      * destruct (decide (i = N.to_nat imageIndex)) as [->|Hne].
        -- rewrite list_lookup_insert_eq in H by lia. injection H as <-.
           unfold slot_fence, VK_NULL_HANDLE. lia.
        -- rewrite list_lookup_insert_ne in H by done. by apply (Himg i fence).
      * apply list_elem_of_singleton in Hin. subst imageIndex.
        rewrite Nat2N.id in H.
        rewrite list_lookup_insert_eq in H by lia. injection H as <-.
        unfold slot_fence, VK_NULL_HANDLE. lia.
    + intros slot fence Hl Hn. rewrite Hsig'.
      rewrite not_elem_of_app in Hn. destruct Hn as [Hn Hcur].
      rewrite list_elem_of_singleton in Hcur.
      rewrite Hfen in Hl. apply lookup_fmap_seq in Hl as [-> Hslot].
      apply elem_of_difference. split.
      * assert (slot_fence h (N.to_nat slot) ∈ signaled w) as Hold.
        { apply (Hsig slot); [|done]. rewrite Hfen.
          by apply lookup_fmap_seq. }
        destruct (decide (inFlight ≠ VK_NULL_HANDLE)); [|done].
        by apply elem_of_union_r.
      * rewrite elem_of_singleton. unfold slot_fence. lia.
Qed.

(** ** The claims *)

(** C7.  From a non-empty list of surface formats, [chooseSwapSurfaceFormat]
    always returns an entry of the list: one with the 8-bit BGRA sRGB
    format and the sRGB non-linear colour space whenever the list has such
    an entry, and the first entry of the list otherwise. *)
Theorem chooseSwapSurfaceFormat_preferred_or_first
    (availableFormats : list SurfaceFormatKHR) :
  availableFormats ≠ [] ->
  ∃ chosen,
    chooseSwapSurfaceFormat availableFormats = Some chosen ∧
    chosen ∈ availableFormats ∧
    ((∃ f, f ∈ availableFormats ∧
           format f = eB8G8R8A8Srgb ∧ colorSpace f = eSrgbNonlinear) ->
     format chosen = eB8G8R8A8Srgb ∧ colorSpace chosen = eSrgbNonlinear) ∧
    ((∀ f, f ∈ availableFormats ->
           ¬ (format f = eB8G8R8A8Srgb ∧ colorSpace f = eSrgbNonlinear)) ->
     availableFormats !! 0%nat = Some chosen).
Proof.
  intros Hne. unfold chooseSwapSurfaceFormat.
  destruct (first_preferred_format availableFormats) as [f|] eqn:Hfirst.
  - apply first_preferred_format_Some in Hfirst as [Hin Hpref].
    unfold is_preferred_format in Hpref.
    apply andb_true_iff in Hpref as [Hfmt Hcs].
    apply N.eqb_eq in Hfmt, Hcs.
    exists f. repeat split; try done.
    intros Hnone. by destruct (Hnone f Hin).
  - destruct availableFormats as [|g rest]; [done|].
    exists g. split; [done|]. split; [left|]. split; [|done].
    intros (f & Hin & Hfmt & Hcs). exfalso.
    pose proof (first_preferred_format_None _ Hfirst f Hin) as Hno.
    unfold is_preferred_format in Hno.
    rewrite Hfmt, Hcs in Hno. done.
Qed.

(** C8, amended.  [createSwapChain] makes one swap chain create call, and
    the image count it asks for is the reported minimum plus one computed
    in 32-bit unsigned arithmetic, replaced by the reported maximum
    whenever a maximum is reported (maximum > 0) and that value exceeds
    it; when the reported maximum is 0 no cap is applied. *)
Theorem createSwapChain_image_count s w :
  let caps := capabilities (getSwapChainSupport device (calls w)) in
  let count := (minImageCount caps + 1) mod 2 ^ 32 in
  formats (getSwapChainSupport device (calls w)) ≠ [] ->
  ∃ s' w' line ci sc images,
    createSwapChain s w = Ok () s' w' ∧
    made w w' [StdCout line; CreateSwapchainKHR ci sc;
               GetSwapchainImagesKHR sc images] ∧
    (0 < maxImageCount caps ∧ maxImageCount caps < count ->
     sci_minImageCount ci = maxImageCount caps) ∧
    (¬ (0 < maxImageCount caps ∧ maxImageCount caps < count) ->
     sci_minImageCount ci = count) ∧
    (maxImageCount caps = 0 -> sci_minImageCount ci = count).
Proof.
  intros caps count Hne.
  pose proof (createSwapChain_spec s w Hne) as Hwp.
  apply wp_elim in Hwp as ([] & s' & w' & Heq & sf & line & ext & ci & images
    & _ & _ & Hmade & _ & Hmin & _).
  exists s', w', line, ci, (N.succ (next_handle w)), images.
  split; [done|]. split; [done|].
  rewrite Hmin. unfold requestedImageCount, u32. fold caps. fold count.
  clearbody count caps.
  destruct (N.ltb_spec 0 (maxImageCount caps));
    destruct (N.ltb_spec (maxImageCount caps) count); simpl;
    repeat split; intros; try done; lia.
Qed.

(** The images the object records are the answer of the platform to the
    one image query of [createSwapChain]. *)
Lemma createSwapChain_platform_images s w :
  let sc := N.succ (next_handle w) in
  formats (getSwapChainSupport device (calls w)) ≠ [] ->
  wp createSwapChain
     (λ _ s' w', ∃ line ci,
        let images :=
          swapchainImages device
            (calls w ++ [StdCout line; CreateSwapchainKHR ci sc]) sc in
        swapChain s' = sc ∧
        swapChainImages s' = images ∧
        made w w' [StdCout line; CreateSwapchainKHR ci sc;
                   GetSwapchainImagesKHR sc images])
     s w.
Proof.
  intros sc Hne.
  unfold createSwapChain. destruct s. obj_simpl.
  repeat wp_step.
  destruct (chooseSwapSurfaceFormat_is_Some _ Hne) as [surfaceFormat Hf].
  rewrite Hf.
  wp_step. unfold chooseSwapPresentMode, cout.
  destruct (has_mailbox _).
  - repeat wp_step. unfold chooseSwapExtent.
    destruct (decide (_ ≠ UINT32_MAX)).
    + unfold createSwapchainKHR, getSwapchainImagesKHR. repeat wp_step.
      eexists _, _. cbv zeta. rewrite <- !app_assoc. simpl.
      split; [reflexivity|]. split; [reflexivity|]. made_tac.
    + unfold createSwapchainKHR, getSwapchainImagesKHR. repeat wp_step.
      eexists _, _. cbv zeta. rewrite <- !app_assoc. simpl.
      split; [reflexivity|]. split; [reflexivity|]. made_tac.
  - repeat wp_step. unfold chooseSwapExtent.
    destruct (decide (_ ≠ UINT32_MAX)).
    + unfold createSwapchainKHR, getSwapchainImagesKHR. repeat wp_step.
      eexists _, _. cbv zeta. rewrite <- !app_assoc. simpl.
      split; [reflexivity|]. split; [reflexivity|]. made_tac.
    + unfold createSwapchainKHR, getSwapchainImagesKHR. repeat wp_step.
      eexists _, _. cbv zeta. rewrite <- !app_assoc. simpl.
      split; [reflexivity|]. split; [reflexivity|]. made_tac.
Qed.

(** [init] keeps them: nothing after [createSwapChain] writes the images,
    and every later call comes after the image query. *)
Lemma init_platform_images s w :
  let sc := N.succ (next_handle w) in
  formats (getSwapChainSupport device (calls w)) ≠ [] ->
  wp init
     (λ _ s' w', ∃ line ci rest,
        let images :=
          swapchainImages device
            (calls w ++ [StdCout line; CreateSwapchainKHR ci sc]) sc in
        swapChain s' = sc ∧
        swapChainImages s' = images ∧
        made w w' ([StdCout line; CreateSwapchainKHR ci sc;
                    GetSwapchainImagesKHR sc images] ++ rest))
     s w.
Proof.
  intros sc Hne. unfold init.
  wp_step. eapply wp_mono; [by apply createSwapChain_platform_images|].
  intros _ s1 w1 (line & ci & Hsc & Himgs & Hm1). cbv zeta in *.
  wp_step. eapply wp_mono; [apply createImageViews_spec|].
  intros _ s2 w2 (views & tr2 & -> & Hl2 & Hm2 & Hf2).
  wp_step. eapply wp_mono; [apply createRenderPass_spec|].
  intros _ s3 w3 (rp & tr3 & -> & Hm3 & Hf3).
  wp_step. eapply wp_mono; [apply createDepthResources_spec|].
  intros _ s4 w4 (fmt & dimgs & dmems & dviews & tr4 & -> & Hd1 & Hd2 & Hd3
                  & Hm4 & Hf4).
  wp_step. eapply wp_mono.
  { apply createFramebuffers_spec; destruct s1; obj_simpl; lia. }
  intros _ s5 w5 (fbs & tr5 & -> & Hl5 & Hm5 & Hf5).
  eapply wp_mono; [apply createSyncObjects_spec|].
  intros _ s6 w6 (-> & Hm6 & _).
  destruct s1. obj_simpl.
  eexists line, ci, (tr2 ++ tr3 ++ tr4 ++ tr5 ++ _).
  split; [done|]. split; [done|].
  exact (made_trans _ _ _ _ _ Hm1
          (made_trans _ _ _ _ _ Hm2
            (made_trans _ _ _ _ _ Hm3
              (made_trans _ _ _ _ _ Hm4 (made_trans _ _ _ _ _ Hm5 Hm6))))).
Qed.

(** C5.  When [init] completes, the colour image views, the depth
    images, depth memories and depth views, the framebuffers and the
    per-image fences are each as many as the swap chain has images, and the
    swap chain's images are the ones the platform returned to the image
    query that follows the swap chain create call: so for every number of
    images the platform returns, in particular every number from 1 on, all
    six sequences have that length.  [init] does complete whenever the
    device reports at least one surface format. *)
Theorem init_sequence_lengths s w :
  formats (getSwapChainSupport device (calls w)) ≠ [] ->
  ∃ s' w' line ci rest,
    let sc := swapChain s' in
    let images :=
      swapchainImages device
        (calls w ++ [StdCout line; CreateSwapchainKHR ci sc]) sc in
    init s w = Ok () s' w' ∧
    made w w' ([StdCout line; CreateSwapchainKHR ci sc;
                GetSwapchainImagesKHR sc images] ++ rest) ∧
    Forall swapchain_free rest ∧
    swapChainImages s' = images ∧
    imageCount s' = length images ∧
    length (swapChainImageViews s') = imageCount s' ∧
    length (depthImages s') = imageCount s' ∧
    length (depthImageMemorys s') = imageCount s' ∧
    length (depthImageViews s') = imageCount s' ∧
    length (swapChainFramebuffers s') = imageCount s' ∧
    length (imagesInFlight s') = imageCount s'.
Proof.
  intros Hne.
  pose proof (init_spec s w Hne) as Hwp.
  apply wp_elim in Hwp as ([] & s' & w' & Heq & h & line & ci & images & rest
    & Hsc & Himgs & Hv & Hd1 & Hd2 & Hd3 & Hfb & Hflight & _ & _ & _ & _ & _
    & _ & Hmade & _ & _ & Hfree & _).
  pose proof (init_platform_images s w Hne) as Hwp'.
  apply wp_elim in Hwp' as ([] & s'' & w'' & Heq' & line' & ci' & rest'
    & Hsc' & Himgs' & Hmade').
  cbv zeta in *.
  rewrite Heq in Heq'. injection Heq' as <- <-.
  unfold made in Hmade, Hmade'. rewrite Hmade in Hmade'.
  apply app_inv_head in Hmade'.
  injection Hmade' as Hline Hci Himages Hrest.
  subst line' ci' rest'.
  exists s', w', line, ci, rest. cbv zeta. unfold imageCount.
  rewrite Hsc. rewrite <- Himages, <- Himgs.
  split; [done|]. split; [by rewrite Himgs|]. split; [done|].
  split; [done|]. split; [done|].
  rewrite Himgs.
  repeat split; try done.
  by rewrite Hflight, length_resize.
Qed.

(** C6.  Constructing a swap chain from a predecessor makes exactly one
    call that involves the predecessor's handle, the swap chain create
    call, where it is the old-swapchain member of the create info; the only
    other call taking a swap chain handle queries the images of the new
    swap chain; and the constructed object holds no reference to the
    predecessor. *)
Theorem ctor_previous_releases_predecessor extent previous w :
  formats (getSwapChainSupport device (calls w)) ≠ [] ->
  swapChain previous <= next_handle w ->
  ∃ s' w' line ci sc images rest,
    LveSwapChain_ctor_previous extent (Some previous) w = Ok () s' w' ∧
    made w w' ([StdCout line; CreateSwapchainKHR ci sc;
                GetSwapchainImagesKHR sc images] ++ rest) ∧
    sci_oldSwapchain ci = swapChain previous ∧
    sc ≠ swapChain previous ∧
    swapChain s' = sc ∧
    Forall swapchain_free rest ∧
    oldSwapChain s' = None.
Proof.
  intros Hne Hold.
  pose proof (init_spec (fresh_object extent (Some previous)) w Hne) as Hwp.
  apply wp_elim in Hwp as ([] & s1 & w1 & Heq & h & line & ci & images & rest
    & Hsc & _ & _ & _ & _ & _ & _ & _ & _ & _ & _ & _ & _ & _ & Hmade & Hci
    & _ & Hfree & _).
  exists (set_oldSwapChain None s1), w1, line, ci,
    (N.succ (next_handle w)), images, rest.
  split.
  { unfold LveSwapChain_ctor_previous, mbind, M_bind. by rewrite Heq. }
  split; [done|]. split; [done|]. split; [lia|].
  split; [by destruct s1|]. split; [done|]. by destruct s1.
Qed.

(** C10.  [acquireNextImage] returns with the swap chain object exactly
    as it was: the frame index, the per-image fences and every resource
    sequence are the ones it was called with, so an image index gets its
    fence from [submitCommandBuffers] alone. *)
Theorem acquireNextImage_object_unchanged s w :
  (N.to_nat (currentFrame s) < length (inFlightFences s))%nat ->
  (N.to_nat (currentFrame s) < length (imageAvailableSemaphores s))%nat ->
  ∃ result w', acquireNextImage s w = Ok result s w'.
Proof.
  intros Hf Ha.
  destruct (lookup_lt_is_Some_2 _ _ Hf) as [fence Hfence].
  destruct (lookup_lt_is_Some_2 _ _ Ha) as [available Havailable].
  pose proof (acquireNextImage_spec s w fence available Hfence Havailable)
    as Hwp.
  apply wp_elim in Hwp as (result & s' & w' & Heq & -> & _).
  by exists result, w'.
Qed.

(** C1, amended.  On an object whose depth sequences are as long as its
    depth images and whose synchronisation sequences hold every frame
    slot, the destructor returns after these calls, in this order: the
    colour image views, the swap chain handle, the depth view, image and
    memory of every depth image, the framebuffers, the render pass, and
    the two semaphores and the fence of every frame slot.  Only the swap
    chain handle is tested: it is destroyed if and only if it is not null,
    and is null afterwards.  The sequences are released element by
    element, so an empty sequence is passed over; the render pass is
    released whatever its handle is. *)
Theorem dtor_release_sequence s w :
  let slots := N.to_nat MAX_FRAMES_IN_FLIGHT in
  (length (depthImages s) <= length (depthImageViews s))%nat ->
  (length (depthImages s) <= length (depthImageMemorys s))%nat ->
  (slots <= length (renderFinishedSemaphores s))%nat ->
  (slots <= length (imageAvailableSemaphores s))%nat ->
  (slots <= length (inFlightFences s))%nat ->
  ∃ s' w' tr,
    LveSwapChain_dtor s w = Ok () s' w' ∧
    made w w' tr ∧
    tr = (DestroyImageView <$> swapChainImageViews s) ++
         (if decide (swapChain s ≠ VK_NULL_HANDLE)
          then [DestroySwapchainKHR (swapChain s)] else []) ++
         (seq 0 (length (depthImages s)) ≫= λ i,
            [DestroyImageView (depthImageViews s !!! i);
             DestroyImage (depthImages s !!! i);
             FreeMemory (depthImageMemorys s !!! i)]) ++
         (DestroyFramebuffer <$> swapChainFramebuffers s) ++
         [DestroyRenderPass (renderPass s)] ++
         (seq 0 slots ≫= λ i,
            [DestroySemaphore (renderFinishedSemaphores s !!! i);
             DestroySemaphore (imageAvailableSemaphores s !!! i);
             DestroyFence (inFlightFences s !!! i)]) ∧
    (∀ h, DestroySwapchainKHR h ∈ tr ↔
          h = swapChain s ∧ swapChain s ≠ VK_NULL_HANDLE) ∧
    swapChain s' = VK_NULL_HANDLE ∧
    swapChainImageViews s' = [].
Proof.
  intros slots Hdv Hdm Hrf Hia Hif.
  pose proof (LveSwapChain_dtor_spec s w Hdv Hdm Hrf Hia Hif) as Hwp.
  apply wp_elim in Hwp as ([] & s' & w' & Heq & -> & Hmade).
  exists (set_swapChain VK_NULL_HANDLE (set_swapChainImageViews [] s)), w',
    (release_calls s).
  split; [done|]. split; [done|]. split; [done|].
  split; [|by destruct s].
  intros h. unfold release_calls.
  rewrite !elem_of_app, !list_elem_of_fmap, !list_elem_of_bind.
  split.
  - intros [(x & Hx & _)|[Hin|[(i & Hin & _)|[(x & Hx & _)|[Hin|(i & Hin & _)]]]]];
      try done.
    + destruct (decide (swapChain s ≠ VK_NULL_HANDLE)) as [Hnz|Hz].
      * apply list_elem_of_singleton in Hin. injection Hin as ->. done.
      * by apply elem_of_nil in Hin.
    + unfold depth_release in Hin.
      repeat (apply elem_of_cons in Hin as [Hin|Hin]; [done|]).
      by apply elem_of_nil in Hin.
    + apply list_elem_of_singleton in Hin. done.
    + unfold slot_release in Hin.
      repeat (apply elem_of_cons in Hin as [Hin|Hin]; [done|]).
      by apply elem_of_nil in Hin.
  - intros [-> Hnz]. right. left. rewrite decide_True by done.
    by apply list_elem_of_singleton.
Qed.

(** C3.  A call of [submitCommandBuffers] with the image index and the
    frame index in range returns the result of the present call.  When
    that result is success the frame index has advanced by one modulo
    [MAX_FRAMES_IN_FLIGHT]; otherwise the frame index is as before.  In
    both cases it stays below [MAX_FRAMES_IN_FLIGHT]. *)
Theorem submit_frame_index buffers imageIndex s w :
  let slots := N.to_nat MAX_FRAMES_IN_FLIGHT in
  0 < MAX_FRAMES_IN_FLIGHT < 2 ^ 31 ->
  currentFrame s < MAX_FRAMES_IN_FLIGHT ->
  length (imageAvailableSemaphores s) = slots ->
  length (renderFinishedSemaphores s) = slots ->
  length (inFlightFences s) = slots ->
  (N.to_nat imageIndex < length (imagesInFlight s))%nat ->
  ∃ result s' w' pi,
    submitCommandBuffers buffers imageIndex s w = Ok result s' w' ∧
    last (calls w') = Some (QueuePresentKHR pi result) ∧
    (result = eSuccess ->
     currentFrame s' = (currentFrame s + 1) mod MAX_FRAMES_IN_FLIGHT) ∧
    (result ≠ eSuccess -> currentFrame s' = currentFrame s) ∧
    currentFrame s' < MAX_FRAMES_IN_FLIGHT.
Proof.
  intros slots Hmax Hcf Hla Hlr Hlf Hidx.
  assert (N.to_nat (currentFrame s) < slots)%nat as Hlt by (subst slots; lia).
  destruct (lookup_lt_is_Some_2 (imagesInFlight s) _ Hidx) as [x1 H1].
  destruct (lookup_lt_is_Some_2 (inFlightFences s) (N.to_nat (currentFrame s)))
    as [x2 H2]; [lia|].
  destruct (lookup_lt_is_Some_2 (imageAvailableSemaphores s)
              (N.to_nat (currentFrame s))) as [x3 H3]; [lia|].
  destruct (lookup_lt_is_Some_2 (renderFinishedSemaphores s)
              (N.to_nat (currentFrame s))) as [x4 H4]; [lia|].
  pose proof (submitCommandBuffers_spec buffers imageIndex s w x1 x2 x3 x4
                ltac:(lia) H1 H2 H3 H4) as Hwp.
  apply wp_elim in Hwp as (result & s' & w' & Heq & si & pi & Hmade & _ & _
    & _ & _ & _ & _ & _ & -> & _).
  eexists result, _, w', pi. split; [done|].
  split.
  { unfold made in Hmade. rewrite Hmade.
    change [ResetFences x2; QueueSubmit si x2; QueuePresentKHR pi result]
      with ([ResetFences x2; QueueSubmit si x2] ++ [QueuePresentKHR pi result]).
    rewrite !app_assoc. apply last_snoc. }
  assert (usize (currentFrame s + 1) = currentFrame s + 1) as Hwrap.
  { unfold usize. apply N.mod_small.
    assert (2 ^ 31 < 2 ^ 64) by (by vm_compute). lia. }
  destruct s. obj_simpl.
  destruct (decide (result = eSuccess)) as [->|Hne].
  - rewrite Hwrap. split; [done|]. split; [done|]. apply N.mod_lt. lia.
  - done.
Qed.

(** C9.  A call of [submitCommandBuffers] with the image index and the
    frame index in range makes exactly one submit to the graphics queue,
    and that submit names the caller's array with a command buffer count
    of 1, however many command buffers the array holds. *)
Theorem submit_one_command_buffer buffers imageIndex s w :
  MAX_FRAMES_IN_FLIGHT ≠ 0 ->
  (N.to_nat (currentFrame s) < length (imageAvailableSemaphores s))%nat ->
  (N.to_nat (currentFrame s) < length (renderFinishedSemaphores s))%nat ->
  (N.to_nat (currentFrame s) < length (inFlightFences s))%nat ->
  (N.to_nat imageIndex < length (imagesInFlight s))%nat ->
  ∃ result s' w' tr si,
    submitCommandBuffers buffers imageIndex s w = Ok result s' w' ∧
    made w w' tr ∧
    queue_submits tr = [si] ∧
    si_commandBufferCount si = 1 ∧
    si_pCommandBuffers si = buffers.
Proof.
  intros Hmax Hla Hlr Hlf Hidx.
  destruct (lookup_lt_is_Some_2 _ _ Hidx) as [x1 H1].
  destruct (lookup_lt_is_Some_2 _ _ Hlf) as [x2 H2].
  destruct (lookup_lt_is_Some_2 _ _ Hla) as [x3 H3].
  destruct (lookup_lt_is_Some_2 _ _ Hlr) as [x4 H4].
  pose proof (submitCommandBuffers_spec buffers imageIndex s w x1 x2 x3 x4
                Hmax H1 H2 H3 H4) as Hwp.
  apply wp_elim in Hwp as (result & s' & w' & Heq & si & pi & Hmade & Hcount
    & Hbuf & _).
  eexists result, s', w', _, si. split; [done|]. split; [done|].
  split; [|done].
  unfold queue_submits. rewrite omap_app.
  by destruct (decide (x1 ≠ VK_NULL_HANDLE)).
Qed.

(** C2.  In every state of the frame cycle, a call of
    [submitCommandBuffers] with an image index within the image count
    returns; the host waits on the fence held for that image index if an
    earlier submit was made for that index, and makes no wait at all
    otherwise, the fence held for the index then being the null fence it
    was initialised with; and afterwards the fence held for the index is
    the in-flight fence of the frame slot that was current at the call. *)
Theorem submit_waits_iff_submitted_before past s w buffers imageIndex :
  0 < MAX_FRAMES_IN_FLIGHT ->
  reachable past s w ->
  (N.to_nat imageIndex < imageCount s)%nat ->
  ∃ associated slotFence result s' w' tr,
    imagesInFlight s !! N.to_nat imageIndex = Some associated ∧
    inFlightFences s !! N.to_nat (currentFrame s) = Some slotFence ∧
    submitCommandBuffers buffers imageIndex s w = Ok result s' w' ∧
    made w w' tr ∧
    waited_fences tr =
      (if decide (imageIndex ∈ past.*1) then [associated] else []) ∧
    (imageIndex ∉ past.*1 -> associated = VK_NULL_HANDLE) ∧
    imagesInFlight s' !! N.to_nat imageIndex = Some slotFence.
Proof.
  intros Hmax Hreach Hidx.
  destruct (reachable_cycle_inv _ _ _ Hmax Hreach)
    as (h & Hav & Hfin & Hfen & Hcf & Hlen & Himg & _).
  assert (N.to_nat (currentFrame s) < N.to_nat MAX_FRAMES_IN_FLIGHT)%nat
    as Hlt by lia.
  destruct (lookup_lt_is_Some_2 (imagesInFlight s) (N.to_nat imageIndex))
    as [associated Hassoc]; [lia|].
  pose proof (submitCommandBuffers_spec buffers imageIndex s w associated
                (slot_fence h (N.to_nat (currentFrame s)))
                (slot_available h (N.to_nat (currentFrame s)))
                (slot_finished h (N.to_nat (currentFrame s)))) as Hwp.
  rewrite Hfen, Hav, Hfin in Hwp.
  specialize (Hwp ltac:(lia) Hassoc
                  (proj2 (lookup_fmap_seq _ _ _ _) (conj eq_refl Hlt))
                  (proj2 (lookup_fmap_seq _ _ _ _) (conj eq_refl Hlt))
                  (proj2 (lookup_fmap_seq _ _ _ _) (conj eq_refl Hlt))).
  apply wp_elim in Hwp as (result & s' & w' & Heq & si & pi & Hmade & _ & _
    & _ & _ & _ & _ & _ & -> & _).
  pose proof (Himg _ _ Hassoc) as Hiff. rewrite N2Nat.id in Hiff.
  eexists associated, (slot_fence h (N.to_nat (currentFrame s))), result, _, w', _.
  split; [done|].
  split; [rewrite Hfen; by apply lookup_fmap_seq|].
  split; [done|]. split; [done|].
  split; [|split].
  - unfold waited_fences. rewrite omap_app. simpl.
    destruct (decide (associated ≠ VK_NULL_HANDLE)) as [Hnz|Hz].
    + rewrite decide_True by (by apply Hiff). done.
    + rewrite decide_False; [done|]. intros Hin. by apply Hz, Hiff.
  - intros Hnot. destruct (decide (associated = VK_NULL_HANDLE)); [done|].
    exfalso. by apply Hnot, Hiff.
  - destruct s. obj_simpl. apply list_lookup_insert_eq. lia.
Qed.

Lemma created_fences_slot_calls h l :
  created_fences (l ≫= slot_calls h)
  = (λ i, ({| fci_flags := eFenceCreateSignaled |}, slot_fence h i)) <$> l.
Proof.
  induction l as [|i l IH]; [done|].
  change ((i :: l) ≫= slot_calls h) with (slot_calls h i ++ (l ≫= slot_calls h)).
  unfold created_fences in *. by rewrite omap_app, IH.
Qed.

Lemma created_semaphores_slot_calls h l :
  created_semaphores (l ≫= slot_calls h)
  ≡ₚ (slot_available h <$> l) ++ (slot_finished h <$> l).
Proof.
  induction l as [|i l IH]; [done|].
  change ((i :: l) ≫= slot_calls h) with (slot_calls h i ++ (l ≫= slot_calls h)).
  unfold created_semaphores in *. rewrite omap_app, IH. simpl.
  constructor. apply Permutation_middle.
Qed.

(** C4.  [createSyncObjects] returns having created one image-available
    semaphore, one render-finished semaphore and one in-flight fence per
    frame slot and no other semaphore or fence; every fence is created
    with the signaled flag and is signaled when the function returns.  In
    the frame cycle, a call of [acquireNextImage] in a frame slot that no
    submit has used yet finds the slot's fence signaled: its wait does not
    block. *)
Theorem createSyncObjects_signaled_fences s w past sr wr :
  let slots := N.to_nat MAX_FRAMES_IN_FLIGHT in
  0 < MAX_FRAMES_IN_FLIGHT ->
  reachable past sr wr ->
  currentFrame sr ∉ past.*2 ->
  (∃ s' w' tr,
     createSyncObjects s w = Ok () s' w' ∧
     made w w' tr ∧
     length (imageAvailableSemaphores s') = slots ∧
     length (renderFinishedSemaphores s') = slots ∧
     length (inFlightFences s') = slots ∧
     created_semaphores tr
       ≡ₚ imageAvailableSemaphores s' ++ renderFinishedSemaphores s' ∧
     created_fences tr
       = (λ fence, ({| fci_flags := eFenceCreateSignaled |}, fence))
           <$> inFlightFences s' ∧
     (∀ fence, fence ∈ inFlightFences s' -> fence ∈ signaled w')) ∧
  (∃ result w',
     acquireNextImage sr wr = Ok result sr w' ∧
     stalls w' = stalls wr).
Proof.
  intros slots Hmax Hreach Hslot. split.
  - pose proof (createSyncObjects_spec s w) as Hwp.
    apply wp_elim in Hwp as ([] & s' & w' & Heq & -> & Hmade & _ & Hsig & _).
    eexists _, w', _. split; [done|]. split; [done|].
    destruct s. obj_simpl. rewrite !length_fmap, !length_seq.
    split; [done|]. split; [done|]. split; [done|].
    split; [apply created_semaphores_slot_calls|].
    split.
    + rewrite created_fences_slot_calls. by rewrite <- list_fmap_compose.
    + intros fence Hin. rewrite Hsig. apply elem_of_union_l.
      by apply elem_of_list_to_set.
  - destruct (reachable_cycle_inv _ _ _ Hmax Hreach)
      as (h & Hav & _ & Hfen & Hcf & _ & _ & Hsig).
    assert (N.to_nat (currentFrame sr) < N.to_nat MAX_FRAMES_IN_FLIGHT)%nat
      as Hlt by lia.
    pose proof (acquireNextImage_spec sr wr
                  (slot_fence h (N.to_nat (currentFrame sr)))
                  (slot_available h (N.to_nat (currentFrame sr)))) as Hwp.
    rewrite Hfen, Hav in Hwp.
    specialize (Hwp (proj2 (lookup_fmap_seq _ _ _ _) (conj eq_refl Hlt))
                    (proj2 (lookup_fmap_seq _ _ _ _) (conj eq_refl Hlt))).
    apply wp_elim in Hwp as (r & s'' & w'' & Heq & -> & _ & _ & _ & Hst).
    exists r, w''. split; [done|].
    rewrite Hst. rewrite decide_True; [done|].
    apply (Hsig (currentFrame sr)); [|done].
    rewrite Hfen. by apply lookup_fmap_seq.
Qed.

(** ** Further properties of the code *)

Lemma has_mailbox_elem l : has_mailbox l = true ↔ eMailbox ∈ l.
Proof.
  induction l as [|m l IH]; simpl.
  - split; [done|]. intros H. by apply elem_of_nil in H.
  - destruct (decide (m = eMailbox)) as [->|Hne].
    + split; [intros _; left|done].
    + rewrite IH. split; [by right|].
      intros H. apply elem_of_cons in H as [H|H]; [by subst|done].
Qed.

(** X1.  [chooseSwapPresentMode] always returns, after printing one line
    and without touching the object: it returns mailbox when the list of
    available modes has it, and FIFO otherwise, also when the list does not
    contain FIFO or is empty. *)
Theorem chooseSwapPresentMode_mailbox_or_fifo
    (availablePresentModes : list PresentModeKHR) s w :
  ∃ mode line w',
    chooseSwapPresentMode availablePresentModes s w = Ok mode s w' ∧
    made w w' [StdCout line] ∧
    (eMailbox ∈ availablePresentModes -> mode = eMailbox) ∧
    (eMailbox ∉ availablePresentModes -> mode = eFifo).
Proof.
  unfold chooseSwapPresentMode.
  destruct (has_mailbox availablePresentModes) eqn:Hm.
  - apply has_mailbox_elem in Hm.
    eexists eMailbox, _, _. split; [reflexivity|]. split; [done|].
    split; [done|]. intros Hn. by destruct Hn.
  - assert (eMailbox ∉ availablePresentModes) as Hn.
    { intros Hin. apply has_mailbox_elem in Hin. congruence. }
    eexists eFifo, _, _. split; [reflexivity|]. split; [done|].
    split; [|done]. intros Hin. by destruct Hn.
Qed.

(** X2.  [chooseSwapExtent] always returns, without a platform call and
    without touching the object.  When the width of the surface's current
    extent is not the 32-bit sentinel the current extent is returned as it
    is (the height is not looked at).  Otherwise each dimension of the
    result is the window's, clamped to the surface's bounds: the window's
    own value when it lies within the bounds, the minimum when it is below
    it, the maximum when it is above it and the bounds are consistent, and
    the minimum whenever the maximum is below the minimum. *)
Theorem chooseSwapExtent_current_or_clamped (caps : SurfaceCapabilitiesKHR) s w :
  ∃ extent,
    chooseSwapExtent caps s w = Ok extent s w ∧
    (width (currentExtent caps) ≠ UINT32_MAX -> extent = currentExtent caps) ∧
    (width (currentExtent caps) = UINT32_MAX ->
       clamps_to (width (minImageExtent caps)) (width (maxImageExtent caps))
                 (width (windowExtent s)) (width extent) ∧
       clamps_to (height (minImageExtent caps)) (height (maxImageExtent caps))
                 (height (windowExtent s)) (height extent)).
Proof.
  unfold chooseSwapExtent.
  destruct (decide (width (currentExtent caps) ≠ UINT32_MAX)) as [Hne|He].
  - eexists. split; [reflexivity|]. split; [done|]. intros He. by destruct Hne.
  - eexists. split; [reflexivity|]. split; [intros Hne; by destruct He|].
    intros _. unfold clamps_to. simpl. repeat split; lia.
Qed.

(** X3.  With an empty list of surface formats nothing is chosen, and
    construction stops at the undefined [availableFormats[0]] before any
    platform call is made and with the object as the member initialisers
    left it. *)
Theorem ctor_without_formats extent w :
  formats (getSwapChainSupport device (calls w)) = [] ->
  chooseSwapSurfaceFormat [] = None ∧
  createSwapChain (fresh_object extent None) w
    = Fault (fresh_object extent None) w ∧
  LveSwapChain_ctor extent w = Fault (fresh_object extent None) w.
Proof.
  intros Hnil. split; [done|].
  pose proof (createSwapChain_no_formats (fresh_object extent None) w Hnil) as H.
  split; [done|].
  unfold LveSwapChain_ctor, init.
  unfold mbind at 1, M_bind at 1. by rewrite H.
Qed.

(** X4.  [submitCommandBuffers] does not check the image index: with an
    index at or beyond the per-image fences it runs into the undefined
    [imagesInFlight[*imageIndex]] at once, before any wait, submit or
    present and with the object unchanged. *)
Theorem submit_image_index_out_of_range buffers imageIndex s w :
  (length (imagesInFlight s) <= N.to_nat imageIndex)%nat ->
  submitCommandBuffers buffers imageIndex s w = Fault s w.
Proof.
  intros Hlen. unfold submitCommandBuffers.
  unfold mbind at 1, M_bind at 1, vec_read.
  by rewrite (lookup_ge_None_2 _ _ Hlen).
Qed.

(** X5.  The first constructor, on a device that reports at least one
    surface format, returns an object with frame index 0, no predecessor,
    the window extent it was given and a null fence for every swap chain
    image, and its swap chain create call carries the null handle as the
    old swap chain. *)
Theorem ctor_initial_state extent w :
  formats (getSwapChainSupport device (calls w)) ≠ [] ->
  ∃ s' w' line ci images rest,
    LveSwapChain_ctor extent w = Ok () s' w' ∧
    made w w' ([StdCout line; CreateSwapchainKHR ci (swapChain s');
                GetSwapchainImagesKHR (swapChain s') images] ++ rest) ∧
    sci_oldSwapchain ci = VK_NULL_HANDLE ∧
    swapChain s' ≠ VK_NULL_HANDLE ∧
    swapChainImages s' = images ∧
    imagesInFlight s' = replicate (length images) VK_NULL_HANDLE ∧
    currentFrame s' = 0 ∧
    oldSwapChain s' = None ∧
    windowExtent s' = extent.
Proof.
  intros Hne.
  pose proof (init_spec (fresh_object extent None) w Hne) as Hwp.
  apply wp_elim in Hwp as ([] & s' & w' & Heq & h & line & ci & images & rest
    & Hsc & Himgs & _ & _ & _ & _ & _ & Hflight & _ & _ & _ & Hcf & Hold
    & Hwin & Hmade & Hci & _).
  exists s', w', line, ci, images, rest.
  rewrite Hsc. split; [done|]. split; [done|]. split; [done|].
  split; [unfold VK_NULL_HANDLE; lia|]. split; [done|].
  split; [rewrite Hflight; exact (resize_nil _ _)|]. done.
Qed.

(** The result of [submitCommandBuffers] is what the present call
    answered. *)
Lemma submitCommandBuffers_result buffers imageIndex s w
    inFlight slotFence available finished :
  MAX_FRAMES_IN_FLIGHT ≠ 0 ->
  imagesInFlight s !! N.to_nat imageIndex = Some inFlight ->
  inFlightFences s !! N.to_nat (currentFrame s) = Some slotFence ->
  imageAvailableSemaphores s !! N.to_nat (currentFrame s) = Some available ->
  renderFinishedSemaphores s !! N.to_nat (currentFrame s) = Some finished ->
  wp (submitCommandBuffers buffers imageIndex)
     (λ result _ _, ∃ past pi, result = presentAnswer device past pi)
     s w.
Proof.
  intros Hmax Hi Hf Ha Hr. unfold submitCommandBuffers, presentKHR, queueSubmit.
  pose proof (lookup_lt_Some _ _ _ Hi) as Hlen.
  destruct s. obj_simpl.
  wp_step. eapply wp_vec_read; [done|].
  wp_step.
  destruct (decide (inFlight ≠ VK_NULL_HANDLE)) as [Hnz|Hz].
  - apply wp_waitForFences.
    repeat wp_step. eapply wp_vec_read; [done|].
    wp_step. apply wp_vec_write; [done|]. obj_simpl.
    wp_step. eapply wp_vec_read; [done|].
    wp_step. eapply wp_vec_read; [done|].
    wp_step. apply wp_resetFences.
    repeat wp_step.
    match goal with |- wp (if decide (?r ≠ eSuccess) then _ else _) _ _ _ =>
      destruct (decide (r ≠ eSuccess)) as [Hr'|Hr'] end.
    + wp_step. by eexists _, _.
    + rewrite decide_False by done. repeat wp_step. by eexists _, _.
  - wp_step.
    repeat wp_step. eapply wp_vec_read; [done|].
    wp_step. apply wp_vec_write; [done|]. obj_simpl.
    wp_step. eapply wp_vec_read; [done|].
    wp_step. eapply wp_vec_read; [done|].
    wp_step. apply wp_resetFences.
    repeat wp_step.
    match goal with |- wp (if decide (?r ≠ eSuccess) then _ else _) _ _ _ =>
      destruct (decide (r ≠ eSuccess)) as [Hr'|Hr'] end.
    + wp_step. by eexists _, _.
    + rewrite decide_False by done. repeat wp_step. by eexists _, _.
Qed.

(** One submit from a state of the frame cycle, with everything the
    later proofs need of it. *)
Lemma cycle_submit past s w buffers imageIndex :
  0 < MAX_FRAMES_IN_FLIGHT ->
  reachable past s w ->
  (N.to_nat imageIndex < imageCount s)%nat ->
  ∃ h inFlight result s' w' si pi,
    let slot := N.to_nat (currentFrame s) in
    inFlightFences s = slot_fence h <$> seq 0 (N.to_nat MAX_FRAMES_IN_FLIGHT) ∧
    imageAvailableSemaphores s
      = slot_available h <$> seq 0 (N.to_nat MAX_FRAMES_IN_FLIGHT) ∧
    (slot < N.to_nat MAX_FRAMES_IN_FLIGHT)%nat ∧
    imagesInFlight s !! N.to_nat imageIndex = Some inFlight ∧
    submitCommandBuffers buffers imageIndex s w = Ok result s' w' ∧
    (∃ before pi', result = presentAnswer device before pi') ∧
    made w w'
      ((if decide (inFlight ≠ VK_NULL_HANDLE)
        then [WaitForFences inFlight true UINT64_MAX] else []) ++
       [ResetFences (slot_fence h slot); QueueSubmit si (slot_fence h slot);
        QueuePresentKHR pi result]) ∧
    si_pWaitSemaphores si = [slot_available h slot] ∧
    si_pSignalSemaphores si = [slot_finished h slot] ∧
    pi_pWaitSemaphores pi = [slot_finished h slot] ∧
    pi_pSwapchains pi = [swapChain s] ∧
    pi_pImageIndices pi = [imageIndex] ∧
    s' = set_currentFrame
           (if decide (result = eSuccess)
            then usize (currentFrame s + 1) mod MAX_FRAMES_IN_FLIGHT
            else currentFrame s)
           (set_imagesInFlight
              (<[N.to_nat imageIndex:=slot_fence h slot]> (imagesInFlight s))
              s) ∧
    next_handle w' = next_handle w ∧
    signaled w' =
      (if decide (inFlight ≠ VK_NULL_HANDLE)
       then {[inFlight]} ∪ signaled w else signaled w)
      ∖ {[slot_fence h slot]} ∧
    stalls w' =
      (if decide (inFlight ≠ VK_NULL_HANDLE)
       then (if decide (inFlight ∈ signaled w)
             then stalls w else stalls w ++ [inFlight])
       else stalls w).
Proof.
  intros Hmax Hreach Hidx.
  destruct (reachable_cycle_inv _ _ _ Hmax Hreach)
    as (h & Hav & Hfin & Hfen & Hcf & Hlen & _ & _).
  assert (N.to_nat (currentFrame s) < N.to_nat MAX_FRAMES_IN_FLIGHT)%nat
    as Hlt by lia.
  destruct (lookup_lt_is_Some_2 (imagesInFlight s) (N.to_nat imageIndex))
    as [inFlight HinFlight]; [lia|].
  pose proof (submitCommandBuffers_spec buffers imageIndex s w inFlight
                (slot_fence h (N.to_nat (currentFrame s)))
                (slot_available h (N.to_nat (currentFrame s)))
                (slot_finished h (N.to_nat (currentFrame s)))) as Hwp.
  pose proof (submitCommandBuffers_result buffers imageIndex s w inFlight
                (slot_fence h (N.to_nat (currentFrame s)))
                (slot_available h (N.to_nat (currentFrame s)))
                (slot_finished h (N.to_nat (currentFrame s)))) as Hres.
  rewrite Hfen, Hav, Hfin in Hwp, Hres.
  specialize (Hwp ltac:(lia) HinFlight
                  (proj2 (lookup_fmap_seq _ _ _ _) (conj eq_refl Hlt))
                  (proj2 (lookup_fmap_seq _ _ _ _) (conj eq_refl Hlt))
                  (proj2 (lookup_fmap_seq _ _ _ _) (conj eq_refl Hlt))).
  specialize (Hres ltac:(lia) HinFlight
                  (proj2 (lookup_fmap_seq _ _ _ _) (conj eq_refl Hlt))
                  (proj2 (lookup_fmap_seq _ _ _ _) (conj eq_refl Hlt))
                  (proj2 (lookup_fmap_seq _ _ _ _) (conj eq_refl Hlt))).
  apply wp_elim in Hwp as (result & s' & w' & Heq & si & pi & Hmade & _ & _
    & Hsw & Hss & Hpw & Hps & Hpi & Hs' & Hn & Hsig & Hst).
  apply wp_elim in Hres as (result' & s'' & w'' & Heq' & Hanswer).
  rewrite Heq in Heq'. injection Heq' as <- <- <-.
  exists h, inFlight, result, s', w', si, pi. cbv zeta.
  repeat (split; [done|]). done.
Qed.

Lemma cycle_acquire past s w :
  0 < MAX_FRAMES_IN_FLIGHT ->
  reachable past s w ->
  ∃ h result w',
    let slot := N.to_nat (currentFrame s) in
    inFlightFences s = slot_fence h <$> seq 0 (N.to_nat MAX_FRAMES_IN_FLIGHT) ∧
    imageAvailableSemaphores s
      = slot_available h <$> seq 0 (N.to_nat MAX_FRAMES_IN_FLIGHT) ∧
    (slot < N.to_nat MAX_FRAMES_IN_FLIGHT)%nat ∧
    acquireNextImage s w = Ok result s w' ∧
    made w w' [WaitForFences (slot_fence h slot) true UINT64_MAX;
               AcquireNextImageKHR (swapChain s) UINT64_MAX
                 (slot_available h slot) VK_NULL_HANDLE result] ∧
    signaled w' = {[slot_fence h slot]} ∪ signaled w ∧
    stalls w' = (if decide (slot_fence h slot ∈ signaled w)
                 then stalls w else stalls w ++ [slot_fence h slot]).
Proof.
  intros Hmax Hreach.
  destruct (reachable_cycle_inv _ _ _ Hmax Hreach)
    as (h & Hav & _ & Hfen & Hcf & _ & _ & _).
  assert (N.to_nat (currentFrame s) < N.to_nat MAX_FRAMES_IN_FLIGHT)%nat
    as Hlt by lia.
  pose proof (acquireNextImage_spec s w
                (slot_fence h (N.to_nat (currentFrame s)))
                (slot_available h (N.to_nat (currentFrame s)))) as Hwp.
  rewrite Hfen, Hav in Hwp.
  specialize (Hwp (proj2 (lookup_fmap_seq _ _ _ _) (conj eq_refl Hlt))
                  (proj2 (lookup_fmap_seq _ _ _ _) (conj eq_refl Hlt))).
  apply wp_elim in Hwp as (r & s'' & w'' & Heq & -> & Hmade & _ & Hsig & Hst).
  exists h, r, w''. cbv zeta. repeat (split; [done|]). done.
Qed.

(** X6.  A call of [submitCommandBuffers] with the image index and the
    frame index in range makes exactly these calls, in this order: a wait
    without timeout on the fence held for the image index, if that fence
    is not null, and no wait otherwise; then a reset of the slot's
    in-flight fence, a queue submit with that fence, and a present.  The
    submit waits on the slot's image-available semaphore and signals the
    slot's render-finished semaphore, on which the present waits; the
    present names the object's swap chain and the given image index.
    Afterwards the slot's in-flight fence is the fence held for the image
    index. *)
Theorem submit_synchronisation_chain buffers imageIndex s w :
  MAX_FRAMES_IN_FLIGHT ≠ 0 ->
  (N.to_nat (currentFrame s) < length (imageAvailableSemaphores s))%nat ->
  (N.to_nat (currentFrame s) < length (renderFinishedSemaphores s))%nat ->
  (N.to_nat (currentFrame s) < length (inFlightFences s))%nat ->
  (N.to_nat imageIndex < length (imagesInFlight s))%nat ->
  ∃ held slotFence available finished result s' w' si pi,
    imagesInFlight s !! N.to_nat imageIndex = Some held ∧
    inFlightFences s !! N.to_nat (currentFrame s) = Some slotFence ∧
    imageAvailableSemaphores s !! N.to_nat (currentFrame s) = Some available ∧
    renderFinishedSemaphores s !! N.to_nat (currentFrame s) = Some finished ∧
    submitCommandBuffers buffers imageIndex s w = Ok result s' w' ∧
    made w w' ((if decide (held ≠ VK_NULL_HANDLE)
                then [WaitForFences held true UINT64_MAX] else []) ++
               [ResetFences slotFence; QueueSubmit si slotFence;
                QueuePresentKHR pi result]) ∧
    si_pWaitSemaphores si = [available] ∧
    si_pSignalSemaphores si = [finished] ∧
    pi_pWaitSemaphores pi = [finished] ∧
    pi_pSwapchains pi = [swapChain s] ∧
    pi_pImageIndices pi = [imageIndex] ∧
    imagesInFlight s' !! N.to_nat imageIndex = Some slotFence.
Proof.
  intros Hmax Hla Hlr Hlf Hidx.
  destruct (lookup_lt_is_Some_2 _ _ Hidx) as [x1 H1].
  destruct (lookup_lt_is_Some_2 _ _ Hlf) as [x2 H2].
  destruct (lookup_lt_is_Some_2 _ _ Hla) as [x3 H3].
  destruct (lookup_lt_is_Some_2 _ _ Hlr) as [x4 H4].
  pose proof (submitCommandBuffers_spec buffers imageIndex s w x1 x2 x3 x4
                Hmax H1 H2 H3 H4) as Hwp.
  apply wp_elim in Hwp as (result & s' & w' & Heq & si & pi & Hmade & _ & _
    & Hsw & Hss & Hpw & Hps & Hpi & -> & _).
  eexists x1, x2, x3, x4, result, _, w', si, pi.
  repeat (split; [done|]).
  destruct s. obj_simpl. by apply list_lookup_insert_eq.
Qed.

(** X7.  [submitCommandBuffers] changes nothing of the object but the
    frame index and the fence held for the given image index: the fences
    held for all other image indices, the swap chain, the images and
    views, the depth resources, the framebuffers, the render pass and the
    synchronisation objects are as before, and no handle is created. *)
Theorem submit_changes_only_index_and_frame buffers imageIndex s w :
  MAX_FRAMES_IN_FLIGHT ≠ 0 ->
  (N.to_nat (currentFrame s) < length (imageAvailableSemaphores s))%nat ->
  (N.to_nat (currentFrame s) < length (renderFinishedSemaphores s))%nat ->
  (N.to_nat (currentFrame s) < length (inFlightFences s))%nat ->
  (N.to_nat imageIndex < length (imagesInFlight s))%nat ->
  ∃ result s' w',
    submitCommandBuffers buffers imageIndex s w = Ok result s' w' ∧
    s' = set_currentFrame (currentFrame s')
           (set_imagesInFlight (imagesInFlight s') s) ∧
    length (imagesInFlight s') = length (imagesInFlight s) ∧
    (∀ i, i ≠ N.to_nat imageIndex ->
          imagesInFlight s' !! i = imagesInFlight s !! i) ∧
    next_handle w' = next_handle w.
Proof.
  intros Hmax Hla Hlr Hlf Hidx.
  destruct (lookup_lt_is_Some_2 _ _ Hidx) as [x1 H1].
  destruct (lookup_lt_is_Some_2 _ _ Hlf) as [x2 H2].
  destruct (lookup_lt_is_Some_2 _ _ Hla) as [x3 H3].
  destruct (lookup_lt_is_Some_2 _ _ Hlr) as [x4 H4].
  pose proof (submitCommandBuffers_spec buffers imageIndex s w x1 x2 x3 x4
                Hmax H1 H2 H3 H4) as Hwp.
  apply wp_elim in Hwp as (result & s' & w' & Heq & si & pi & _ & _ & _
    & _ & _ & _ & _ & _ & -> & Hn & _).
  eexists result, _, w'. split; [done|].
  destruct s. obj_simpl. split; [done|].
  split; [by rewrite length_insert|]. split; [|done].
  intros i Hi. by apply list_lookup_insert_ne.
Qed.

(** X8.  In every state of the frame cycle, of two submits in a row
    for the same image index the second begins by waiting, without
    timeout, on the in-flight fence of the slot the first one ran in: the
    fence the first submit reset, handed to the queue with its submission
    and recorded for the image.  Only after that wait does the second
    submit reset the fence of its own slot, submit and present. *)
Theorem resubmit_same_image_waits_on_previous_fence
    past s w buffers1 buffers2 imageIndex :
  0 < MAX_FRAMES_IN_FLIGHT ->
  reachable past s w ->
  (N.to_nat imageIndex < imageCount s)%nat ->
  ∃ held fence result1 s1 w1 si1 pi1 nextFence result2 s2 w2 si2 pi2,
    imagesInFlight s !! N.to_nat imageIndex = Some held ∧
    inFlightFences s !! N.to_nat (currentFrame s) = Some fence ∧
    submitCommandBuffers buffers1 imageIndex s w = Ok result1 s1 w1 ∧
    made w w1 ((if decide (held ≠ VK_NULL_HANDLE)
                then [WaitForFences held true UINT64_MAX] else []) ++
               [ResetFences fence; QueueSubmit si1 fence;
                QueuePresentKHR pi1 result1]) ∧
    fence ≠ VK_NULL_HANDLE ∧
    imagesInFlight s1 !! N.to_nat imageIndex = Some fence ∧
    inFlightFences s1 !! N.to_nat (currentFrame s1) = Some nextFence ∧
    submitCommandBuffers buffers2 imageIndex s1 w1 = Ok result2 s2 w2 ∧
    made w1 w2 [WaitForFences fence true UINT64_MAX;
                ResetFences nextFence; QueueSubmit si2 nextFence;
                QueuePresentKHR pi2 result2].
Proof.
  intros Hmax Hreach Hidx.
  destruct (cycle_submit past s w buffers1 imageIndex Hmax Hreach Hidx)
    as (h & inFlight & r1 & s1 & w1 & si & pi & Hfen & _ & Hlt & Hin & Heq1
        & _ & Hmade1 & _ & _ & _ & _ & _ & Hs1 & _).
  cbv zeta in *.
  pose proof (reach_submit _ _ _ _ _ _ _ _ Hreach Hidx Heq1) as Hreach1.
  assert (imageCount s1 = imageCount s) as Hcount by (subst s1; by destruct s).
  assert (N.to_nat imageIndex < imageCount s1)%nat as Hidx1 by lia.
  destruct (cycle_submit _ s1 w1 buffers2 imageIndex Hmax Hreach1 Hidx1)
    as (h' & inFlight' & r2 & s2 & w2 & si' & pi' & Hfen' & _ & Hlt' & Hin'
        & Heq2 & _ & Hmade2 & _).
  cbv zeta in *.
  set (fence := slot_fence h (N.to_nat (currentFrame s))) in *.
  assert (imagesInFlight s1 !! N.to_nat imageIndex = Some fence) as Hheld.
  { pose proof (lookup_lt_Some _ _ _ Hin) as Hlen.
    subst s1. destruct s. obj_simpl. by apply list_lookup_insert_eq. }
  assert (inFlight' = fence) as ->.
  { rewrite Hheld in Hin'. by injection Hin' as <-. }
  assert (fence ≠ VK_NULL_HANDLE) as Hnz.
  { subst fence. unfold slot_fence, VK_NULL_HANDLE. lia. }
  rewrite decide_True in Hmade2 by done.
  exists inFlight, fence, r1, s1, w1, si, pi,
    (slot_fence h' (N.to_nat (currentFrame s1))), r2, s2, w2, si', pi'.
  split; [done|].
  split; [rewrite Hfen; by apply lookup_fmap_seq|].
  split; [done|]. split; [done|]. split; [done|]. split; [done|].
  split; [rewrite Hfen'; by apply lookup_fmap_seq|].
  split; [done|]. done.
Qed.

(** The value [acquireNextImage] returns is what the platform answered
    to its acquire call. *)
Lemma acquireNextImage_answer s w fence available :
  inFlightFences s !! N.to_nat (currentFrame s) = Some fence ->
  imageAvailableSemaphores s !! N.to_nat (currentFrame s) = Some available ->
  wp acquireNextImage
     (λ result s' w',
        s' = s ∧
        result = acquireAnswer device
                   (calls w ++ [WaitForFences fence true UINT64_MAX]) ∧
        made w w' [WaitForFences fence true UINT64_MAX;
                   AcquireNextImageKHR (swapChain s) UINT64_MAX available
                                       VK_NULL_HANDLE result])
     s w.
Proof.
  intros Hf Ha. unfold acquireNextImage, acquireNextImageKHR.
  repeat wp_step. eapply wp_vec_read; [done|].
  wp_step. apply wp_waitForFences.
  repeat wp_step. eapply wp_vec_read; [done|].
  repeat wp_step.
  split; [done|]. split; [done|]. made_tac.
Qed.

(** X9.  With the frame index in range, [acquireNextImage] waits without
    timeout on the in-flight fence of the current slot and then asks the
    platform for the next image of the object's swap chain, with no
    timeout, the image-available semaphore of the current slot and no
    fence, and returns the platform's answer.  The submit that follows
    uses the same slot: after the wait on the image's fence, if any, it
    resets that same in-flight fence, then hands it to the queue with a
    submission that waits on that same semaphore, and then presents. *)
Theorem acquire_then_submit_share_slot buffers imageIndex s w :
  MAX_FRAMES_IN_FLIGHT ≠ 0 ->
  (N.to_nat (currentFrame s) < length (imageAvailableSemaphores s))%nat ->
  (N.to_nat (currentFrame s) < length (renderFinishedSemaphores s))%nat ->
  (N.to_nat (currentFrame s) < length (inFlightFences s))%nat ->
  (N.to_nat imageIndex < length (imagesInFlight s))%nat ->
  ∃ held fence semaphore answer w1 result s2 w2 si pi,
    imagesInFlight s !! N.to_nat imageIndex = Some held ∧
    inFlightFences s !! N.to_nat (currentFrame s) = Some fence ∧
    imageAvailableSemaphores s !! N.to_nat (currentFrame s) = Some semaphore ∧
    acquireNextImage s w = Ok answer s w1 ∧
    answer = acquireAnswer device (calls w ++ [WaitForFences fence true UINT64_MAX]) ∧
    made w w1 [WaitForFences fence true UINT64_MAX;
               AcquireNextImageKHR (swapChain s) UINT64_MAX semaphore
                                   VK_NULL_HANDLE answer] ∧
    submitCommandBuffers buffers imageIndex s w1 = Ok result s2 w2 ∧
    made w1 w2 ((if decide (held ≠ VK_NULL_HANDLE)
                 then [WaitForFences held true UINT64_MAX] else []) ++
                [ResetFences fence; QueueSubmit si fence;
                 QueuePresentKHR pi result]) ∧
    si_pWaitSemaphores si = [semaphore].
Proof.
  intros Hmax Hla Hlr Hlf Hidx.
  destruct (lookup_lt_is_Some_2 _ _ Hidx) as [x1 H1].
  destruct (lookup_lt_is_Some_2 _ _ Hlf) as [x2 H2].
  destruct (lookup_lt_is_Some_2 _ _ Hla) as [x3 H3].
  destruct (lookup_lt_is_Some_2 _ _ Hlr) as [x4 H4].
  pose proof (acquireNextImage_answer s w x2 x3 H2 H3) as Hacq.
  apply wp_elim in Hacq as (answer & s1 & w1 & Heq1 & -> & Hans & Hmade1).
  pose proof (submitCommandBuffers_spec buffers imageIndex s w1 x1 x2 x3 x4
                Hmax H1 H2 H3 H4) as Hwp.
  apply wp_elim in Hwp as (result & s' & w' & Heq & si & pi & Hmade & _ & _
    & Hsw & _).
  exists x1, x2, x3, answer, w1, result, s', w', si, pi.
  repeat (split; [done|]). done.
Qed.

Lemma init_currentFrame s w s' w' :
  init s w = Ok () s' w' -> currentFrame s' = currentFrame s.
Proof.
  intros Hinit.
  pose proof (init_spec s w (init_returns_formats _ _ _ _ Hinit)) as Hwp.
  apply wp_elim in Hwp as ([] & s'' & w'' & Heq & Hpost).
  rewrite Hinit in Heq. injection Heq as <- <-.
  by destruct Hpost as (h & line & ci & images & rest & _ & _ & _ & _ & _ & _
    & _ & _ & _ & _ & _ & Hcf & _).
Qed.

(** X10.  On a platform whose every present succeeds, the frame index
    counts the submits modulo [MAX_FRAMES_IN_FLIGHT]: after [n] submits it
    is [n mod MAX_FRAMES_IN_FLIGHT], and the submits were made in the
    slots 0, 1, ..., [MAX_FRAMES_IN_FLIGHT - 1], 0, ... in turn, whatever
    image indices they were given and however many acquires were made. *)
Theorem frame_index_cycles past s w :
  (∀ before pi, presentAnswer device before pi = eSuccess) ->
  0 < MAX_FRAMES_IN_FLIGHT < 2 ^ 31 ->
  reachable past s w ->
  currentFrame s = N.of_nat (length past) mod MAX_FRAMES_IN_FLIGHT ∧
  past.*2 = (λ n, N.of_nat n mod MAX_FRAMES_IN_FLIGHT) <$> seq 0 (length past).
Proof.
  intros Hok [Hpos Hint] Hreach.
  induction Hreach as
    [extent w s0 w0 Hctor
    |extent previous w s0 w0 Hctor
    |past s w result s' w' Hreach IH Hacq
    |past s w buffers imageIndex result s' w' Hreach IH Hidx Hsub].
  - apply init_currentFrame in Hctor. simpl in *. rewrite Hctor.
    split; [|done]. symmetry. apply N.mod_small. lia.
  - unfold LveSwapChain_ctor_previous, mbind, M_bind in Hctor.
    destruct (init (fresh_object extent previous) w) as [[] s1 w1|] eqn:Hinit;
      [|done].
    unfold modify in Hctor. injection Hctor as <- <-.
    apply init_currentFrame in Hinit. simpl in *.
    split; [|done].
    transitivity (currentFrame s1); [by destruct s1|].
    rewrite Hinit. symmetry. apply N.mod_small. lia.
  - destruct (cycle_acquire past s w Hpos Hreach)
      as (h & r & w'' & _ & _ & _ & Heq & _).
    cbv zeta in Heq. rewrite Hacq in Heq. by injection Heq as -> -> ->.
  - destruct IH as [IHcf IHpast].
    destruct (cycle_submit past s w buffers imageIndex Hpos Hreach Hidx)
      as (h & inFlight & r & s1 & w1 & si & pi & _ & _ & Hlt & _ & Heq
          & (before & pi' & Hanswer) & _ & _ & _ & _ & _ & _ & Hs1 & _).
    cbv zeta in *. rewrite Hsub in Heq. injection Heq as -> -> ->.
    rewrite Hok in Hanswer. subst r.
    rewrite decide_True in Hs1 by done.
    rewrite length_app, fmap_app. simpl length.
    rewrite Nat.add_1_r, seq_S, fmap_app, <- IHpast. simpl.
    rewrite <- IHcf. split; [|done].
    subst s1. destruct s. obj_simpl.
    assert (2 ^ 31 < 2 ^ 64) by (by vm_compute).
    unfold usize. rewrite (N.mod_small (currentFrame0 + 1)) by lia.
    rewrite IHcf. rewrite Nat2N.inj_succ, <- N.add_1_r.
    apply N.Div0.add_mod_idemp_l.
Qed.

(** X11.  In every state of the frame cycle, when the present of a
    submit does not succeed the frame index stays where it was, so the
    acquire that follows runs in the same slot: it waits, without timeout,
    on the very in-flight fence this submit reset and handed to the queue,
    and then acquires with the image-available semaphore this submit's
    submission waited on. *)
Theorem acquire_after_failed_present_same_slot
    past s w buffers imageIndex result s1 w1 :
  0 < MAX_FRAMES_IN_FLIGHT ->
  reachable past s w ->
  (N.to_nat imageIndex < imageCount s)%nat ->
  submitCommandBuffers buffers imageIndex s w = Ok result s1 w1 ->
  result ≠ eSuccess ->
  ∃ held fence semaphore si pi answer w2,
    imagesInFlight s !! N.to_nat imageIndex = Some held ∧
    inFlightFences s !! N.to_nat (currentFrame s) = Some fence ∧
    imageAvailableSemaphores s !! N.to_nat (currentFrame s) = Some semaphore ∧
    made w w1 ((if decide (held ≠ VK_NULL_HANDLE)
                then [WaitForFences held true UINT64_MAX] else []) ++
               [ResetFences fence; QueueSubmit si fence;
                QueuePresentKHR pi result]) ∧
    si_pWaitSemaphores si = [semaphore] ∧
    currentFrame s1 = currentFrame s ∧
    acquireNextImage s1 w1 = Ok answer s1 w2 ∧
    made w1 w2 [WaitForFences fence true UINT64_MAX;
                AcquireNextImageKHR (swapChain s) UINT64_MAX semaphore
                                    VK_NULL_HANDLE answer].
Proof.
  intros Hmax Hreach Hidx Hsub Hfail.
  destruct (cycle_submit past s w buffers imageIndex Hmax Hreach Hidx)
    as (h & inFlight & r & s' & w' & si & pi & Hfen & Hav & Hlt & Hin & Heq
        & _ & Hmade & Hsw & _ & _ & _ & _ & Hs1 & _).
  cbv zeta in *. rewrite Hsub in Heq. injection Heq as <- <- <-.
  rewrite decide_False in Hs1 by done.
  pose proof (reach_submit _ _ _ _ _ _ _ _ Hreach Hidx Hsub) as Hreach1.
  assert (currentFrame s1 = currentFrame s) as Hcf
    by (subst s1; by destruct s).
  assert (inFlightFences s1 = inFlightFences s) as Hsame
    by (subst s1; by destruct s).
  assert (imageAvailableSemaphores s1 = imageAvailableSemaphores s) as Hsame'
    by (subst s1; by destruct s).
  assert (swapChain s1 = swapChain s) as Hsc
    by (subst s1; by destruct s).
  destruct (cycle_acquire _ s1 w1 Hmax Hreach1)
    as (h' & answer & w2 & Hfen' & Hav' & _ & Hacq & Hmade2 & _).
  cbv zeta in *.
  set (fence := slot_fence h (N.to_nat (currentFrame s))) in *.
  set (semaphore := slot_available h (N.to_nat (currentFrame s))) in *.
  assert (slot_fence h' (N.to_nat (currentFrame s1)) = fence) as Hf.
  { assert (inFlightFences s1 !! N.to_nat (currentFrame s)
            = Some (slot_fence h' (N.to_nat (currentFrame s)))) as H1
      by (rewrite Hfen'; by apply lookup_fmap_seq).
    rewrite Hsame, Hfen in H1. apply lookup_fmap_seq in H1 as [H1 _].
    rewrite Hcf. done. }
  assert (slot_available h' (N.to_nat (currentFrame s1)) = semaphore) as Ha.
  { assert (imageAvailableSemaphores s1 !! N.to_nat (currentFrame s)
            = Some (slot_available h' (N.to_nat (currentFrame s)))) as H1
      by (rewrite Hav'; by apply lookup_fmap_seq).
    rewrite Hsame', Hav in H1. apply lookup_fmap_seq in H1 as [H1 _].
    rewrite Hcf. done. }
  rewrite Hf, Ha, Hsc in Hmade2.
  exists inFlight, fence, semaphore, si, pi, answer, w2.
  split; [done|].
  split; [rewrite Hfen; by apply lookup_fmap_seq|].
  split; [rewrite Hav; by apply lookup_fmap_seq|].
  done.
Qed.

Lemma take_insert_S (l : list handle) i x :
  (i < length l)%nat -> take (S i) (<[i:=x]> l) = take i l ++ [x].
Proof.
  intros Hi. rewrite (take_S_r _ _ x); [|by apply list_lookup_insert_eq].
  by rewrite take_insert_ge.
Qed.

Lemma zip_snoc {A B} (l : list A) (k : list B) a b :
  length l = length k -> zip (l ++ [a]) (k ++ [b]) = zip l k ++ [(a, b)].
Proof. intros Hlen. by rewrite zip_with_app. Qed.

(** [createImageViews] makes one view per swap chain image. *)
Lemma createImageViews_exact s w :
  wp createImageViews
     (λ _ s' w', ∃ views,
        s' = set_swapChainImageViews views s ∧
        length views = length (swapChainImages s) ∧
        made w w' (view_calls (swapChainImageFormat s) (swapChainImages s)
                              views))
     s w.
Proof.
  unfold createImageViews. destruct s. obj_simpl.
  repeat wp_step.
  set (n := length swapChainImages0).
  eapply wp_mono.
  - apply (wp_for_range n _
      (λ i s' w', ∃ views,
         s' = mkLveSwapChain swapChainImageFormat0 swapChainDepthFormat0
                swapChainExtent0 swapChainFramebuffers0 renderPass0
                depthImages0 depthImageMemorys0 depthImageViews0
                swapChainImages0 views windowExtent0 swapChain0 oldSwapChain0
                imageAvailableSemaphores0 renderFinishedSemaphores0
                inFlightFences0 imagesInFlight0 currentFrame0 ∧
         length views = n ∧
         made w w' (view_calls swapChainImageFormat0 (take i swapChainImages0)
                               (take i views)))).
    + eexists. split; [done|]. split; [by rewrite length_resize|].
      apply made_refl.
    + intros i s' w' Hi (views & -> & Hlen & Hmade).
      destruct (lookup_lt_is_Some_2 swapChainImages0 i) as [img Himg]; [done|].
      wp_step. eapply wp_vec_read; [exact Himg|].
      unfold createImageView. repeat wp_step.
      apply wp_vec_write; [obj_simpl; lia|]. obj_simpl.
      eexists. split; [done|]. split; [by rewrite length_insert|].
      rewrite take_insert_S by lia. rewrite (take_S_r _ _ _ Himg).
      unfold view_calls. rewrite zip_with_app.
      2:{ rewrite !length_take. lia. }
      simpl. unfold view_calls in Hmade. made_tac.
  - cbv beta. intros _ s' w' (views & -> & Hlen & Hmade).
    exists views. split; [done|]. split; [done|].
    by rewrite !take_ge in Hmade by lia.
Qed.

(** [createDepthResources] makes one image with its memory, and one
    view of that image, per swap chain image. *)
Lemma createDepthResources_exact s w :
  wp createDepthResources
     (λ _ s' w', ∃ images memorys views,
        s' = set_depthImageViews views
               (set_depthImageMemorys memorys
                  (set_depthImages images
                     (set_swapChainDepthFormat findDepthFormat s))) ∧
        length images = imageCount s ∧
        length memorys = imageCount s ∧
        length views = imageCount s ∧
        made w w' (depth_calls findDepthFormat (swapChainExtent s)
                               images memorys views))
     s w.
Proof.
  unfold createDepthResources. destruct s. obj_simpl.
  repeat wp_step.
  rewrite length_resize.
  set (n := length swapChainImages0).
  eapply wp_mono.
  - apply (wp_for_range n _
      (λ i s' w', ∃ images memorys views,
         s' = mkLveSwapChain swapChainImageFormat0 findDepthFormat
                swapChainExtent0 swapChainFramebuffers0 renderPass0
                images memorys views swapChainImages0 swapChainImageViews0
                windowExtent0 swapChain0 oldSwapChain0
                imageAvailableSemaphores0 renderFinishedSemaphores0
                inFlightFences0 imagesInFlight0 currentFrame0 ∧
         length images = n ∧ length memorys = n ∧ length views = n ∧
         made w w' (depth_calls findDepthFormat swapChainExtent0
                      (take i images) (take i memorys) (take i views)))).
    + eexists _, _, _. split; [done|]. rewrite !length_resize.
      repeat split. apply made_refl.
    + intros i s' w' Hi (images & memorys & views & -> & Hl1 & Hl2 & Hl3 & Hmade).
      destruct (lookup_lt_is_Some_2 images i) as [x1 Hx1]; [lia|].
      destruct (lookup_lt_is_Some_2 memorys i) as [x2 Hx2]; [lia|].
      wp_step. eapply wp_vec_read; [exact Hx1|].
      wp_step. eapply wp_vec_read; [exact Hx2|].
      unfold createImageWithInfo, createImageView.
      repeat wp_step.
      apply wp_vec_write; [obj_simpl; lia|]. obj_simpl.
      wp_step. apply wp_vec_write; [obj_simpl; lia|]. obj_simpl.
      wp_step.
      eapply wp_vec_read.
      { obj_simpl. apply list_lookup_insert_eq. lia. }
      repeat wp_step.
      apply wp_vec_write; [obj_simpl; lia|]. obj_simpl.
      eexists _, _, _. split; [done|].
      rewrite !length_insert.
      repeat (split; [done|]).
      rewrite !take_insert_S by lia.
      unfold depth_calls in *.
      rewrite !zip_snoc, bind_app by (rewrite ?length_zip_with, !length_take; lia).
      simpl. made_tac.
  - cbv beta. intros _ s' w' (images & memorys & views & -> & Hl1 & Hl2 & Hl3 & Hmade).
    exists images, memorys, views. repeat (split; [done|]).
    by rewrite !take_ge in Hmade by lia.
Qed.

(** [createFramebuffers] makes one framebuffer per swap chain image, on
    the colour view and the depth view of the same index. *)
Lemma createFramebuffers_exact s w :
  length (swapChainImageViews s) = imageCount s ->
  length (depthImageViews s) = imageCount s ->
  wp createFramebuffers
     (λ _ s' w', ∃ framebuffers,
        s' = set_swapChainFramebuffers framebuffers s ∧
        length framebuffers = imageCount s ∧
        made w w' (framebuffer_calls (renderPass s) (swapChainExtent s)
                     (swapChainImageViews s) (depthImageViews s)
                     framebuffers))
     s w.
Proof.
  unfold createFramebuffers. destruct s. obj_simpl. intros Hv Hd.
  repeat wp_step.
  set (n := length swapChainImages0) in *.
  eapply wp_mono.
  - apply (wp_for_range n _
      (λ i s' w', ∃ framebuffers,
         s' = mkLveSwapChain swapChainImageFormat0 swapChainDepthFormat0
                swapChainExtent0 framebuffers renderPass0
                depthImages0 depthImageMemorys0 depthImageViews0
                swapChainImages0 swapChainImageViews0
                windowExtent0 swapChain0 oldSwapChain0
                imageAvailableSemaphores0 renderFinishedSemaphores0
                inFlightFences0 imagesInFlight0 currentFrame0 ∧
         length framebuffers = n ∧
         made w w' (framebuffer_calls renderPass0 swapChainExtent0
                      (take i swapChainImageViews0) (take i depthImageViews0)
                      (take i framebuffers)))).
    + eexists. split; [done|]. rewrite length_resize.
      split; [done|]. apply made_refl.
    + intros i s' w' Hi (framebuffers & -> & Hl & Hmade).
      destruct (lookup_lt_is_Some_2 swapChainImageViews0 i) as [x1 Hx1]; [lia|].
      destruct (lookup_lt_is_Some_2 depthImageViews0 i) as [x2 Hx2]; [lia|].
      wp_step. eapply wp_vec_read; [exact Hx1|].
      wp_step. eapply wp_vec_read; [exact Hx2|].
      unfold createFramebuffer.
      repeat wp_step.
      apply wp_vec_write; [obj_simpl; lia|]. obj_simpl.
      eexists. split; [done|]. rewrite length_insert. split; [done|].
      rewrite take_insert_S by lia.
      rewrite (take_S_r _ _ _ Hx1), (take_S_r _ _ _ Hx2).
      unfold framebuffer_calls in *.
      rewrite zip_snoc by (rewrite !length_take; lia).
      rewrite zip_with_app by (rewrite length_zip_with, !length_take; lia).
      simpl. made_tac.
  - cbv beta. intros _ s' w' (framebuffers & -> & Hl & Hmade).
    exists framebuffers. split; [done|]. split; [done|].
    by rewrite !take_ge in Hmade by lia.
Qed.

Lemma createRenderPass_exact s w :
  wp createRenderPass
     (λ _ s' w', ∃ rp ci,
        s' = set_renderPass rp s ∧
        made w w' [CreateRenderPass ci rp] ∧
        ad_format <$> rpi_pAttachments ci
          = [swapChainImageFormat s; findDepthFormat])
     s w.
Proof.
  unfold createRenderPass, createRenderPassKHR.
  repeat wp_step. eexists _, _. split; [done|]. split; [done|]. done.
Qed.

Lemma slot_calls_sync_calls h l :
  l ≫= slot_calls h
  = sync_calls (slot_available h <$> l) (slot_finished h <$> l)
               (slot_fence h <$> l).
Proof.
  induction l as [|i l IH]; [done|].
  change ((i :: l) ≫= slot_calls h) with (slot_calls h i ++ (l ≫= slot_calls h)).
  by rewrite IH.
Qed.

(** The swap chain create info, member by member. *)
Lemma createSwapChain_exact s w :
  let support := getSwapChainSupport device (calls w) in
  let indices := findPhysicalQueueFamilies device in
  let concurrent :=
    bool_decide (graphicsFamily indices ≠ presentFamily indices) in
  formats support ≠ [] ->
  wp createSwapChain
     (λ _ s' w', ∃ surfaceFormat presentMode extent line sc images,
        chooseSwapSurfaceFormat (formats support) = Some surfaceFormat ∧
        presentMode = (if has_mailbox (presentModes support)
                       then eMailbox else eFifo) ∧
        chooseSwapExtent (capabilities support) s w = Ok extent s w ∧
        sc = N.succ (next_handle w) ∧
        s' = set_swapChainExtent extent
               (set_swapChainImageFormat (format surfaceFormat)
                  (set_swapChainImages images (set_swapChain sc s))) ∧
        made w w'
          [StdCout line;
           CreateSwapchainKHR
             {| sci_surface := surface device;
                sci_minImageCount :=
                  requestedImageCount (capabilities support);
                sci_imageFormat := format surfaceFormat;
                sci_imageColorSpace := colorSpace surfaceFormat;
                sci_imageExtent := extent;
                sci_imageArrayLayers := 1;
                sci_imageUsage := eImageUsageColorAttachment;
                sci_imageSharingMode :=
                  if concurrent then eConcurrent else eExclusive;
                sci_queueFamilyIndexCount := if concurrent then 2 else 0;
                sci_pQueueFamilyIndices :=
                  if concurrent
                  then Some [graphicsFamily indices; presentFamily indices]
                  else None;
                sci_preTransform := currentTransform (capabilities support);
                sci_compositeAlpha := eCompositeAlphaOpaque;
                sci_presentMode := presentMode;
                sci_clipped := true;
                sci_oldSwapchain :=
                  match oldSwapChain s with
                  | None => VK_NULL_HANDLE
                  | Some previous => swapChain previous
                  end |} sc;
           GetSwapchainImagesKHR sc images])
     s w.
Proof.
  intros support indices concurrent Hne.
  unfold createSwapChain. destruct s. obj_simpl.
  repeat wp_step. fold support.
  destruct (chooseSwapSurfaceFormat_is_Some _ Hne) as [surfaceFormat Hf].
  rewrite Hf.
  wp_step. unfold chooseSwapPresentMode, cout.
  destruct (has_mailbox (presentModes support)).
  - repeat wp_step. unfold chooseSwapExtent.
    destruct (decide (width (currentExtent (capabilities support)) ≠ UINT32_MAX)).
    + unfold createSwapchainKHR, getSwapchainImagesKHR. repeat wp_step.
      eexists _, _, _, _, _, _. split; [done|]. split; [done|].
      split; [reflexivity|]. split; [reflexivity|].
      split; [reflexivity|]. made_tac.
    + unfold createSwapchainKHR, getSwapchainImagesKHR. repeat wp_step.
      eexists _, _, _, _, _, _. split; [done|]. split; [done|].
      split; [reflexivity|]. split; [reflexivity|].
      split; [reflexivity|]. made_tac.
  - repeat wp_step. unfold chooseSwapExtent.
    destruct (decide (width (currentExtent (capabilities support)) ≠ UINT32_MAX)).
    + unfold createSwapchainKHR, getSwapchainImagesKHR. repeat wp_step.
      eexists _, _, _, _, _, _. split; [done|]. split; [done|].
      split; [reflexivity|]. split; [reflexivity|].
      split; [reflexivity|]. made_tac.
    + unfold createSwapchainKHR, getSwapchainImagesKHR. repeat wp_step.
      eexists _, _, _, _, _, _. split; [done|]. split; [done|].
      split; [reflexivity|]. split; [reflexivity|].
      split; [reflexivity|]. made_tac.
Qed.

Lemma init_exact s w :
  let slots := N.to_nat MAX_FRAMES_IN_FLIGHT in
  formats (getSwapChainSupport device (calls w)) ≠ [] ->
  wp init
     (λ _ s' w', ∃ line ci rpci,
        made w w' (init_calls s' line ci rpci) ∧
        swapChain s' = N.succ (next_handle w) ∧
        length (swapChainImageViews s') = imageCount s' ∧
        length (depthImages s') = imageCount s' ∧
        length (depthImageMemorys s') = imageCount s' ∧
        length (depthImageViews s') = imageCount s' ∧
        length (swapChainFramebuffers s') = imageCount s' ∧
        length (imageAvailableSemaphores s') = slots ∧
        length (renderFinishedSemaphores s') = slots ∧
        length (inFlightFences s') = slots ∧
        sci_imageFormat ci = swapChainImageFormat s' ∧
        sci_imageExtent ci = swapChainExtent s' ∧
        sci_oldSwapchain ci = match oldSwapChain s with
                              | None => VK_NULL_HANDLE
                              | Some previous => swapChain previous
                              end ∧
        ad_format <$> rpi_pAttachments rpci
          = [swapChainImageFormat s'; swapChainDepthFormat s'])
     s w.
Proof.
  intros slots Hne. unfold init.
  wp_step. eapply wp_mono; [by apply createSwapChain_exact|].
  intros _ s1 w1 (sf & pm & ext & line & sc & images & _ & _ & _ & -> & -> & Hm1).
  wp_step. eapply wp_mono; [apply createImageViews_exact|].
  intros _ s2 w2 (views & -> & Hl2 & Hm2).
  wp_step. eapply wp_mono; [apply createRenderPass_exact|].
  intros _ s3 w3 (rp & rpci & -> & Hm3 & Hfmt).
  wp_step. eapply wp_mono; [apply createDepthResources_exact|].
  intros _ s4 w4 (dimgs & dmems & dviews & -> & Hd1 & Hd2 & Hd3 & Hm4).
  wp_step. eapply wp_mono.
  { apply createFramebuffers_exact; destruct s; obj_simpl; lia. }
  intros _ s5 w5 (fbs & -> & Hl5 & Hm5).
  eapply wp_mono; [apply createSyncObjects_spec|].
  intros _ s6 w6 (-> & Hm6 & _).
  rewrite slot_calls_sync_calls in Hm6.
  destruct s. obj_simpl. unfold init_calls. obj_simpl.
  eexists line, _, rpci.
  split.
  { pose proof (made_trans _ _ _ _ _ Hm1
      (made_trans _ _ _ _ _ Hm2
        (made_trans _ _ _ _ _ Hm3
          (made_trans _ _ _ _ _ Hm4 (made_trans _ _ _ _ _ Hm5 Hm6))))) as H.
    exact H. }
  rewrite !length_fmap, !length_seq.
  repeat (split; [first [done|reflexivity]|]). done.
Qed.

(** X12.  On a device that reports at least one surface format, [init]
    returns after exactly these calls, in this order: the swap chain create
    call and the query of its images; one colour view per swap chain
    image, of that image and in the swap chain's format; the render pass,
    whose two attachments have the swap chain's image format and the depth
    format; per swap chain image a depth image with its memory and a depth
    view of that image, in the depth format and the swap chain's extent;
    per swap chain image a framebuffer on that render pass, on the colour
    view and the depth view of the same index; per frame slot two
    semaphores and a fence created signaled.  The object holds exactly the
    handles these calls returned, and the format and extent it records are
    the ones asked of the platform. *)
Theorem init_call_sequence s w :
  formats (getSwapChainSupport device (calls w)) ≠ [] ->
  ∃ s' w' line ci rpci,
    init s w = Ok () s' w' ∧
    made w w' (init_calls s' line ci rpci) ∧
    sci_imageFormat ci = swapChainImageFormat s' ∧
    sci_imageExtent ci = swapChainExtent s' ∧
    ad_format <$> rpi_pAttachments rpci
      = [swapChainImageFormat s'; swapChainDepthFormat s'] ∧
    length (swapChainImageViews s') = imageCount s' ∧
    length (depthImages s') = imageCount s' ∧
    length (depthImageMemorys s') = imageCount s' ∧
    length (depthImageViews s') = imageCount s' ∧
    length (swapChainFramebuffers s') = imageCount s' ∧
    length (imageAvailableSemaphores s') = N.to_nat MAX_FRAMES_IN_FLIGHT ∧
    length (renderFinishedSemaphores s') = N.to_nat MAX_FRAMES_IN_FLIGHT ∧
    length (inFlightFences s') = N.to_nat MAX_FRAMES_IN_FLIGHT.
Proof.
  intros Hne.
  pose proof (init_exact s w Hne) as Hwp.
  apply wp_elim in Hwp as ([] & s' & w' & Heq & line & ci & rpci & Hmade & _
    & Hl1 & Hl2 & Hl3 & Hl4 & Hl5 & Hl6 & Hl7 & Hl8 & Hfmt & Hext & _ & Hrp).
  exists s', w', line, ci, rpci. repeat (split; [done|]). done.
Qed.

(** X13.  The swap chain create info of [createSwapChain]: the image
    format and colour space are those of the chosen surface format, the
    present mode is mailbox when available and FIFO otherwise, the extent
    is the one [chooseSwapExtent] gives; the images are shared
    concurrently between the two queue families, both named, when the
    graphics and the present family differ, and owned exclusively, with no
    family named, when they are the same.  The object records the new
    handle, the images the platform returns for it, and the format and the
    extent of the create info. *)
Theorem createSwapChain_create_info s w :
  let support := getSwapChainSupport device (calls w) in
  let indices := findPhysicalQueueFamilies device in
  formats support ≠ [] ->
  ∃ s' w' line ci sc images chosen,
    createSwapChain s w = Ok () s' w' ∧
    made w w' [StdCout line; CreateSwapchainKHR ci sc;
               GetSwapchainImagesKHR sc images] ∧
    chooseSwapSurfaceFormat (formats support) = Some chosen ∧
    sci_imageFormat ci = format chosen ∧
    sci_imageColorSpace ci = colorSpace chosen ∧
    (eMailbox ∈ presentModes support -> sci_presentMode ci = eMailbox) ∧
    (eMailbox ∉ presentModes support -> sci_presentMode ci = eFifo) ∧
    chooseSwapExtent (capabilities support) s w
      = Ok (sci_imageExtent ci) s w ∧
    (graphicsFamily indices ≠ presentFamily indices ->
     sci_imageSharingMode ci = eConcurrent ∧
     sci_queueFamilyIndexCount ci = 2 ∧
     sci_pQueueFamilyIndices ci
       = Some [graphicsFamily indices; presentFamily indices]) ∧
    (graphicsFamily indices = presentFamily indices ->
     sci_imageSharingMode ci = eExclusive ∧
     sci_queueFamilyIndexCount ci = 0 ∧
     sci_pQueueFamilyIndices ci = None) ∧
    s' = set_swapChainExtent (sci_imageExtent ci)
           (set_swapChainImageFormat (sci_imageFormat ci)
              (set_swapChainImages images (set_swapChain sc s))).
Proof.
  intros support indices Hne.
  pose proof (createSwapChain_exact s w Hne) as Hwp.
  apply wp_elim in Hwp as ([] & s' & w' & Heq & sf & pm & ext & line & sc
    & images & Hsf & Hpm & Hext & _ & Hs' & Hmade).
  eexists s', w', line, _, sc, images, sf.
  split; [done|]. split; [exact Hmade|]. split; [done|].
  cbn [sci_imageFormat sci_imageColorSpace sci_presentMode sci_imageExtent
       sci_imageSharingMode sci_queueFamilyIndexCount sci_pQueueFamilyIndices].
  fold support indices.
  split; [done|]. split; [done|].
  split.
  { intros Hin. apply has_mailbox_elem in Hin.
    subst support. by rewrite Hpm, Hin. }
  split.
  { intros Hn. rewrite Hpm. subst support.
    destruct (has_mailbox _) eqn:Hm; [|done].
    apply has_mailbox_elem in Hm. by destruct Hn. }
  split; [done|].
  split.
  { intros Hd. by rewrite bool_decide_eq_true_2. }
  split; [|done].
  intros Hsame. rewrite bool_decide_eq_false_2; [done|]. by intros Hd.
Qed.

Lemma squash_block (c : Category) l rest :
  l ≠ [] -> Forall (eq c) l -> head (squash rest) ≠ Some c ->
  squash (l ++ rest) = c :: squash rest.
Proof.
  intros Hne Hall Hhead. induction Hall as [|x l <- Hall IH]; [done|].
  destruct l as [|y l].
  - simpl. destruct (squash rest) as [|c' rest']; [done|].
    rewrite decide_False; [done|]. intros ->. by apply Hhead.
  - simpl in *. rewrite IH by done. by rewrite decide_True.
Qed.

Lemma squash_cons_block (c c' : Category) r l rest :
  l ≠ [] -> Forall (eq c) l -> c ≠ c' -> squash rest = c' :: r ->
  squash (l ++ rest) = c :: c' :: r.
Proof.
  intros Hne Hall Hc Hrest.
  rewrite (squash_block c); [by rewrite Hrest|done..|].
  rewrite Hrest. simpl. by intros [= ->].
Qed.

Lemma squash_single (c : Category) l :
  l ≠ [] -> Forall (eq c) l -> squash l = [c].
Proof.
  intros Hne Hall. rewrite <- (app_nil_r l).
  by rewrite (squash_block c).
Qed.

Lemma category_view_calls fmt images views :
  Forall (eq CatViews) (omap created_category (view_calls fmt images views)).
Proof.
  unfold view_calls. revert views.
  induction images as [|image images IH]; intros [|view views]; simpl;
    try constructor; [done|apply IH].
Qed.

Lemma category_depth_calls fmt extent images memorys views :
  Forall (eq CatDepth)
         (omap created_category (depth_calls fmt extent images memorys views)).
Proof.
  unfold depth_calls. revert memorys views.
  induction images as [|image images IH]; intros [|memory memorys] [|view views];
    simpl; try constructor; [done|].
  constructor; [done|]. apply IH.
Qed.

Lemma category_framebuffer_calls rp extent colorViews depthViews framebuffers :
  Forall (eq CatFramebuffers)
         (omap created_category
               (framebuffer_calls rp extent colorViews depthViews framebuffers)).
Proof.
  unfold framebuffer_calls. revert depthViews framebuffers.
  induction colorViews as [|cv colorViews IH];
    intros [|dv depthViews] [|fb framebuffers]; simpl;
    try constructor; [done|apply IH].
Qed.

Lemma category_sync_calls available finished fences :
  Forall (eq CatSync)
         (omap created_category (sync_calls available finished fences)).
Proof.
  unfold sync_calls. revert finished fences.
  induction available as [|a available IH];
    intros [|f finished] [|fence fences]; simpl; try constructor; [done|].
  constructor; [done|]. constructor; [done|]. apply IH.
Qed.

Lemma omap_nonempty_view_calls fmt images views :
  images ≠ [] -> length views = length images ->
  omap created_category (view_calls fmt images views) ≠ [].
Proof. by destruct images, views. Qed.

Lemma omap_nonempty_depth_calls fmt extent images memorys views :
  images ≠ [] -> length memorys = length images ->
  length views = length images ->
  omap created_category (depth_calls fmt extent images memorys views) ≠ [].
Proof. by destruct images, memorys, views. Qed.

Lemma omap_nonempty_framebuffer_calls rp extent colorViews depthViews fbs :
  colorViews ≠ [] -> length depthViews = length colorViews ->
  length fbs = length colorViews ->
  omap created_category
       (framebuffer_calls rp extent colorViews depthViews fbs) ≠ [].
Proof. by destruct colorViews, depthViews, fbs. Qed.

Lemma omap_nonempty_sync_calls available finished fences :
  available ≠ [] -> length finished = length available ->
  length fences = length available ->
  omap created_category (sync_calls available finished fences) ≠ [].
Proof. by destruct available, finished, fences. Qed.

(** X14.  Whenever the swap chain has at least one image and there is at
    least one frame slot, the calls of [init] create the resource
    categories in the order swap chain, colour views, render pass, depth
    resources, framebuffers, synchronisation objects, each category in one
    run. *)
Theorem init_creation_order s w :
  formats (getSwapChainSupport device (calls w)) ≠ [] ->
  0 < MAX_FRAMES_IN_FLIGHT ->
  ∃ s' w' tr,
    init s w = Ok () s' w' ∧
    made w w' tr ∧
    (imageCount s' ≠ 0%nat ->
     creation_order tr
     = [CatSwapChain; CatViews; CatRenderPass; CatDepth; CatFramebuffers;
        CatSync]).
Proof.
  intros Hne Hmax.
  pose proof (init_exact s w Hne) as Hwp.
  apply wp_elim in Hwp as ([] & s' & w' & Heq & line & ci & rpci & Hmade & _
    & Hl1 & Hl2 & Hl3 & Hl4 & Hl5 & Hl6 & Hl7 & Hl8 & _).
  exists s', w', (init_calls s' line ci rpci). split; [done|]. split; [done|].
  intros Himages. unfold imageCount in *.
  assert (swapChainImages s' ≠ []) as Hi by (by destruct (swapChainImages s')).
  assert (swapChainImageViews s' ≠ []) as Hv
    by (destruct (swapChainImageViews s'); simpl in *; [lia|done]).
  assert (imageAvailableSemaphores s' ≠ []) as Ha
    by (destruct (imageAvailableSemaphores s'); simpl in *; [lia|done]).
  unfold creation_order, init_calls.
  rewrite !omap_app.
  apply squash_cons_block; [done|by repeat constructor|done|].
  apply squash_cons_block;
    [apply omap_nonempty_view_calls; [done|lia]
    |apply category_view_calls|done|].
  apply squash_cons_block; [done|by repeat constructor|done|].
  apply squash_cons_block;
    [apply omap_nonempty_depth_calls; [destruct (depthImages s'); simpl in *; [lia|done]|lia|lia]
    |apply category_depth_calls|done|].
  apply squash_cons_block;
    [apply omap_nonempty_framebuffer_calls; [done|lia|lia]
    |apply category_framebuffer_calls|done|].
  apply squash_single;
    [apply omap_nonempty_sync_calls; [done|lia|lia]
    |apply category_sync_calls].
Qed.

Lemma created_handles_app tr1 tr2 :
  created_handles (tr1 ++ tr2) = created_handles tr1 ++ created_handles tr2.
Proof. apply bind_app. Qed.

Lemma released_handles_app tr1 tr2 :
  released_handles (tr1 ++ tr2) = released_handles tr1 ++ released_handles tr2.
Proof. apply bind_app. Qed.

Lemma created_view_calls fmt images views :
  length views = length images ->
  created_handles (view_calls fmt images views) = (KImageView,.) <$> views.
Proof.
  unfold view_calls. revert views.
  induction images as [|image images IH]; intros [|view views] Hlen;
    try done.
  simpl in *. f_equal. apply IH. lia.
Qed.

Lemma created_depth_calls fmt extent images memorys views :
  length memorys = length images -> length views = length images ->
  created_handles (depth_calls fmt extent images memorys views)
  ≡ₚ ((KImage,.) <$> images) ++ ((KMemory,.) <$> memorys) ++
     ((KImageView,.) <$> views).
Proof.
  unfold depth_calls. revert memorys views.
  induction images as [|image images IH];
    intros [|memory memorys] [|view views] Hl1 Hl2; try done.
  simpl in *. rewrite (IH memorys views) by lia. solve_Permutation.
Qed.

Lemma created_framebuffer_calls rp extent colorViews depthViews framebuffers :
  length depthViews = length colorViews ->
  length framebuffers = length colorViews ->
  created_handles
    (framebuffer_calls rp extent colorViews depthViews framebuffers)
  = (KFramebuffer,.) <$> framebuffers.
Proof.
  unfold framebuffer_calls. revert depthViews framebuffers.
  induction colorViews as [|cv colorViews IH];
    intros [|dv depthViews] [|fb framebuffers] Hl1 Hl2; try done.
  simpl in *. f_equal. apply IH; lia.
Qed.

Lemma created_sync_calls available finished fences :
  length finished = length available -> length fences = length available ->
  created_handles (sync_calls available finished fences)
  ≡ₚ ((KSemaphore,.) <$> available) ++ ((KSemaphore,.) <$> finished) ++
     ((KFence,.) <$> fences).
Proof.
  unfold sync_calls. revert finished fences.
  induction available as [|a available IH];
    intros [|f finished] [|fence fences] Hl1 Hl2; try done.
  simpl in *. rewrite (IH finished fences) by lia. solve_Permutation.
Qed.

Lemma released_fmap (f : handle -> Call) (k : HandleKind) l :
  (∀ h, released_handles [f h] = [(k, h)]) ->
  released_handles (f <$> l) = (k,.) <$> l.
Proof.
  intros Hf. induction l as [|h l IH]; [done|].
  change (f <$> h :: l) with ([f h] ++ (f <$> l)).
  by rewrite released_handles_app, Hf, IH.
Qed.

Lemma bind_seq_shift {A} (f : nat -> list A) j n :
  seq (S j) n ≫= f = seq j n ≫= (λ i, f (S i)).
Proof.
  revert j. induction n as [|n IH]; intros j; [done|].
  simpl. by rewrite IH.
Qed.

Lemma released_indexed (k1 k2 k3 : HandleKind) (f1 f2 f3 : handle -> Call)
    (l1 l2 l3 : list handle) :
  (∀ h, released_handles [f1 h] = [(k1, h)]) ->
  (∀ h, released_handles [f2 h] = [(k2, h)]) ->
  (∀ h, released_handles [f3 h] = [(k3, h)]) ->
  length l2 = length l1 -> length l3 = length l1 ->
  released_handles
    (seq 0 (length l1) ≫= λ i, [f1 (l1 !!! i); f2 (l2 !!! i); f3 (l3 !!! i)])
  ≡ₚ ((k1,.) <$> l1) ++ ((k2,.) <$> l2) ++ ((k3,.) <$> l3).
Proof.
  intros H1 H2 H3. revert l2 l3.
  induction l1 as [|a l1 IH]; intros [|b l2] [|c l3] Hl2 Hl3; try done.
  simpl length. simpl seq. simpl mbind.
  change (released_handles
            ([f1 a; f2 b; f3 c] ++
             (seq 1 (length l1) ≫= λ i,
                [f1 ((a :: l1) !!! i); f2 ((b :: l2) !!! i);
                 f3 ((c :: l3) !!! i)]))
          ≡ₚ ((k1,.) <$> a :: l1) ++ ((k2,.) <$> b :: l2) ++
             ((k3,.) <$> c :: l3)).
  rewrite released_handles_app, bind_seq_shift.
  change (seq 0 (length l1) ≫= λ i,
            [f1 ((a :: l1) !!! S i); f2 ((b :: l2) !!! S i);
             f3 ((c :: l3) !!! S i)])
    with (seq 0 (length l1) ≫= λ i, [f1 (l1 !!! i); f2 (l2 !!! i); f3 (l3 !!! i)]).
  rewrite (IH l2 l3) by (simpl in *; lia).
  change [f1 a; f2 b; f3 c] with ([f1 a] ++ [f2 b] ++ [f3 c]).
  rewrite !released_handles_app, H1, H2, H3. simpl. solve_Permutation.
Qed.

(** What the destructor releases is what [init] created. *)
Lemma release_matches_creation s' line ci rpci :
  swapChain s' ≠ VK_NULL_HANDLE ->
  length (swapChainImageViews s') = imageCount s' ->
  length (depthImages s') = imageCount s' ->
  length (depthImageMemorys s') = imageCount s' ->
  length (depthImageViews s') = imageCount s' ->
  length (swapChainFramebuffers s') = imageCount s' ->
  length (imageAvailableSemaphores s') = N.to_nat MAX_FRAMES_IN_FLIGHT ->
  length (renderFinishedSemaphores s') = N.to_nat MAX_FRAMES_IN_FLIGHT ->
  length (inFlightFences s') = N.to_nat MAX_FRAMES_IN_FLIGHT ->
  released_handles (release_calls s')
  ≡ₚ created_handles (init_calls s' line ci rpci).
Proof.
  intros Hsc Hl1 Hl2 Hl3 Hl4 Hl5 Hl6 Hl7 Hl8.
  unfold release_calls, init_calls, depth_release, slot_release.
  rewrite decide_True by done.
  rewrite !released_handles_app, !created_handles_app.
  rewrite (released_fmap DestroyImageView KImageView) by done.
  rewrite (released_fmap DestroyFramebuffer KFramebuffer) by done.
  rewrite created_view_calls by (unfold imageCount in *; lia).
  rewrite created_depth_calls by lia.
  rewrite created_framebuffer_calls by lia.
  rewrite created_sync_calls by lia.
  replace (length (depthImages s')) with (length (depthImageViews s')) by lia.
  replace (N.to_nat MAX_FRAMES_IN_FLIGHT)
    with (length (renderFinishedSemaphores s')) by lia.
  rewrite (released_indexed KImageView KImage KMemory
             DestroyImageView DestroyImage FreeMemory) by (done || lia).
  rewrite (released_indexed KSemaphore KSemaphore KFence
             DestroySemaphore DestroySemaphore DestroyFence) by (done || lia).
  simpl. solve_Permutation.
Qed.

(** X15.  The destructor releases exactly what [init] created: run on
    the object [init] leaves, or on that object after any changes to its
    frame index and per-image fences (the two members the frame cycle
    writes), it returns, and the handles it releases, each by the destroy
    call of its kind, are the handles the calls of [init] created, each
    exactly once.  The swap chain's images, which [init] only queries, are
    not released. *)
Theorem dtor_releases_what_init_created s w frame flights wd :
  formats (getSwapChainSupport device (calls w)) ≠ [] ->
  ∃ s1 w1 created s2 w2 released,
    init s w = Ok () s1 w1 ∧
    made w w1 created ∧
    LveSwapChain_dtor (set_currentFrame frame (set_imagesInFlight flights s1)) wd
      = Ok () s2 w2 ∧
    made wd w2 released ∧
    released_handles released ≡ₚ created_handles created.
Proof.
  intros Hne.
  pose proof (init_exact s w Hne) as Hwp.
  apply wp_elim in Hwp as ([] & s1 & w1 & Heq & line & ci & rpci & Hmade & Hsc
    & Hl1 & Hl2 & Hl3 & Hl4 & Hl5 & Hl6 & Hl7 & Hl8 & _).
  set (s1' := set_currentFrame frame (set_imagesInFlight flights s1)).
  assert (release_calls s1' = release_calls s1) as Hsame
    by (subst s1'; by destruct s1).
  pose proof (LveSwapChain_dtor_spec s1' wd) as Hd.
  apply wp_elim in Hd as ([] & s2 & w2 & Heq2 & _ & Hmade2);
    try (subst s1'; destruct s1; unfold imageCount in *; simpl in *; lia).
  exists s1, w1, (init_calls s1 line ci rpci), s2, w2, (release_calls s1').
  split; [done|]. split; [done|]. split; [done|]. split; [done|].
  rewrite Hsame. apply release_matches_creation; try done.
  rewrite Hsc. unfold VK_NULL_HANDLE. lia.
Qed.

Lemma release_calls_swapchain s h :
  DestroySwapchainKHR h ∈ release_calls s ->
  h = swapChain s ∧ swapChain s ≠ VK_NULL_HANDLE.
Proof.
  unfold release_calls.
  rewrite !elem_of_app, !list_elem_of_fmap, !list_elem_of_bind.
  intros [(x & Hx & _)|[Hin|[(i & Hin & _)|[(x & Hx & _)|[Hin|(i & Hin & _)]]]]];
    try done.
  - destruct (decide (swapChain s ≠ VK_NULL_HANDLE)) as [Hnz|Hz].
    + apply list_elem_of_singleton in Hin. by injection Hin as ->.
    + by apply elem_of_nil in Hin.
  - unfold depth_release in Hin.
    repeat (apply elem_of_cons in Hin as [Hin|Hin]; [done|]).
    by apply elem_of_nil in Hin.
  - apply list_elem_of_singleton in Hin. done.
  - unfold slot_release in Hin.
    repeat (apply elem_of_cons in Hin as [Hin|Hin]; [done|]).
    by apply elem_of_nil in Hin.
Qed.

(** X16.  A swap chain constructed from a predecessor never destroys
    the predecessor's swap chain handle: its destructor, whenever it is
    run, destroys the one swap chain handle the new object created, which
    is not the predecessor's. *)
Theorem successor_dtor_spares_predecessor extent previous w wd :
  formats (getSwapChainSupport device (calls w)) ≠ [] ->
  swapChain previous <= next_handle w ->
  ∃ s' w' s2 w2 released,
    LveSwapChain_ctor_previous extent (Some previous) w = Ok () s' w' ∧
    LveSwapChain_dtor s' wd = Ok () s2 w2 ∧
    made wd w2 released ∧
    DestroySwapchainKHR (swapChain s') ∈ released ∧
    (∀ h, DestroySwapchainKHR h ∈ released -> h ≠ swapChain previous).
Proof.
  intros Hne Hold.
  pose proof (init_exact (fresh_object extent (Some previous)) w Hne) as Hwp.
  apply wp_elim in Hwp as ([] & s1 & w1 & Heq & line & ci & rpci & Hmade & Hsc
    & Hl1 & Hl2 & Hl3 & Hl4 & Hl5 & Hl6 & Hl7 & Hl8 & _).
  set (s' := set_oldSwapChain None s1).
  assert (release_calls s' = release_calls s1) as Hsame
    by (subst s'; by destruct s1).
  assert (swapChain s' = swapChain s1) as Hsc' by (subst s'; by destruct s1).
  pose proof (LveSwapChain_dtor_spec s' wd) as Hd.
  apply wp_elim in Hd as ([] & s2 & w2 & Heq2 & _ & Hmade2);
    try (subst s'; destruct s1; unfold imageCount in *; simpl in *; lia).
  exists s', w1, s2, w2, (release_calls s').
  split.
  { unfold LveSwapChain_ctor_previous, mbind, M_bind. by rewrite Heq. }
  split; [done|]. split; [done|].
  split.
  - unfold release_calls. apply elem_of_app. right. apply elem_of_app. left.
    rewrite decide_True; [left|].
    rewrite Hsc', Hsc. unfold VK_NULL_HANDLE. lia.
  - intros h Hin. apply release_calls_swapchain in Hin as [-> _].
    rewrite Hsc', Hsc. lia.
Qed.

(** X17.  The image count [createSwapChain] asks for respects the
    device's bounds whenever they are consistent: if the reported minimum
    plus one fits 32 bits and the reported maximum is 0 (none) or at least
    the minimum, the count is at least the minimum, and at most the
    maximum when one is reported. *)
Theorem createSwapChain_image_count_within_bounds s w :
  let caps := capabilities (getSwapChainSupport device (calls w)) in
  formats (getSwapChainSupport device (calls w)) ≠ [] ->
  minImageCount caps + 1 < 2 ^ 32 ->
  maxImageCount caps = 0 ∨ minImageCount caps <= maxImageCount caps ->
  ∃ s' w' line ci sc images,
    createSwapChain s w = Ok () s' w' ∧
    made w w' [StdCout line; CreateSwapchainKHR ci sc;
               GetSwapchainImagesKHR sc images] ∧
    minImageCount caps <= sci_minImageCount ci ∧
    (maxImageCount caps ≠ 0 -> sci_minImageCount ci <= maxImageCount caps).
Proof.
  intros caps Hne Hfit Hbounds.
  pose proof (createSwapChain_exact s w Hne) as Hwp.
  apply wp_elim in Hwp as ([] & s' & w' & Heq & sf & pm & ext & line & sc
    & images & _ & _ & _ & _ & _ & Hmade).
  eexists s', w', line, _, sc, images.
  split; [done|]. split; [exact Hmade|].
  cbn [sci_minImageCount]. fold caps.
  unfold requestedImageCount, u32.
  rewrite (N.mod_small (minImageCount caps + 1)) by done.
  clearbody caps.
  destruct (N.ltb_spec 0 (maxImageCount caps));
    destruct (N.ltb_spec (maxImageCount caps) (minImageCount caps + 1));
    simpl; split; intros; lia.
Qed.

Lemma init_oldSwapChain s w s' w' :
  init s w = Ok () s' w' -> oldSwapChain s' = oldSwapChain s.
Proof.
  intros Hinit.
  pose proof (init_spec s w (init_returns_formats _ _ _ _ Hinit)) as Hwp.
  apply wp_elim in Hwp as ([] & s'' & w'' & Heq & Hpost).
  rewrite Hinit in Heq. injection Heq as <- <-.
  by destruct Hpost as (h & line & ci & images & rest & _ & _ & _ & _ & _ & _
    & _ & _ & _ & _ & _ & _ & Hold & _).
Qed.

(** X18.  Constructing with a null predecessor is the same as
    constructing without one: the second constructor, given [nullptr],
    makes the same calls and leaves the same object as the first, and
    stops in the same way when the first does. *)
Theorem ctor_previous_null_is_ctor extent w :
  LveSwapChain_ctor_previous extent None w = LveSwapChain_ctor extent w.
Proof.
  unfold LveSwapChain_ctor_previous, LveSwapChain_ctor, mbind, M_bind.
  destruct (init (fresh_object extent None) w) as [[] s1 w1|s1 w1] eqn:Hinit;
    [|done].
  apply init_oldSwapChain in Hinit. simpl in Hinit.
  unfold modify. f_equal. destruct s1. simpl in *. by subst.
Qed.

Lemma resources_inv_init s w s' w' :
  imagesInFlight s = [] ->
  init s w = Ok () s' w' -> resources_inv s'.
Proof.
  intros Hempty Hinit.
  pose proof (init_spec s w (init_returns_formats _ _ _ _ Hinit)) as Hwp.
  apply wp_elim in Hwp as ([] & s'' & w'' & Heq & Hpost).
  rewrite Hinit in Heq. injection Heq as <- <-.
  destruct Hpost as (h & line & ci & images & rest & _ & Himgs & Hv & Hd1
    & Hd2 & Hd3 & Hfb & Hflight & _).
  unfold resources_inv, imageCount. rewrite Himgs.
  repeat (split; [done|]).
  rewrite Hflight, Hempty, resize_nil.
  split; [by rewrite length_replicate|].
  intros i fence Hl. apply lookup_replicate in Hl as [-> _]. by left.
Qed.

Lemma reachable_resources past s w :
  0 < MAX_FRAMES_IN_FLIGHT -> reachable past s w -> resources_inv s.
Proof.
  intros Hmax Hreach.
  induction Hreach as
    [extent w s0 w0 Hctor
    |extent previous w s0 w0 Hctor
    |past s w result s' w' Hreach IH Hacq
    |past s w buffers imageIndex result s' w' Hreach IH Hidx Hsub].
  - unfold LveSwapChain_ctor in Hctor.
    by apply (resources_inv_init (fresh_object extent None) w s0 w0).
  - unfold LveSwapChain_ctor_previous, mbind, M_bind in Hctor.
    destruct (init (fresh_object extent previous) w) as [[] s1 w1|] eqn:Hinit;
      [|done].
    unfold modify in Hctor. injection Hctor as <- <-.
    apply resources_inv_init in Hinit; [|done]. by destruct s1.
  - destruct (cycle_acquire past s w Hmax Hreach)
      as (h & r & w'' & _ & _ & _ & Heq & _).
    cbv zeta in Heq. rewrite Hacq in Heq. by injection Heq as -> -> ->.
  - destruct (cycle_submit past s w buffers imageIndex Hmax Hreach Hidx)
      as (h & inFlight & r & s1 & w1 & si & pi & Hfen & _ & Hlt & _ & Heq
          & _ & _ & _ & _ & _ & _ & _ & Hs1 & _).
    cbv zeta in *. rewrite Hsub in Heq. injection Heq as -> -> ->.
    destruct IH as (Hv & Hd1 & Hd2 & Hd3 & Hfb & Hfl & Hheld).
    subst s1. destruct s. unfold resources_inv, imageCount in *. obj_simpl.
    rewrite length_insert.
    repeat (split; [done|]).
    intros i fence Hl.
    destruct (decide (i = N.to_nat imageIndex)) as [->|Hne].
    + rewrite list_lookup_insert_eq in Hl by lia. injection Hl as <-.
      right. rewrite Hfen. apply list_elem_of_fmap. eexists. split; [done|].
      apply elem_of_seq. lia.
    + rewrite list_lookup_insert_ne in Hl by done. by apply (Hheld i).
Qed.

(** X19.  In every state of the frame cycle: the frame index is below
    [MAX_FRAMES_IN_FLIGHT]; there is one image-available semaphore, one
    render-finished semaphore and one in-flight fence per frame slot, and
    the in-flight fences are distinct and not null; the colour views, the
    depth images, memories and views, the framebuffers and the per-image
    fences are as many as the swap chain images; and the fence held for an
    image is either null or one of the in-flight fences. *)
Theorem frame_cycle_invariants past s w :
  0 < MAX_FRAMES_IN_FLIGHT ->
  reachable past s w ->
  currentFrame s < MAX_FRAMES_IN_FLIGHT ∧
  length (imageAvailableSemaphores s) = N.to_nat MAX_FRAMES_IN_FLIGHT ∧
  length (renderFinishedSemaphores s) = N.to_nat MAX_FRAMES_IN_FLIGHT ∧
  length (inFlightFences s) = N.to_nat MAX_FRAMES_IN_FLIGHT ∧
  NoDup (inFlightFences s) ∧
  (VK_NULL_HANDLE ∉ inFlightFences s) ∧
  length (swapChainImageViews s) = imageCount s ∧
  length (depthImages s) = imageCount s ∧
  length (depthImageMemorys s) = imageCount s ∧
  length (depthImageViews s) = imageCount s ∧
  length (swapChainFramebuffers s) = imageCount s ∧
  length (imagesInFlight s) = imageCount s ∧
  (∀ i fence, imagesInFlight s !! i = Some fence ->
     fence = VK_NULL_HANDLE ∨ fence ∈ inFlightFences s).
Proof.
  intros Hmax Hreach.
  destruct (reachable_cycle_inv _ _ _ Hmax Hreach)
    as (h & Hav & Hfin & Hfen & Hcf & _).
  destruct (reachable_resources _ _ _ Hmax Hreach)
    as (Hv & Hd1 & Hd2 & Hd3 & Hfb & Hfl & Hheld).
  rewrite Hav, Hfin, Hfen, !length_fmap, !length_seq.
  repeat (split; [done|]).
  split.
  { apply NoDup_fmap_2; [|apply NoDup_seq].
    intros i j Hij. unfold slot_fence in Hij. lia. }
  split.
  { intros Hin. apply list_elem_of_fmap in Hin as (i & Hi & _).
    unfold slot_fence, VK_NULL_HANDLE in Hi. lia. }
  repeat (split; [done|]).
  intros i fence Hl. rewrite <- Hfen. by apply (Hheld i).
Qed.

End Model.


(** ** The claims on the concrete platform

    Swap chain A is constructed with two frame slots on [demoDevice];
    one frame is then submitted for image 0. *)
Local Abbreviation demoA :=
  (outcome_object (LveSwapChain_ctor 2 demoDevice demoExtent demoWorld)).
Local Abbreviation worldA :=
  (outcome_world (LveSwapChain_ctor 2 demoDevice demoExtent demoWorld)).
Local Abbreviation demoA1 :=
  (outcome_object (submitCommandBuffers 2 demoDevice [901] 0 demoA worldA)).
Local Abbreviation worldA1 :=
  (outcome_world (submitCommandBuffers 2 demoDevice [901] 0 demoA worldA)).

Lemma demoA_reachable : reachable 2 demoDevice [] demoA worldA.
Proof.
  apply (reach_ctor 2 demoDevice demoExtent demoWorld).
  vm_compute. reflexivity.
Defined.

Lemma demoA1_reachable :
  reachable 2 demoDevice ([] ++ [(0, currentFrame demoA)]) demoA1 worldA1.
Proof.
  apply (reach_submit 2 demoDevice [] demoA worldA [901] 0 eSuccess).
  - exact demoA_reachable.
  - vm_compute. lia.
  - vm_compute. reflexivity.
Defined.

Lemma dtor_release_sequence_witness :
  ∃ s' w' tr,
    LveSwapChain_dtor 2 demoA worldA = Ok () s' w' ∧
    made worldA w' tr ∧
    swapChain s' = VK_NULL_HANDLE.
Proof.
  assert (length (depthImages demoA) <= length (depthImageViews demoA))%nat
    as H1 by (vm_compute; lia).
  assert (length (depthImages demoA) <= length (depthImageMemorys demoA))%nat
    as H2 by (vm_compute; lia).
  assert (N.to_nat 2 <= length (renderFinishedSemaphores demoA))%nat
    as H3 by (vm_compute; lia).
  assert (N.to_nat 2 <= length (imageAvailableSemaphores demoA))%nat
    as H4 by (vm_compute; lia).
  assert (N.to_nat 2 <= length (inFlightFences demoA))%nat
    as H5 by (vm_compute; lia).
  pose proof (dtor_release_sequence 2 demoA worldA H1 H2 H3 H4 H5) as H.
  destruct H as (s' & w' & tr & Heq & Hmade & _ & _ & Hnull & _).
  exists s', w', tr. split; [exact Heq|]. split; [exact Hmade|exact Hnull].
Defined.

Lemma submit_waits_iff_submitted_before_witness :
  ∃ associated result s' w' tr,
    submitCommandBuffers 2 demoDevice [902] 0 demoA1 worldA1 = Ok result s' w' ∧
    made worldA1 w' tr ∧
    waited_fences tr = [associated].
Proof.
  assert (0 < 2) as H1 by reflexivity.
  assert (N.to_nat 0 < imageCount demoA1)%nat as H2 by (vm_compute; lia).
  pose proof (submit_waits_iff_submitted_before 2 demoDevice _ demoA1 worldA1
                [902] 0 H1 demoA1_reachable H2) as H.
  destruct H as (associated & slotFence & result & s' & w' & tr
                 & _ & _ & Heq & Hmade & Hwait & _).
  exists associated, result, s', w', tr.
  split; [exact Heq|]. split; [exact Hmade|].
  rewrite Hwait. apply decide_True. vm_compute. left.
Defined.

Lemma submit_frame_index_witness :
  ∃ result s' w',
    submitCommandBuffers 2 demoDevice [901] 0 demoA worldA = Ok result s' w' ∧
    currentFrame s' < 2.
Proof.
  assert (0 < 2 < 2 ^ 31) as H1 by (split; reflexivity).
  assert (currentFrame demoA < 2) as H2 by (vm_compute; reflexivity).
  assert (length (imageAvailableSemaphores demoA) = N.to_nat 2) as H3
    by (vm_compute; reflexivity).
  assert (length (renderFinishedSemaphores demoA) = N.to_nat 2) as H4
    by (vm_compute; reflexivity).
  assert (length (inFlightFences demoA) = N.to_nat 2) as H5
    by (vm_compute; reflexivity).
  assert (N.to_nat 0 < length (imagesInFlight demoA))%nat as H6
    by (vm_compute; lia).
  pose proof (submit_frame_index 2 demoDevice [901] 0 demoA worldA
                H1 H2 H3 H4 H5 H6) as H.
  destruct H as (result & s' & w' & pi & Heq & _ & _ & _ & Hlt).
  exists result, s', w'. split; [exact Heq|exact Hlt].
Defined.

Lemma createSyncObjects_signaled_fences_witness :
  (∃ s' w', createSyncObjects 2 (fresh_object demoExtent None) demoWorld
            = Ok () s' w' ∧
            ∀ fence, fence ∈ inFlightFences s' -> fence ∈ signaled w') ∧
  (∃ result w', acquireNextImage demoDevice demoA worldA = Ok result demoA w' ∧
                stalls w' = stalls worldA).
Proof.
  assert (0 < 2) as H1 by reflexivity.
  assert (currentFrame demoA ∉ ([] : list (N * N)).*2) as H2
    by (vm_compute; apply not_elem_of_nil).
  pose proof (createSyncObjects_signaled_fences 2 demoDevice
                (fresh_object demoExtent None) demoWorld [] demoA worldA
                H1 demoA_reachable H2) as H.
  destruct H as [(s' & w' & tr & Heq & _ & _ & _ & _ & _ & _ & Hsig) Hacq].
  split; [|exact Hacq].
  exists s', w'. split; [exact Heq|exact Hsig].
Defined.

Lemma init_sequence_lengths_witness :
  ∃ s' w',
    init 2 demoDevice (fresh_object demoExtent None) demoWorld = Ok () s' w' ∧
    swapChainImages s' = [501; 502; 503] ∧
    imageCount s' = 3%nat ∧
    length (swapChainImageViews s') = 3%nat ∧
    length (depthImages s') = 3%nat ∧
    length (depthImageMemorys s') = 3%nat ∧
    length (depthImageViews s') = 3%nat ∧
    length (swapChainFramebuffers s') = 3%nat ∧
    length (imagesInFlight s') = 3%nat.
Proof.
  assert (formats (getSwapChainSupport demoDevice (calls demoWorld)) ≠ [])
    as H1 by (vm_compute; discriminate).
  pose proof (init_sequence_lengths 2 demoDevice
                (fresh_object demoExtent None) demoWorld H1) as H.
  destruct H as (s' & w' & line & ci & rest & Heq & _ & _ & Himgs & Hn & Hv
                 & Hd1 & Hd2 & Hd3 & Hfb & Hfl).
  change (swapChainImages s' = [501; 502; 503]) in Himgs.
  change (imageCount s' = 3%nat) in Hn.
  rewrite Hn in Hv, Hd1, Hd2, Hd3, Hfb, Hfl.
  exists s', w'.
  split; [exact Heq|]. split; [exact Himgs|]. split; [exact Hn|].
  split; [exact Hv|]. split; [exact Hd1|]. split; [exact Hd2|].
  split; [exact Hd3|]. split; [exact Hfb|exact Hfl].
Defined.

Lemma ctor_previous_releases_predecessor_witness :
  ∃ s' w',
    LveSwapChain_ctor_previous 2 demoDevice resizedExtent (Some demoA) worldA
      = Ok () s' w' ∧
    oldSwapChain s' = None.
Proof.
  assert (formats (getSwapChainSupport demoDevice (calls worldA)) ≠ [])
    as H1 by (vm_compute; discriminate).
  assert (swapChain demoA <= next_handle worldA) as H2
    by (vm_compute; discriminate).
  pose proof (ctor_previous_releases_predecessor 2 demoDevice resizedExtent
                demoA worldA H1 H2) as H.
  destruct H as (s' & w' & line & ci & sc & images & rest & Heq & _ & _ & _
                 & _ & _ & Hold).
  exists s', w'. split; [exact Heq|exact Hold].
Defined.

Lemma chooseSwapSurfaceFormat_preferred_or_first_witness :
  ∃ chosen,
    chooseSwapSurfaceFormat (formats demoSupport) = Some chosen ∧
    format chosen = eB8G8R8A8Srgb.
Proof.
  assert (formats demoSupport ≠ []) as H1 by (vm_compute; discriminate).
  pose proof (chooseSwapSurfaceFormat_preferred_or_first
                (formats demoSupport) H1) as H.
  destruct H as (chosen & Heq & _ & Hpref & _).
  exists chosen. split; [exact Heq|]. apply Hpref.
  exists {| format := eB8G8R8A8Srgb; colorSpace := eSrgbNonlinear |}.
  split; [right; left|]. split; reflexivity.
Defined.

Lemma createSwapChain_image_count_witness :
  ∃ s' w' line ci sc images,
    createSwapChain demoDevice (fresh_object demoExtent None) demoWorld
      = Ok () s' w' ∧
    made demoWorld w' [StdCout line; CreateSwapchainKHR ci sc;
                       GetSwapchainImagesKHR sc images] ∧
    sci_minImageCount ci = 3.
Proof.
  assert (formats (getSwapChainSupport demoDevice (calls demoWorld)) ≠ [])
    as H1 by (vm_compute; discriminate).
  pose proof (createSwapChain_image_count demoDevice
                (fresh_object demoExtent None) demoWorld H1) as H.
  destruct H as (s' & w' & line & ci & sc & images & Heq & Hmade & _ & Hcount & _).
  exists s', w', line, ci, sc, images.
  split; [exact Heq|]. split; [exact Hmade|].
  rewrite Hcount; [reflexivity|].
  vm_compute. intros [_ Hlt]. discriminate Hlt.
Defined.

Lemma submit_one_command_buffer_witness :
  ∃ result s' w' tr si,
    submitCommandBuffers 2 demoDevice [901; 902; 903] 0 demoA worldA
      = Ok result s' w' ∧
    made worldA w' tr ∧
    queue_submits tr = [si] ∧
    si_commandBufferCount si = 1.
Proof.
  assert ((2 : N) ≠ 0) as H1 by discriminate.
  assert (N.to_nat (currentFrame demoA)
          < length (imageAvailableSemaphores demoA))%nat as H2
    by (vm_compute; lia).
  assert (N.to_nat (currentFrame demoA)
          < length (renderFinishedSemaphores demoA))%nat as H3
    by (vm_compute; lia).
  assert (N.to_nat (currentFrame demoA) < length (inFlightFences demoA))%nat
    as H4 by (vm_compute; lia).
  assert (N.to_nat 0 < length (imagesInFlight demoA))%nat as H5
    by (vm_compute; lia).
  pose proof (submit_one_command_buffer 2 demoDevice [901; 902; 903] 0
                demoA worldA H1 H2 H3 H4 H5) as H.
  destruct H as (result & s' & w' & tr & si & Heq & Hmade & Hq & Hcount & _).
  exists result, s', w', tr, si.
  split; [exact Heq|]. split; [exact Hmade|]. split; [exact Hq|exact Hcount].
Defined.

Lemma acquireNextImage_object_unchanged_witness :
  ∃ result w', acquireNextImage demoDevice demoA worldA = Ok result demoA w'.
Proof.
  assert (N.to_nat (currentFrame demoA) < length (inFlightFences demoA))%nat
    as H1 by (vm_compute; lia).
  assert (N.to_nat (currentFrame demoA)
          < length (imageAvailableSemaphores demoA))%nat as H2
    by (vm_compute; lia).
  exact (acquireNextImage_object_unchanged demoDevice demoA worldA H1 H2).
Defined.

(** C1, as stated, fails.  On swap chain A, [init] creates the
    categories in the order swap chain, views, render pass, depth,
    framebuffers, sync; the destructor releases them in the order views,
    swap chain, depth, framebuffers, render pass, sync, which is not the
    reverse.  And on an object whose initialisation stopped before the
    render pass was created, the destructor passes the null render pass
    handle to the destroy call, and then indexes the empty semaphore
    sequence. *)
Lemma dtor_not_reverse_of_creation :
  let released :=
    drop (length (calls worldA))
         (calls (outcome_world (LveSwapChain_dtor 2 demoA worldA))) in
  let partial :=
    init_upto 2 demoDevice 2 (fresh_object demoExtent None) demoWorld in
  let torn :=
    LveSwapChain_dtor 2 (outcome_object partial) (outcome_world partial) in
  LveSwapChain_ctor 2 demoDevice demoExtent demoWorld = Ok () demoA worldA ∧
  creation_order (calls worldA)
    = [CatSwapChain; CatViews; CatRenderPass; CatDepth; CatFramebuffers;
       CatSync] ∧
  release_order demoA released
    = [CatViews; CatSwapChain; CatDepth; CatFramebuffers; CatRenderPass;
       CatSync] ∧
  release_order demoA released ≠ rev (creation_order (calls worldA)) ∧
  partial = Ok () (outcome_object partial) (outcome_world partial) ∧
  renderPass (outcome_object partial) = VK_NULL_HANDLE ∧
  torn = Fault (outcome_object torn) (outcome_world torn) ∧
  last (calls (outcome_world torn)) = Some (DestroyRenderPass VK_NULL_HANDLE).
Proof.
  vm_compute. repeat split; discriminate.
Qed.

(** C8, as stated, fails.  When the device reports a minimum image count
    of 2^32 - 1 and no maximum, the described count is 2^32, and the count
    [createSwapChain] asks for is 0. *)
Lemma createSwapChain_image_count_wraps :
  let caps := capabilities (getSwapChainSupport overflowDevice []) in
  let run :=
    createSwapChain overflowDevice (fresh_object demoExtent None) demoWorld in
  maxImageCount caps = 0 ∧
  described_image_count caps = 4294967296 ∧
  (∃ ci, calls (outcome_world run) !! 1%nat = Some (CreateSwapchainKHR ci 1) ∧
         sci_minImageCount ci = 0 ∧
         sci_minImageCount ci ≠ described_image_count caps) ∧
  run = Ok () (outcome_object run) (outcome_world run).
Proof.
  vm_compute. split; [reflexivity|]. split; [reflexivity|].
  split; [|reflexivity].
  eexists. split; [reflexivity|]. split; [reflexivity|discriminate].
Qed.

(** ** The further properties on the concrete platform

    Swap chain C is constructed on [overflowDevice], whose presents all
    report an out-of-date swap chain. *)
Local Abbreviation demoC :=
  (outcome_object (LveSwapChain_ctor 2 overflowDevice demoExtent demoWorld)).
Local Abbreviation worldC :=
  (outcome_world (LveSwapChain_ctor 2 overflowDevice demoExtent demoWorld)).
Local Abbreviation demoC1 :=
  (outcome_object (submitCommandBuffers 2 overflowDevice [901] 1 demoC worldC)).
Local Abbreviation worldC1 :=
  (outcome_world (submitCommandBuffers 2 overflowDevice [901] 1 demoC worldC)).

Lemma demoC_reachable : reachable 2 overflowDevice [] demoC worldC.
Proof.
  apply (reach_ctor 2 overflowDevice demoExtent demoWorld).
  vm_compute. reflexivity.
Defined.

Lemma chooseSwapPresentMode_mailbox_or_fifo_witness :
  ∃ mode line w',
    chooseSwapPresentMode [eImmediate] (fresh_object demoExtent None) demoWorld
      = Ok mode (fresh_object demoExtent None) w' ∧
    made demoWorld w' [StdCout line] ∧
    mode = eFifo.
Proof.
  pose proof (chooseSwapPresentMode_mailbox_or_fifo [eImmediate]
                (fresh_object demoExtent None) demoWorld) as H.
  destruct H as (mode & line & w' & Heq & Hmade & _ & Hfifo).
  exists mode, line, w'. split; [exact Heq|]. split; [exact Hmade|].
  apply Hfifo. intros Hin.
  apply elem_of_cons in Hin as [Hin|Hin]; [discriminate Hin|].
  by apply elem_of_nil in Hin.
Defined.

Lemma chooseSwapExtent_current_or_clamped_witness :
  ∃ extent,
    chooseSwapExtent (capabilities demoSupport)
                     (fresh_object {| width := 5000; height := 600 |} None)
                     demoWorld
      = Ok extent (fresh_object {| width := 5000; height := 600 |} None)
           demoWorld ∧
    width extent = 4096 ∧ height extent = 600.
Proof.
  pose proof (chooseSwapExtent_current_or_clamped (capabilities demoSupport)
                (fresh_object {| width := 5000; height := 600 |} None)
                demoWorld) as H.
  destruct H as (extent & Heq & _ & Hclamp).
  assert (width (currentExtent (capabilities demoSupport)) = UINT32_MAX)
    as Hs by reflexivity.
  destruct (Hclamp Hs) as [(_ & _ & _ & _ & Hw & _) (_ & _ & Hh & _)].
  exists extent. split; [exact Heq|]. split.
  - apply Hw; vm_compute; [discriminate|reflexivity].
  - apply Hh. vm_compute. split; discriminate.
Defined.

Lemma ctor_without_formats_witness :
  LveSwapChain_ctor 2 noFormatDevice demoExtent demoWorld
  = Fault (fresh_object demoExtent None) demoWorld.
Proof.
  assert (formats (getSwapChainSupport noFormatDevice (calls demoWorld)) = [])
    as H1 by reflexivity.
  pose proof (ctor_without_formats 2 noFormatDevice demoExtent demoWorld H1)
    as H.
  exact (proj2 (proj2 H)).
Defined.

Lemma submit_image_index_out_of_range_witness :
  submitCommandBuffers 2 demoDevice [901] 3 demoA worldA = Fault demoA worldA.
Proof.
  assert (length (imagesInFlight demoA) <= N.to_nat 3)%nat as H1
    by (vm_compute; lia).
  exact (submit_image_index_out_of_range 2 demoDevice [901] 3 demoA worldA H1).
Defined.

Lemma ctor_initial_state_witness :
  ∃ s' w',
    LveSwapChain_ctor 2 demoDevice demoExtent demoWorld = Ok () s' w' ∧
    currentFrame s' = 0 ∧
    imagesInFlight s' = replicate (imageCount s') VK_NULL_HANDLE.
Proof.
  assert (formats (getSwapChainSupport demoDevice (calls demoWorld)) ≠ [])
    as H1 by (vm_compute; discriminate).
  pose proof (ctor_initial_state 2 demoDevice demoExtent demoWorld H1) as H.
  destruct H as (s' & w' & line & ci & images & rest & Heq & _ & _ & _
                 & Himgs & Hfl & Hcf & _).
  exists s', w'. split; [exact Heq|]. split; [exact Hcf|].
  unfold imageCount. rewrite Himgs. exact Hfl.
Defined.

Lemma submit_synchronisation_chain_witness :
  ∃ slotFence result s' w' si pi,
    inFlightFences demoA !! N.to_nat (currentFrame demoA) = Some slotFence ∧
    submitCommandBuffers 2 demoDevice [901] 0 demoA worldA = Ok result s' w' ∧
    made worldA w' [ResetFences slotFence; QueueSubmit si slotFence;
                    QueuePresentKHR pi result] ∧
    imagesInFlight s' !! N.to_nat 0 = Some slotFence.
Proof.
  assert ((2 : N) ≠ 0) as H1 by discriminate.
  assert (N.to_nat (currentFrame demoA)
          < length (imageAvailableSemaphores demoA))%nat as H2
    by (vm_compute; lia).
  assert (N.to_nat (currentFrame demoA)
          < length (renderFinishedSemaphores demoA))%nat as H3
    by (vm_compute; lia).
  assert (N.to_nat (currentFrame demoA) < length (inFlightFences demoA))%nat
    as H4 by (vm_compute; lia).
  assert (N.to_nat 0 < length (imagesInFlight demoA))%nat as H5
    by (vm_compute; lia).
  pose proof (submit_synchronisation_chain 2 demoDevice [901] 0 demoA worldA
                H1 H2 H3 H4 H5) as H.
  destruct H as (held & slotFence & available & finished & result & s' & w'
                 & si & pi & Hheld & Hslot & _ & _ & Heq & Hmade & _ & _ & _
                 & _ & _ & Hnow).
  assert (imagesInFlight demoA !! N.to_nat 0 = Some VK_NULL_HANDLE) as Hnull
    by (vm_compute; reflexivity).
  rewrite Hnull in Hheld. injection Hheld as <-.
  exists slotFence, result, s', w', si, pi.
  split; [exact Hslot|]. split; [exact Heq|]. split; [exact Hmade|exact Hnow].
Defined.

Lemma submit_changes_only_index_and_frame_witness :
  ∃ result s' w',
    submitCommandBuffers 2 demoDevice [901] 0 demoA worldA = Ok result s' w' ∧
    imagesInFlight s' !! 1%nat = imagesInFlight demoA !! 1%nat ∧
    next_handle w' = next_handle worldA.
Proof.
  assert ((2 : N) ≠ 0) as H1 by discriminate.
  assert (N.to_nat (currentFrame demoA)
          < length (imageAvailableSemaphores demoA))%nat as H2
    by (vm_compute; lia).
  assert (N.to_nat (currentFrame demoA)
          < length (renderFinishedSemaphores demoA))%nat as H3
    by (vm_compute; lia).
  assert (N.to_nat (currentFrame demoA) < length (inFlightFences demoA))%nat
    as H4 by (vm_compute; lia).
  assert (N.to_nat 0 < length (imagesInFlight demoA))%nat as H5
    by (vm_compute; lia).
  pose proof (submit_changes_only_index_and_frame 2 demoDevice [901] 0
                demoA worldA H1 H2 H3 H4 H5) as H.
  destruct H as (result & s' & w' & Heq & _ & _ & Hother & Hnext).
  exists result, s', w'. split; [exact Heq|]. split; [|exact Hnext].
  apply Hother. vm_compute. discriminate.
Defined.

Lemma resubmit_same_image_waits_on_previous_fence_witness :
  ∃ fence result1 s1 w1 nextFence result2 s2 w2 si2 pi2,
    inFlightFences demoA !! N.to_nat (currentFrame demoA) = Some fence ∧
    submitCommandBuffers 2 demoDevice [901] 0 demoA worldA = Ok result1 s1 w1 ∧
    submitCommandBuffers 2 demoDevice [902] 0 s1 w1 = Ok result2 s2 w2 ∧
    made w1 w2 [WaitForFences fence true UINT64_MAX;
                ResetFences nextFence; QueueSubmit si2 nextFence;
                QueuePresentKHR pi2 result2].
Proof.
  assert (0 < 2) as H1 by reflexivity.
  assert (N.to_nat 0 < imageCount demoA)%nat as H2 by (vm_compute; lia).
  pose proof (resubmit_same_image_waits_on_previous_fence 2 demoDevice []
                demoA worldA [901] [902] 0 H1 demoA_reachable H2) as H.
  destruct H as (held & fence & r1 & s1 & w1 & si1 & pi1 & nextFence & r2
                 & s2 & w2 & si2 & pi2 & _ & Hf & Heq1 & _ & _ & _ & _ & Heq2
                 & Hmade).
  exists fence, r1, s1, w1, nextFence, r2, s2, w2, si2, pi2.
  split; [exact Hf|]. split; [exact Heq1|]. split; [exact Heq2|exact Hmade].
Defined.

Lemma acquire_then_submit_share_slot_witness :
  ∃ fence semaphore answer w1 result s2 w2 si pi,
    inFlightFences demoA !! N.to_nat (currentFrame demoA) = Some fence ∧
    imageAvailableSemaphores demoA !! N.to_nat (currentFrame demoA)
      = Some semaphore ∧
    acquireNextImage demoDevice demoA worldA = Ok answer demoA w1 ∧
    submitCommandBuffers 2 demoDevice [901] 0 demoA w1 = Ok result s2 w2 ∧
    made w1 w2 [ResetFences fence; QueueSubmit si fence;
                QueuePresentKHR pi result] ∧
    si_pWaitSemaphores si = [semaphore].
Proof.
  assert ((2 : N) ≠ 0) as H1 by discriminate.
  assert (N.to_nat (currentFrame demoA)
          < length (imageAvailableSemaphores demoA))%nat as H2
    by (vm_compute; lia).
  assert (N.to_nat (currentFrame demoA)
          < length (renderFinishedSemaphores demoA))%nat as H3
    by (vm_compute; lia).
  assert (N.to_nat (currentFrame demoA) < length (inFlightFences demoA))%nat
    as H4 by (vm_compute; lia).
  assert (N.to_nat 0 < length (imagesInFlight demoA))%nat as H5
    by (vm_compute; lia).
  pose proof (acquire_then_submit_share_slot 2 demoDevice [901] 0 demoA worldA
                H1 H2 H3 H4 H5) as H.
  destruct H as (held & fence & semaphore & answer & w1 & result & s2 & w2
                 & si & pi & Hheld & Hf & Hs & Hacq & _ & _ & Hsub & Hmade
                 & Hsem).
  assert (imagesInFlight demoA !! N.to_nat 0 = Some VK_NULL_HANDLE) as Hnull
    by (vm_compute; reflexivity).
  rewrite Hnull in Hheld. injection Hheld as <-.
  exists fence, semaphore, answer, w1, result, s2, w2, si, pi.
  split; [exact Hf|]. split; [exact Hs|]. split; [exact Hacq|].
  split; [exact Hsub|]. split; [exact Hmade|exact Hsem].
Defined.

Lemma frame_index_cycles_witness :
  currentFrame demoA1 = N.of_nat (length ([] ++ [(0, currentFrame demoA)])) mod 2.
Proof.
  assert (∀ before pi, presentAnswer demoDevice before pi = eSuccess) as H1
    by (intros; reflexivity).
  assert (0 < 2 < 2 ^ 31) as H2 by (split; reflexivity).
  pose proof (frame_index_cycles 2 demoDevice _ demoA1 worldA1
                H1 H2 demoA1_reachable) as H.
  exact (proj1 H).
Defined.

Lemma acquire_after_failed_present_same_slot_witness :
  ∃ fence semaphore answer w2,
    inFlightFences demoC !! N.to_nat (currentFrame demoC) = Some fence ∧
    currentFrame demoC1 = currentFrame demoC ∧
    acquireNextImage overflowDevice demoC1 worldC1 = Ok answer demoC1 w2 ∧
    made worldC1 w2 [WaitForFences fence true UINT64_MAX;
                     AcquireNextImageKHR (swapChain demoC) UINT64_MAX
                                         semaphore VK_NULL_HANDLE answer].
Proof.
  assert (0 < 2) as H1 by reflexivity.
  assert (N.to_nat 1 < imageCount demoC)%nat as H2 by (vm_compute; lia).
  assert (submitCommandBuffers 2 overflowDevice [901] 1 demoC worldC
          = Ok eErrorOutOfDateKHR demoC1 worldC1) as H3
    by (vm_compute; reflexivity).
  assert (eErrorOutOfDateKHR ≠ eSuccess) as H4 by discriminate.
  pose proof (acquire_after_failed_present_same_slot 2 overflowDevice [] demoC
                worldC [901] 1 eErrorOutOfDateKHR demoC1 worldC1
                H1 demoC_reachable H2 H3 H4) as H.
  destruct H as (held & fence & semaphore & si & pi & answer & w2 & _ & Hf & _
                 & _ & _ & Hcf & Hacq & Hmade).
  exists fence, semaphore, answer, w2.
  split; [exact Hf|]. split; [exact Hcf|]. split; [exact Hacq|exact Hmade].
Defined.

Lemma init_call_sequence_witness :
  ∃ s' w' line ci rpci,
    init 2 demoDevice (fresh_object demoExtent None) demoWorld = Ok () s' w' ∧
    made demoWorld w' (init_calls s' line ci rpci).
Proof.
  assert (formats (getSwapChainSupport demoDevice (calls demoWorld)) ≠ [])
    as H1 by (vm_compute; discriminate).
  pose proof (init_call_sequence 2 demoDevice (fresh_object demoExtent None)
                demoWorld H1) as H.
  destruct H as (s' & w' & line & ci & rpci & Heq & Hmade & _).
  exists s', w', line, ci, rpci. split; [exact Heq|exact Hmade].
Defined.

Lemma createSwapChain_create_info_witness :
  ∃ s' w' line ci sc images,
    createSwapChain overflowDevice (fresh_object demoExtent None) demoWorld
      = Ok () s' w' ∧
    made demoWorld w' [StdCout line; CreateSwapchainKHR ci sc;
                       GetSwapchainImagesKHR sc images] ∧
    sci_imageSharingMode ci = eConcurrent ∧
    sci_presentMode ci = eFifo.
Proof.
  assert (formats (getSwapChainSupport overflowDevice (calls demoWorld)) ≠ [])
    as H1 by (vm_compute; discriminate).
  pose proof (createSwapChain_create_info overflowDevice
                (fresh_object demoExtent None) demoWorld H1) as H.
  destruct H as (s' & w' & line & ci & sc & images & chosen & Heq & Hmade & _
                 & _ & _ & _ & Hfifo & _ & Hconc & _).
  exists s', w', line, ci, sc, images.
  split; [exact Heq|]. split; [exact Hmade|]. split.
  - apply Hconc. vm_compute. discriminate.
  - apply Hfifo. vm_compute. intros Hin.
    apply elem_of_cons in Hin as [Hin|Hin]; [discriminate Hin|].
    by apply elem_of_nil in Hin.
Defined.

Lemma init_creation_order_witness :
  ∃ s' w' tr,
    init 2 demoDevice (fresh_object demoExtent None) demoWorld = Ok () s' w' ∧
    made demoWorld w' tr ∧
    (imageCount s' ≠ 0%nat ->
     creation_order tr
     = [CatSwapChain; CatViews; CatRenderPass; CatDepth; CatFramebuffers;
        CatSync]).
Proof.
  assert (formats (getSwapChainSupport demoDevice (calls demoWorld)) ≠ [])
    as H1 by (vm_compute; discriminate).
  assert (0 < 2) as H2 by reflexivity.
  exact (init_creation_order 2 demoDevice (fresh_object demoExtent None)
           demoWorld H1 H2).
Defined.

Lemma dtor_releases_what_init_created_witness :
  ∃ s1 w1 created s2 w2 released,
    init 2 demoDevice (fresh_object demoExtent None) demoWorld = Ok () s1 w1 ∧
    made demoWorld w1 created ∧
    LveSwapChain_dtor 2 (set_currentFrame 1 (set_imagesInFlight [20; 0; 0] s1))
                      w1 = Ok () s2 w2 ∧
    made w1 w2 released ∧
    released_handles released ≡ₚ created_handles created.
Proof.
  assert (formats (getSwapChainSupport demoDevice (calls demoWorld)) ≠ [])
    as H1 by (vm_compute; discriminate).
  pose proof (dtor_releases_what_init_created 2 demoDevice
                (fresh_object demoExtent None) demoWorld 1 [20; 0; 0]) as H.
  destruct (init 2 demoDevice (fresh_object demoExtent None) demoWorld)
    as [[] s1 w1|s1 w1] eqn:Hinit.
  - destruct (H w1 H1) as (s1' & w1' & created & s2 & w2 & released & Heq
                           & Hmade & Hd & Hmade2 & Hperm).
    injection Heq as <- <-.
    exists s1, w1, created, s2, w2, released.
    split; [reflexivity|]. split; [exact Hmade|]. split; [exact Hd|].
    split; [exact Hmade2|exact Hperm].
  - destruct (H demoWorld H1) as (s1' & w1' & created & s2 & w2 & released
                                 & Heq & _).
    discriminate Heq.
Defined.

Lemma successor_dtor_spares_predecessor_witness :
  ∃ s' w' s2 w2 released,
    LveSwapChain_ctor_previous 2 demoDevice resizedExtent (Some demoA) worldA
      = Ok () s' w' ∧
    LveSwapChain_dtor 2 s' worldA = Ok () s2 w2 ∧
    made worldA w2 released ∧
    DestroySwapchainKHR (swapChain demoA) ∉ released.
Proof.
  assert (formats (getSwapChainSupport demoDevice (calls worldA)) ≠ [])
    as H1 by (vm_compute; discriminate).
  assert (swapChain demoA <= next_handle worldA) as H2
    by (vm_compute; discriminate).
  pose proof (successor_dtor_spares_predecessor 2 demoDevice resizedExtent
                demoA worldA worldA H1 H2) as H.
  destruct H as (s' & w' & s2 & w2 & released & Heq & Hd & Hmade & _ & Hno).
  exists s', w', s2, w2, released.
  split; [exact Heq|]. split; [exact Hd|]. split; [exact Hmade|].
  intros Hin. exact (Hno _ Hin eq_refl).
Defined.

Lemma createSwapChain_image_count_within_bounds_witness :
  ∃ s' w' line ci sc images,
    createSwapChain demoDevice (fresh_object demoExtent None) demoWorld
      = Ok () s' w' ∧
    made demoWorld w' [StdCout line; CreateSwapchainKHR ci sc;
                       GetSwapchainImagesKHR sc images] ∧
    2 <= sci_minImageCount ci ∧
    sci_minImageCount ci <= 8.
Proof.
  assert (formats (getSwapChainSupport demoDevice (calls demoWorld)) ≠ [])
    as H1 by (vm_compute; discriminate).
  assert (minImageCount
            (capabilities (getSwapChainSupport demoDevice (calls demoWorld)))
          + 1 < 2 ^ 32) as H2 by reflexivity.
  assert (maxImageCount
            (capabilities (getSwapChainSupport demoDevice (calls demoWorld)))
          = 0 ∨
          minImageCount
            (capabilities (getSwapChainSupport demoDevice (calls demoWorld)))
          <= maxImageCount
               (capabilities (getSwapChainSupport demoDevice (calls demoWorld))))
    as H3 by (right; vm_compute; discriminate).
  pose proof (createSwapChain_image_count_within_bounds demoDevice
                (fresh_object demoExtent None) demoWorld H1 H2 H3) as H.
  destruct H as (s' & w' & line & ci & sc & images & Heq & Hmade & Hlo & Hhi).
  exists s', w', line, ci, sc, images.
  split; [exact Heq|]. split; [exact Hmade|]. split; [exact Hlo|].
  apply Hhi. vm_compute. discriminate.
Defined.

Lemma frame_cycle_invariants_witness :
  currentFrame demoA1 < 2 ∧ NoDup (inFlightFences demoA1) ∧
  length (imagesInFlight demoA1) = imageCount demoA1.
Proof.
  assert (0 < 2) as H1 by reflexivity.
  pose proof (frame_cycle_invariants 2 demoDevice _ demoA1 worldA1
                H1 demoA1_reachable) as H.
  destruct H as (Hcf & _ & _ & _ & Hnd & _ & _ & _ & _ & _ & _ & Hfl & _).
  split; [exact Hcf|]. split; [exact Hnd|exact Hfl].
Defined.
